(** * Anchor PDS: check-in validator, record store read path, identity cache

    A shallow embedding of the core components of the Anchor PDS
    (shared/types.ts, backend/database/queries.ts, shared/auth.ts) and of
    the request handlers that call them (backend/routes), with the
    properties the specification states about them and further properties
    of the code.

    Conventions.
    - A JavaScript string is a [string]; one [ascii] stands for one UTF-16
      code unit, so [String.length] is the JavaScript [.length].
    - A JavaScript number is an IEEE binary64 value, [spec_float] of the
      standard library with precision 53 and maximal exponent 1024.
    - [throw] is the [Throw] case of the [completion] type; a [try]/[catch]
      is a match on it.
    - Host functions whose result the language leaves to the implementation
      or to the outside world ([Date.parse], [JSON.parse], [fetch],
      [Date.now]) are variables of the section that uses them. *)

From Stdlib Require Import ZArith List String Ascii Bool Lia.
From Stdlib Require Import Floats.SpecFloat.
From Stdlib Require Import Sorting.Sorted Structures.OrderedTypeEx.
From stdpp Require Import base gmap strings.
Import ListNotations.

Local Open Scope string_scope.
Local Open Scope Z_scope.

(** ** JavaScript values *)

Module JS.

Abbreviation number := spec_float.

Definition prec : Z := 53.
Definition emax : Z := 1024.

(** The number denoted by an integer literal of the source. *)
Definition of_Z (n : Z) : number := binary_normalize prec emax n 0 false.

Definition isNaN (x : number) : bool :=
  match x with S754_nan => true | _ => false end.

Definition lt (x y : number) : bool := SFltb x y.
Definition gt (x y : number) : bool := SFltb y x.

(** Untyped values, as an [any] parameter receives them. An object is the
    list of its own properties in insertion order. *)
#[local] Set Warnings "-register-all".
Inductive value : Type :=
| Undefined
| Null
| Bool (b : bool)
| Number (x : number)
| Str (s : string)
| Array (items : list value)
| Object (props : list (string * value)).

Inductive type_tag : Type :=
| TUndefined | TObject | TBoolean | TNumber | TString.

Definition typeof (v : value) : type_tag :=
  match v with
  | Undefined => TUndefined
  | Null => TObject
  | Bool _ => TBoolean
  | Number _ => TNumber
  | Str _ => TString
  | Array _ => TObject
  | Object _ => TObject
  end.

Definition type_tag_eqb (a b : type_tag) : bool :=
  match a, b with
  | TUndefined, TUndefined | TObject, TObject | TBoolean, TBoolean
  | TNumber, TNumber | TString, TString => true
  | _, _ => false
  end.

Definition is_string (v : value) : bool := type_tag_eqb (typeof v) TString.

Definition is_undefined (v : value) : bool :=
  match v with Undefined => true | _ => false end.

Definition is_null (v : value) : bool :=
  match v with Null => true | _ => false end.

Definition isArray (v : value) : bool :=
  match v with Array _ => true | _ => false end.

(** ToBoolean: [undefined], [null], [false], [0], [-0], [NaN] and the empty
    string are falsy. *)
Definition truthy (v : value) : bool :=
  match v with
  | Undefined | Null => false
  | Bool b => b
  | Number (S754_zero _) | Number S754_nan => false
  | Number _ => true
  | Str s => negb (s =? "")%string
  | Array _ | Object _ => true
  end.

(** [v === Str s] *)
Definition is_str (v : value) (s : string) : bool :=
  match v with Str t => (t =? s)%string | _ => false end.

(** The string held by a value already known to be a string, and its
    [.length]. *)
Definition str_of (v : value) : string :=
  match v with Str s => s | _ => "" end.

Definition str_length (v : value) : nat := String.length (str_of v).

Fixpoint assoc (k : string) (props : list (string * value)) : option value :=
  match props with
  | [] => None
  | (k', v) :: rest => if (k' =? k)%string then Some v else assoc k rest
  end.

(** The value of a property, which is [undefined] when the object has
    none of that name. *)
Definition or_undefined (o : option value) : value :=
  match o with Some v => v | None => Undefined end.

(** [v.k] for a value that is neither [null] nor [undefined]. The keys the
    program reads ([text], [$type], [latitude], ...) are on no built-in
    prototype, so a primitive or an array has none of them. *)
Definition prop (v : value) (k : string) : value :=
  match v with
  | Object props => or_undefined (assoc k props)
  | _ => Undefined
  end.

(** [o.k = v] on the property list of an object. *)
Fixpoint set_prop (props : list (string * value)) (k : string) (v : value)
  : list (string * value) :=
  match props with
  | [] => [(k, v)]
  | (k', v') :: rest =>
      if (k' =? k)%string then (k, v) :: rest else (k', v') :: set_prop rest k v
  end.

(** Thrown values. [UnsupportedLocationType tag] is what the statement
    [throw new Error(`Unsupported location type: ${tag}`)] throws: the
    [Error] whose message is that text followed by the string conversion
    of [tag] (for a string, the string itself). [TypeError] is what
    reading a property of [null] or [undefined] throws, [SyntaxError] what
    [JSON.parse] throws, [SqliteMismatch] what [sqlite.execute] throws
    when the statement fails with SQLITE_MISMATCH, "datatype mismatch". *)
Inductive exn : Type :=
| Error (message : string)
| UnsupportedLocationType (tag : value)
| TypeError
| SyntaxError
| SqliteMismatch.

Inductive completion (A : Type) : Type :=
| Ret (a : A)
| Throw (e : exn).
Arguments Ret {A} a.
Arguments Throw {A} e.

Definition bind {A B} (c : completion A) (k : A -> completion B) : completion B :=
  match c with
  | Ret a => k a
  | Throw e => Throw e
  end.

(** [v.k] for an arbitrary value. *)
Definition get (v : value) (k : string) : completion value :=
  match v with
  | Undefined | Null => Throw TypeError
  | _ => Ret (prop v k)
  end.

End JS.

Notation "'do' x <- c ; k" := (JS.bind c (fun x => k))
  (at level 10, x name, c at level 100, k at level 200).

(** ** The global function [parseFloat]

    ECMAScript: strip leading white space, take the longest prefix that is
    a StrDecimalLiteral, and round its mathematical value to the nearest
    binary64 number (ties to even); [NaN] when no prefix is a literal. *)

Module ParseFloat.

Definition is_digit (c : ascii) : bool :=
  let n := nat_of_ascii c in (48 <=? n)%nat && (n <=? 57)%nat.

Definition digit_value (c : ascii) : Z := Z.of_nat (nat_of_ascii c) - 48.

(** WhiteSpace and LineTerminator code units below 256. *)
Definition is_white_space (c : ascii) : bool :=
  let n := nat_of_ascii c in
  ((9 <=? n)%nat && (n <=? 13)%nat) || (n =? 32)%nat || (n =? 160)%nat.

Fixpoint trim_start (s : string) : string :=
  match s with
  | String c rest => if is_white_space c then trim_start rest else s
  | EmptyString => s
  end.

(** The longest run of decimal digits at the head of [s], and what follows. *)
Fixpoint digits (s : string) : list ascii * string :=
  match s with
  | String c rest =>
      if is_digit c then let '(ds, r) := digits rest in (c :: ds, r)
      else ([], s)
  | EmptyString => ([], s)
  end.

Definition decimal_value (ds : list ascii) : Z :=
  fold_left (fun acc c => 10 * acc + digit_value c) ds 0.

(** A scanned literal: either [Infinity] or significand digits times a
    power of ten. *)
Inductive literal : Type :=
| LitInfinity
| LitDecimal (significand : Z) (exponent : Z).

(** An optional sign at the head of [s]: whether it is a minus, and what
    follows. *)
Definition sign (s : string) : bool * string :=
  match s with
  | String c rest =>
      if (c =? "+")%char then (false, rest)
      else if (c =? "-")%char then (true, rest)
      else (false, s)
  | EmptyString => (false, s)
  end.

(** ExponentPart_opt: [e] or [E], an optional sign, and at least one digit;
    otherwise the literal ends before the [e]. *)
Definition exponent_part (s : string) : Z * string :=
  match s with
  | String c rest =>
      if (c =? "e")%char || (c =? "E")%char then
        let '(neg, rest') := sign rest in
        match digits rest' with
        | ([], _) => (0, s)
        | (ds, r) => ((if neg then - decimal_value ds else decimal_value ds), r)
        end
      else (0, s)
  | EmptyString => (0, s)
  end.

(** [s] without the prefix [p], when it starts with [p]. *)
Fixpoint strip_prefix (p s : string) : option string :=
  match p, s with
  | EmptyString, _ => Some s
  | String a p', String b s' =>
      if (a =? b)%char then strip_prefix p' s' else None
  | String _ _, EmptyString => None
  end.

Definition is_nil {A} (l : list A) : bool :=
  match l with [] => true | _ => false end.

(** StrUnsignedDecimalLiteral at the head of [s], and what follows it:
    [Infinity], or digits with an optional fraction and exponent, or a
    fraction with at least one digit and an optional exponent. *)
Definition unsigned_literal (s : string) : option (literal * string) :=
  match strip_prefix "Infinity" s with
  | Some rest => Some (LitInfinity, rest)
  | None =>
      let '(ip, r1) := digits s in
      match r1 with
      | String c r2 =>
          if (c =? ".")%char then
            let '(fp, r3) := digits r2 in
            if is_nil ip && is_nil fp then None
            else
              let '(e, r4) := exponent_part r3 in
              Some (LitDecimal (decimal_value (ip ++ fp))
                               (e - Z.of_nat (List.length fp)), r4)
          else if is_nil ip then None
          else let '(e, r2) := exponent_part r1 in
               Some (LitDecimal (decimal_value ip) e, r2)
      | EmptyString =>
          if is_nil ip then None
          else Some (LitDecimal (decimal_value ip) 0, r1)
      end
  end.

(** StrDecimalLiteral: an optional sign and an unsigned literal. The
    boolean is [true] for a minus sign. *)
Definition signed_literal (s : string) : option (bool * literal * string) :=
  let '(neg, body) := sign s in
  match unsigned_literal body with
  | Some (l, rest) => Some (neg, l, rest)
  | None => None
  end.

(** The binary64 number nearest to [m * 10 ^ e], for [0 <= m]. *)
Definition round_decimal (neg : bool) (m e : Z) : JS.number :=
  if m =? 0 then S754_zero neg
  else if 0 <=? e then
    binary_normalize JS.prec JS.emax ((if neg then - m else m) * 10 ^ e) 0 neg
  else
    let '(q, e', l) := SFdiv_core_binary JS.prec JS.emax m 0 (10 ^ (- e)) 0 in
    binary_round_aux JS.prec JS.emax neg q e' l.

Definition literal_value (neg : bool) (l : literal) : JS.number :=
  match l with
  | LitInfinity => S754_infinity neg
  | LitDecimal m e => round_decimal neg m e
  end.

Definition parseFloat (s : string) : JS.number :=
  match signed_literal (trim_start s) with
  | Some (neg, l, _) => literal_value neg l
  | None => S754_nan
  end.

(** [s] is, after leading white space, a StrDecimalLiteral and nothing
    more. *)
Definition numeric (s : string) : bool :=
  match signed_literal (trim_start s) with
  | Some (_, _, rest) => (rest =? "")%string
  | None => false
  end.

(** [g] does not start with a character that could continue a literal: a
    digit, a point or an exponent indicator. *)
Definition non_numeric (g : string) : bool :=
  match g with
  | String c _ =>
      negb (is_digit c || (c =? ".")%char || (c =? "e")%char || (c =? "E")%char)
  | EmptyString => true
  end.

End ParseFloat.

(** ** shared/types.ts: the check-in validator *)

Module Types.
Import JS.

Section Validator.

(** [Date.parse]: the time value of a date string, [NaN] when the string is
    not recognised. Which strings beyond the ISO format are recognised is
    left to the implementation. *)
Variable Date_parse : string -> number.

(** [location.latitude] is the first property the function reads: it
    throws for [null] and [undefined], and then no later read can. *)
Definition validateGeoLocation (location : value) : completion value :=
  do latitude <- get location "latitude";
  if negb (truthy latitude) || negb (is_string latitude) then
    Throw (Error "geo location must have latitude as string")
  else if negb (truthy (prop location "longitude"))
          || negb (is_string (prop location "longitude")) then
    Throw (Error "geo location must have longitude as string")
  else
    let lat := ParseFloat.parseFloat (str_of (prop location "latitude")) in
    let lng := ParseFloat.parseFloat (str_of (prop location "longitude")) in
    if isNaN lat || lt lat (of_Z (-90)) || gt lat (of_Z 90) then
      Throw (Error "latitude must be a valid number between -90 and 90")
    else if isNaN lng || lt lng (of_Z (-180)) || gt lng (of_Z 180) then
      Throw (Error "longitude must be a valid number between -180 and 180")
    else
      Ret (Object [("$type", Str "community.lexicon.location.geo");
                   ("latitude", prop location "latitude");
                   ("longitude", prop location "longitude")]).

(** One of the six blocks of [validateAddressLocation], which differ in the
    field name only: a field that is present must be a string and is
    copied. Reading the field throws for [null] and [undefined]. *)
Definition address_field (location : value) (field : string)
    (validatedAddress : list (string * value))
  : completion (list (string * value)) :=
  do value <- get location field;
  if negb (is_undefined value) then
    if negb (is_string value) then
      Throw (Error (field ++ " must be a string"))
    else Ret (set_prop validatedAddress field (prop location field))
  else Ret validatedAddress.

Definition validateAddressLocation (location : value) : completion value :=
  let validatedAddress := [("$type", Str "community.lexicon.location.address")] in
  do validatedAddress <- address_field location "street" validatedAddress;
  do validatedAddress <- address_field location "locality" validatedAddress;
  do validatedAddress <- address_field location "region" validatedAddress;
  do validatedAddress <- address_field location "country" validatedAddress;
  do validatedAddress <- address_field location "postalCode" validatedAddress;
  do validatedAddress <- address_field location "name" validatedAddress;
  Ret (Object validatedAddress).

(** The body of the loop over [record.locations]. *)
Definition validateLocation (location : value) : completion value :=
  do tag <- get location "$type";
  if negb (truthy tag) then
    Throw (Error "Each location must have a $type field")
  else if is_str tag "community.lexicon.location.geo" then
    validateGeoLocation location
  else if is_str tag "community.lexicon.location.address" then
    validateAddressLocation location
  else Throw (UnsupportedLocationType tag).

(** [for (const location of record.locations) { ...; validatedLocations.push(...) }] *)
Fixpoint validateLocations (locations validatedLocations : list value)
  : completion (list value) :=
  match locations with
  | [] => Ret validatedLocations
  | location :: rest =>
      do validated <- validateLocation location;
      validateLocations rest (validatedLocations ++ [validated])
  end.

(** One of the three category blocks, which differ in the field name and
    the length ceiling only. *)
Definition category_field (record : value) (field : string) (ceiling : nat)
    (too_long : string) (validatedRecord : list (string * value))
  : completion (list (string * value)) :=
  if negb (is_undefined (prop record field)) then
    if negb (is_string (prop record field))
       || (str_length (prop record field) =? 0)%nat then
      Throw (Error (field ++ " must be a non-empty string"))
    else if (ceiling <? str_length (prop record field))%nat then
      Throw (Error too_long)
    else Ret (set_prop validatedRecord field (prop record field))
  else Ret validatedRecord.

Definition validateCheckinRecord (record : value) : completion value :=
  if negb (type_tag_eqb (typeof record) TObject) || is_null record then
    Throw (Error "Record must be an object")
  else if negb (truthy (prop record "text"))
          || negb (is_string (prop record "text")) then
    Throw (Error "Record must have a text field")
  else if (300 <? str_length (prop record "text"))%nat then
    Throw (Error "text must be 300 characters or less")
  else if negb (truthy (prop record "createdAt"))
          || negb (is_string (prop record "createdAt")) then
    Throw (Error "Record must have a createdAt field")
  else if isNaN (Date_parse (str_of (prop record "createdAt"))) then
    Throw (Error "createdAt must be a valid ISO timestamp")
  else
    let validatedRecord :=
      [("$type", Str "app.dropanchor.checkin");
       ("text", prop record "text");
       ("createdAt", prop record "createdAt")] in
    do validatedRecord <-
      (if negb (is_undefined (prop record "locations")) then
         match prop record "locations" with
         | Array locations =>
             do validatedLocations <- validateLocations locations [];
             if (0 <? List.length validatedLocations)%nat then
               Ret (set_prop validatedRecord "locations" (Array validatedLocations))
             else Ret validatedRecord
         | _ => Throw (Error "locations must be an array")
         end
       else Ret validatedRecord);
    do validatedRecord <-
      category_field record "category" 50
        "category must be 50 characters or less" validatedRecord;
    do validatedRecord <-
      category_field record "categoryGroup" 50
        "categoryGroup must be 50 characters or less" validatedRecord;
    do validatedRecord <-
      category_field record "categoryIcon" 10
        "categoryIcon must be 10 characters or less" validatedRecord;
    Ret (Object validatedRecord).

End Validator.

End Types.

(** ** A sample host

    A [Date.parse] that recognises exactly the strings of the form
    YYYY-MM-DDTHH:mm:ssZ with fields in range, and a small [JSON.parse].
    They serve to run the program on concrete inputs; the theorems are
    stated for every host. *)

Module Host.

Definition two (a b : ascii) : option Z :=
  if ParseFloat.is_digit a && ParseFloat.is_digit b
  then Some (10 * ParseFloat.digit_value a + ParseFloat.digit_value b)
  else None.

Definition is_leap (y : Z) : bool :=
  ((y mod 4 =? 0) && negb (y mod 100 =? 0)) || (y mod 400 =? 0).

Definition days_in_month (y m : Z) : Z :=
  if m =? 2 then (if is_leap y then 29 else 28)
  else if (m =? 4) || (m =? 6) || (m =? 9) || (m =? 11) then 30 else 31.

(** Days from 1970-01-01 to the given civil date. *)
Definition days_from_civil (y m d : Z) : Z :=
  let y' := if m <=? 2 then y - 1 else y in
  let era := y' / 400 in
  let yoe := y' - era * 400 in
  let doy := (153 * (if 2 <? m then m - 3 else m + 9) + 2) / 5 + d - 1 in
  let doe := yoe * 365 + yoe / 4 - yoe / 100 + doy in
  era * 146097 + doe - 719468.

Definition Date_parse (s : string) : JS.number :=
  match list_ascii_of_string s with
  | [y1; y2; y3; y4; "-"; m1; m2; "-"; d1; d2; "T";
     h1; h2; ":"; n1; n2; ":"; s1; s2; "Z"]%char =>
      match two y1 y2, two y3 y4, two m1 m2, two d1 d2,
            two h1 h2, two n1 n2, two s1 s2 with
      | Some yh, Some yl, Some mo, Some dd, Some hh, Some mi, Some ss =>
          let y := 100 * yh + yl in
          if (1 <=? mo) && (mo <=? 12) && (1 <=? dd)
             && (dd <=? days_in_month y mo)
             && (hh <=? 23) && (mi <=? 59) && (ss <=? 59)
          then JS.of_Z ((days_from_civil y mo dd * 86400
                         + hh * 3600 + mi * 60 + ss) * 1000)
          else S754_nan
      | _, _, _, _, _, _, _ => S754_nan
      end
  | _ => S754_nan
  end.

(** A [JSON.parse] that recognises the texts [[]], [{}] and [null] and
    throws on any other. *)
Definition JSON_parse (s : string) : JS.completion JS.value :=
  if (s =? "[]")%string then JS.Ret (JS.Array [])
  else if (s =? "{}")%string then JS.Ret (JS.Object [])
  else if (s =? "null")%string then JS.Ret JS.Null
  else JS.Throw JS.SyntaxError.

End Host.

(** ** backend/database/queries.ts: the read path of the record store *)

Module Queries.
Import JS.

(** A cell of the check-in table. Every column is declared TEXT, so a cell
    holds text or NULL. *)
Inductive sqlval : Type :=
| SNull
| SText (s : string).

(** A row of [SELECT *], in the column order of the CREATE TABLE
    statement. *)
Record row : Type := {
  row_id : sqlval;
  row_authorDid : sqlval;
  row_text : sqlval;
  row_createdAt : sqlval;
  row_locations : sqlval;
  row_category : sqlval;
  row_categoryGroup : sqlval;
  row_categoryIcon : sqlval;
  row_uri : sqlval;
  row_cid : sqlval
}.

(** [row[i]] for [i] from 0 to 9. *)
Definition cell (r : row) (i : nat) : sqlval :=
  match i with
  | 0 => row_id r | 1 => row_authorDid r | 2 => row_text r
  | 3 => row_createdAt r | 4 => row_locations r | 5 => row_category r
  | 6 => row_categoryGroup r | 7 => row_categoryIcon r | 8 => row_uri r
  | _ => row_cid r
  end%nat.

(** [c ? ... : ...] and [String(c)] on a cell. *)
Definition cell_truthy (c : sqlval) : bool :=
  match c with SNull => false | SText s => negb (s =? "")%string end.

Definition String_of (c : sqlval) : string :=
  match c with SNull => "null" | SText s => s end.

Record StoredCheckin : Type := {
  type : string;
  id : string;
  authorDid : string;
  text : string;
  createdAt : string;
  locations : option value;
  category : option string;
  categoryGroup : option string;
  categoryIcon : option string;
  uri : string;
  cid : option string
}.

(** *** What the SQL statements compute

    Text is compared byte by byte, NULL is below every text and a
    comparison with NULL selects nothing. A negative LIMIT puts no bound
    on the number of rows (SQLite: "If the LIMIT expression evaluates to a
    negative value, then there is no upper bound on the number of rows
    returned"). The limit is an integer: the statement fails with
    SQLITE_MISMATCH for a number that is not an integer of 64 bits, and no
    row comes back. The rows of one author are sorted after they are
    selected: rows with equal keys keep their table order. The global
    feed is read backwards off the index on [createdAt]: rows with equal
    keys come out in the reverse of their table order, the latest first. *)

Definition sql_eq (c : sqlval) (s : string) : bool :=
  match c with SNull => false | SText t => (t =? s)%string end.

Definition sql_lt (c : sqlval) (s : string) : bool :=
  match c with SNull => false | SText t => String.ltb t s end.

Definition sql_leb (a b : sqlval) : bool :=
  match a, b with
  | SNull, _ => true
  | SText _, SNull => false
  | SText s, SText t => String.leb s t
  end.

Fixpoint insert_desc (r : row) (sorted : list row) : list row :=
  match sorted with
  | [] => [r]
  | x :: rest =>
      if sql_leb (row_createdAt x) (row_createdAt r) then r :: sorted
      else x :: insert_desc r rest
  end.

Definition order_by_createdAt_desc (rows : list row) : list row :=
  fold_right insert_desc [] rows.

Definition sql_limit (n : Z) (rows : list row) : list row :=
  if n <? 0 then rows else firstn (Z.to_nat n) rows.

(** The integers LIMIT accepts from a bound number. *)
Definition limit_in_range (n : Z) : bool :=
  (- 2 ^ 63 <? n) && (n <? 2 ^ 63).

(** [if (cursor)] on an optional string parameter. *)
Definition given (cursor : option string) : bool :=
  match cursor with Some c => negb (c =? "")%string | None => false end.

Section Reads.

(** [JSON.parse]; it throws on text that is not JSON. *)
Variable JSON_parse : string -> completion value.

(** The conversion of a row, written out three times in the source: once
    in [getCheckinByUri] and once in the [map] callback of each feed
    query. *)
Definition toStoredCheckin (r : row) : completion StoredCheckin :=
  let locationsJson :=
    if cell_truthy (cell r 4) then Some (String_of (cell r 4)) else None in
  do locations <-
    (match locationsJson with
     | Some json =>
         match (do parsed <- JSON_parse json; Ret (Some parsed)) with
         | Ret l => Ret l
         | Throw error => (* console.error *) Ret None
         end
     | None => Ret None
     end);
  Ret {| type := "app.dropanchor.checkin";
         id := String_of (cell r 0);
         authorDid := String_of (cell r 1);
         text := String_of (cell r 2);
         createdAt := String_of (cell r 3);
         locations := locations;
         category := if cell_truthy (cell r 5) then Some (String_of (cell r 5)) else None;
         categoryGroup := if cell_truthy (cell r 6) then Some (String_of (cell r 6)) else None;
         categoryIcon := if cell_truthy (cell r 7) then Some (String_of (cell r 7)) else None;
         uri := String_of (cell r 8);
         cid := if cell_truthy (cell r 9) then Some (String_of (cell r 9)) else None |}.

(** The row with its [locations] cell set to NULL when the cell holds text
    that [JSON.parse] rejects; any other row as it is. *)
Definition without_corrupt_locations (r : row) : row :=
  match row_locations r with
  | SText json =>
      match JSON_parse json with
      | Throw _ =>
          {| row_id := row_id r; row_authorDid := row_authorDid r;
             row_text := row_text r; row_createdAt := row_createdAt r;
             row_locations := SNull; row_category := row_category r;
             row_categoryGroup := row_categoryGroup r;
             row_categoryIcon := row_categoryIcon r;
             row_uri := row_uri r; row_cid := row_cid r |}
      | Ret _ => r
      end
  | SNull => r
  end.

(** [rows.map(callback)] for a callback that may throw. *)
Fixpoint map_rows (rows : list row) : completion (list StoredCheckin) :=
  match rows with
  | [] => Ret []
  | r :: rest =>
      do c <- toStoredCheckin r;
      do cs <- map_rows rest;
      Ret (c :: cs)
  end.

Definition getCheckinByUri (table : list row) (uri : string)
  : completion (option StoredCheckin) :=
  let rows := List.filter (fun r => sql_eq (row_uri r) uri) table in
  match rows with
  | [] => Ret None
  | r :: _ => do c <- toStoredCheckin r; Ret (Some c)
  end.

Definition getCheckinsByAuthor (table : list row) (authorDid : string)
    (limit : option Z) (cursor : option string)
  : completion (list StoredCheckin) :=
  let limit := default 50 limit in
  let selected := List.filter (fun r => sql_eq (row_authorDid r) authorDid) table in
  let selected :=
    if given cursor
    then List.filter (fun r => sql_lt (row_createdAt r) (default "" cursor)) selected
    else selected in
  if limit_in_range limit
  then map_rows (sql_limit limit (order_by_createdAt_desc selected))
  else Throw SqliteMismatch.

Definition getGlobalFeed (table : list row)
    (limit : option Z) (cursor : option string)
  : completion (list StoredCheckin) :=
  let limit := default 50 limit in
  let maxLimit := Z.min limit 100 in
  let selected :=
    if given cursor
    then List.filter (fun r => sql_lt (row_createdAt r) (default "" cursor)) table
    else table in
  if limit_in_range maxLimit
  then map_rows (sql_limit maxLimit (order_by_createdAt_desc (rev selected)))
  else Throw SqliteMismatch.

End Reads.

End Queries.

(** ** shared/auth.ts: the identity cache *)

Module Auth.

Record AuthContext : Type := { did : string; handle : option string }.

Record cached : Type := {
  cached_did : string;
  cached_handle : option string;
  expires : Z
}.

Definition CACHE_TTL : Z := 3600000.

Definition commonPDSHosts : list string :=
  ["https://bsky.social"; "https://staging.bsky.dev"].

(** What one [getSession] request comes to: [fetch] rejects, the response
    is not [ok], the response is [ok] and its body is not JSON, or the
    response is [ok] and carries a session. *)
Inductive response : Type :=
| FetchThrows
| NotOk
| OkNotJson
| OkSession (session : AuthContext).

(** The process state the function touches: the module-level [didCache],
    the wall clock in milliseconds, and the requests sent so far (URL and
    bearer token). *)
Record world : Type := {
  didCache : gmap string cached;
  clock : Z;
  requests : list (string * string)
}.

(** The address [fetch] is called with for a host. *)
Definition getSession_url (pdsHost : string) : string :=
  pdsHost ++ "/xrpc/com.atproto.server.getSession".

(** The response is a refusal or a failure, not a session. *)
Definition rejects (r : response) : Prop :=
  match r with OkSession _ => False | _ => True end.

(** The cache holds nothing usable for [token] at the time of [w]: no
    entry, or one whose expiry time has passed. *)
Definition no_usable_entry (token : string) (w : world) : Prop :=
  match didCache w !! token with
  | Some entry => expires entry <= clock w
  | None => True
  end.

Section ValidateToken.

(** The network: the outcome of a request sent at a given time, and the
    time it takes. *)
Variable network : string -> string -> Z -> response * N.

Definition fetch (url token : string) (w : world) : response * world :=
  let '(r, elapsed) := network url token (clock w) in
  (r, {| didCache := didCache w;
         clock := clock w + Z.of_N elapsed;
         requests := requests w ++ [(url, token)] |}).

(** [for (const pdsHost of commonPDSHosts) { try { ... } catch { continue } }] *)
Fixpoint tryHosts (hosts : list string) (token : string) (w : world)
  : option AuthContext * world :=
  match hosts with
  | [] => (None, w)
  | pdsHost :: rest =>
      let '(sessionResponse, w) := fetch (getSession_url pdsHost) token w in
      match sessionResponse with
      | OkSession session =>
          let authContext := {| did := did session; handle := handle session |} in
          (Some authContext,
           {| didCache :=
                <[token := {| cached_did := did authContext;
                              cached_handle := handle authContext;
                              expires := clock w + CACHE_TTL |}]> (didCache w);
              clock := clock w;
              requests := requests w |})
      | FetchThrows | NotOk | OkNotJson => tryHosts rest token w
      end
  end.

Definition validateToken (token : string) (w : world)
  : option AuthContext * world :=
  match didCache w !! token with
  | Some cached =>
      if expires cached >? clock w then
        (Some {| did := cached_did cached; handle := cached_handle cached |}, w)
      else tryHosts commonPDSHosts token w
  | None => tryHosts commonPDSHosts token w
  end.

End ValidateToken.

End Auth.

(** ** The validation rules of the specification

    Section 4.1 of the specification lists the rules in a fixed order. Here
    every rule is read on its own: it inspects the input and reports its
    violation, whatever the other rules say. [violations] collects all
    reports in the order of the specification. The validator itself is
    [Types.validateCheckinRecord]; the two are compared below. *)

Module Rules.
Import JS.

Definition when (violated : bool) (e : exn) : list exn :=
  if violated then [e] else [].

(** A string of at least one character. *)
Definition nonempty_string (v : value) : bool :=
  match v with Str s => negb (s =? "")%string | _ => false end.

Definition out_of_range (x : number) (lo hi : Z) : bool :=
  isNaN x || lt x (of_Z lo) || gt x (of_Z hi).

(** [x] is a number below [lo] or above [hi]. *)
Definition outside (x : number) (lo hi : Z) : Prop :=
  lt x (of_Z lo) = true \/ gt x (of_Z hi) = true.

(** [x] is a number from [lo] to [hi]. *)
Definition inside (x : number) (lo hi : Z) : Prop :=
  isNaN x = false /\ lt x (of_Z lo) = false /\ gt x (of_Z hi) = false.

Section Rules.

Variable Date_parse : string -> number.

(** Rule 1: a non-null structured object. *)
Definition not_an_object (record : value) : list exn :=
  when (match record with Object _ | Array _ => false | _ => true end)
       (Error "Record must be an object").

(** Rule 2: [text] is there and is a string, the empty string counting as
    no text (the data model asks for 1 to 300 characters); at most 300
    characters. *)
Definition text_missing (record : value) : list exn :=
  when (negb (nonempty_string (prop record "text")))
       (Error "Record must have a text field").

Definition text_too_long (record : value) : list exn :=
  when (match prop record "text" with
        | Str s => (300 <? String.length s)%nat
        | _ => false
        end)
       (Error "text must be 300 characters or less").

(** Rule 3: [createdAt] is there, is a string (again not the empty one),
    and parses. *)
Definition createdAt_missing (record : value) : list exn :=
  when (negb (nonempty_string (prop record "createdAt")))
       (Error "Record must have a createdAt field").

Definition createdAt_unparseable (record : value) : list exn :=
  when (match prop record "createdAt" with
        | Str s => isNaN (Date_parse s)
        | _ => false
        end)
       (Error "createdAt must be a valid ISO timestamp").

(** Rule 4: [locations], when present, is a sequence, and each element in
    turn is a well-formed location. *)
Definition locations_not_array (record : value) : list exn :=
  when (match prop record "locations" with
        | Undefined | Array _ => false
        | _ => true
        end)
       (Error "locations must be an array").

(** A geo location has both coordinates as strings, and each parses to a
    number in its range. *)
Definition coordinate_missing (location : value) (field : string) : list exn :=
  when (negb (nonempty_string (prop location field)))
       (Error ("geo location must have " ++ field ++ " as string")).

Definition coordinate_out_of_range (location : value) (field : string)
    (lo hi : Z) (message : string) : list exn :=
  when (match prop location field with
        | Str s => out_of_range (ParseFloat.parseFloat s) lo hi
        | _ => false
        end)
       (Error message).

Definition geo_violations (location : value) : list exn :=
  coordinate_missing location "latitude"
  ++ coordinate_missing location "longitude"
  ++ coordinate_out_of_range location "latitude" (-90) 90
       "latitude must be a valid number between -90 and 90"
  ++ coordinate_out_of_range location "longitude" (-180) 180
       "longitude must be a valid number between -180 and 180".

(** An address field that is present is a string. *)
Definition address_field_not_string (location : value) (field : string)
  : list exn :=
  when (match prop location field with
        | Undefined | Str _ => false
        | _ => true
        end)
       (Error (field ++ " must be a string")).

Definition address_violations (location : value) : list exn :=
  flat_map (address_field_not_string location)
    ["street"; "locality"; "region"; "country"; "postalCode"; "name"].

(** The rules for one element, in order: it is a value whose properties
    can be read at all; it has a type tag; the tag is one of the two
    known; and the rules of its kind hold. *)
Definition location_violations (location : value) : list exn :=
  let tag := prop location "$type" in
  when (match location with Undefined | Null => true | _ => false end) TypeError
  ++ when (negb (truthy tag)) (Error "Each location must have a $type field")
  ++ when (truthy tag
           && negb (is_str tag "community.lexicon.location.geo")
           && negb (is_str tag "community.lexicon.location.address"))
          (UnsupportedLocationType tag)
  ++ (if is_str tag "community.lexicon.location.geo"
      then geo_violations location else [])
  ++ (if is_str tag "community.lexicon.location.address"
      then address_violations location else []).

Definition locations_violations (record : value) : list exn :=
  match prop record "locations" with
  | Array locations => flat_map location_violations locations
  | _ => []
  end.

(** Rule 5: a category field, when present, is a non-empty string of
    bounded length. *)
Definition category_violations (record : value) (field : string)
    (ceiling : nat) (too_long : string) : list exn :=
  when (match prop record field with
        | Undefined => false
        | v => negb (nonempty_string v)
        end)
       (Error (field ++ " must be a non-empty string"))
  ++ when (match prop record field with
           | Str s => (ceiling <? String.length s)%nat
           | _ => false
           end)
          (Error too_long).

(** The reports of the rules that come before the locations. *)
Definition before_locations (record : value) : list exn :=
  not_an_object record
  ++ text_missing record
  ++ text_too_long record
  ++ createdAt_missing record
  ++ createdAt_unparseable record.

(** All violations of an input, in the order of the specification. *)
Definition violations (record : value) : list exn :=
  not_an_object record
  ++ text_missing record
  ++ text_too_long record
  ++ createdAt_missing record
  ++ createdAt_unparseable record
  ++ locations_not_array record
  ++ locations_violations record
  ++ category_violations record "category" 50
       "category must be 50 characters or less"
  ++ category_violations record "categoryGroup" 50
       "categoryGroup must be 50 characters or less"
  ++ category_violations record "categoryIcon" 10
       "categoryIcon must be 10 characters or less".

End Rules.

(** The property names of a validated check-in and of its locations. *)
Definition recognized : list string :=
  ["$type"; "text"; "createdAt"; "locations";
   "category"; "categoryGroup"; "categoryIcon"].

Definition geo_fields : list string := ["$type"; "latitude"; "longitude"].

Definition address_fields : list string :=
  ["$type"; "street"; "locality"; "region"; "country"; "postalCode"; "name"].

(** An object whose property names are all among [names]. *)
Definition only_fields (names : list string) (v : value) : Prop :=
  exists props, v = Object props /\ Forall (fun k => In k names) (map fst props).

(** [decides c reports]: the outcome [c] is a rejection with the first of
    the [reports], or an acceptance when there is none. *)
Definition decides {A} (c : completion A) (reports : list exn) : Prop :=
  match reports with
  | [] => exists a, c = Ret a
  | e :: _ => c = Throw e
  end.

End Rules.

(** ** Concrete inputs *)

Module Examples.
Import JS.

Definition geo : string := "community.lexicon.location.geo".
Definition address : string := "community.lexicon.location.address".

(** An input that breaks several rules at once. *)
Definition several_violations : value :=
  Object [("text", Str "");
          ("createdAt", Str "2025-06-15T13:00:00");
          ("locations",
           Array [Null;
                  Object [("$type", Str geo);
                          ("latitude", Str "91"); ("longitude", Str "")]]);
          ("categoryIcon", Str "01234567890");
          ("category", Number (of_Z 1))].

(** A valid input with an empty [locations] array. *)
Definition empty_locations : value :=
  Object [("text", Str "Coffee");
          ("createdAt", Str "2025-06-15T13:00:00Z");
          ("locations", Array [])].

(** An input whose [text] is the empty string. *)
Definition empty_text : value :=
  Object [("text", Str ""); ("createdAt", Str "2025-06-15T13:00:00Z")].

(** A record with one geo location. *)
Definition geo_location (latitude longitude : string) : value :=
  Object [("$type", Str geo);
          ("latitude", Str latitude); ("longitude", Str longitude)].

Definition with_location (location : value) : value :=
  Object [("text", Str "Coffee");
          ("createdAt", Str "2025-06-15T13:00:00Z");
          ("locations", Array [location])].

(** A record whose only location has trailing text after both numbers. *)
Definition trailing_text : value :=
  with_location (geo_location "45abc" "7 degrees").

(** A valid input with a stale [$type], unknown properties and locations of
    both kinds. *)
Definition with_extras : value :=
  Object [("$type", Str "something.else");
          ("internalNote", Str "do not publish");
          ("text", Str "Coffee at Central Perk");
          ("createdAt", Str "2025-06-15T13:00:00Z");
          ("locations",
           Array [Object [("$type", Str geo); ("altitude", Str "12");
                          ("latitude", Str "40.7128");
                          ("longitude", Str "-74.0060")];
                  Object [("name", Str "Central Perk");
                          ("$type", Str address);
                          ("street", Str "123 Bedford St")]]);
          ("categoryIcon", Str "x");
          ("category", Str "cafe")].

(** Rows of the check-in table: the [n]-th check-in of one author, without
    locations or categories. *)
Definition digit (n : nat) : string :=
  String (ascii_of_nat (48 + n mod 10)) "".

Definition checkin_row (n : nat) : Queries.row :=
  let key := digit (n / 100) ++ digit (n / 10) ++ digit n in
  {| Queries.row_id := Queries.SText ("rkey-" ++ key);
     Queries.row_authorDid := Queries.SText "did:plc:alice";
     Queries.row_text := Queries.SText "Coffee";
     Queries.row_createdAt := Queries.SText ("2025-06-15T13:00:00." ++ key ++ "Z");
     Queries.row_locations := Queries.SNull;
     Queries.row_category := Queries.SNull;
     Queries.row_categoryGroup := Queries.SNull;
     Queries.row_categoryIcon := Queries.SNull;
     Queries.row_uri :=
       Queries.SText ("at://did:plc:alice/app.dropanchor.checkin/rkey-" ++ key);
     Queries.row_cid := Queries.SText "bafexample" |}.

(** A table of 101 check-ins. *)
Definition table_101 : list Queries.row := map checkin_row (seq 0 101).

(** A row whose stored locations are cut off in the middle. *)
Definition corrupt_row : Queries.row :=
  {| Queries.row_id := Queries.SText "rkey-x";
     Queries.row_authorDid := Queries.SText "did:plc:alice";
     Queries.row_text := Queries.SText "Coffee";
     Queries.row_createdAt := Queries.SText "2025-06-15T13:00:00Z";
     Queries.row_locations := Queries.SText "[{ $type: community.lexicon.loc";
     Queries.row_category := Queries.SText "cafe";
     Queries.row_categoryGroup := Queries.SNull;
     Queries.row_categoryIcon := Queries.SNull;
     Queries.row_uri :=
       Queries.SText "at://did:plc:alice/app.dropanchor.checkin/rkey-x";
     Queries.row_cid := Queries.SNull |}.

(** A network on which bsky.social knows the token "good" and every other
    request is refused; each request takes 120 ms. *)
Definition alice : Auth.AuthContext :=
  {| Auth.did := "did:plc:alice"; Auth.handle := Some "alice.bsky.social" |}.

Definition network (url token : string) (time : Z) : Auth.response * N :=
  if (url =? "https://bsky.social/xrpc/com.atproto.server.getSession")%string
     && (token =? "good")%string
  then (Auth.OkSession alice, 120%N)
  else (Auth.NotOk, 120%N).

(** A process at time 5000000 whose cache holds an entry for "good" that
    expired at 4000000. *)
Definition stale_world : Auth.world :=
  {| Auth.didCache :=
       {[ "good" := {| Auth.cached_did := "did:plc:old";
                       Auth.cached_handle := None;
                       Auth.expires := 4000000 |} ]};
     Auth.clock := 5000000;
     Auth.requests := [] |}.

(** A process with an empty cache. *)
Definition fresh_world : Auth.world :=
  {| Auth.didCache := ∅; Auth.clock := 5000000; Auth.requests := [] |}.

End Examples.

(** ** shared/types.ts: the declared record type and [createAtUri] *)

Module Utils.
Import JS.

Definition createAtUri (did collection rkey : string) : string :=
  "at://" ++ did ++ "/" ++ collection ++ "/" ++ rkey.

(** [interface CheckinRecord]. A location item is kept as the value it is. *)
Record CheckinRecord : Type := {
  type : option string;
  text : string;
  createdAt : string;
  locations : option (list value);
  category : option string;
  categoryGroup : option string;
  categoryIcon : option string
}.

(** An optional string property: absent, a string, or neither. *)
Definition optional_string (v : value) : option (option string) :=
  match v with
  | Undefined => Some None
  | Str s => Some (Some s)
  | _ => None
  end.

(** The value seen through the interface, when it has the declared shape:
    [text] and [createdAt] strings, [locations] absent or an array, each
    other property absent or a string. *)
Definition as_CheckinRecord (v : value) : option CheckinRecord :=
  match v, prop v "text", prop v "createdAt" with
  | Object _, Str text, Str createdAt =>
      match optional_string (prop v "$type"),
            match prop v "locations" with
            | Undefined => Some None
            | Array items => Some (Some items)
            | _ => None
            end,
            optional_string (prop v "category"),
            optional_string (prop v "categoryGroup"),
            optional_string (prop v "categoryIcon") with
      | Some type, Some locations, Some category, Some categoryGroup,
        Some categoryIcon =>
          Some {| type := type; text := text; createdAt := createdAt;
                  locations := locations; category := category;
                  categoryGroup := categoryGroup;
                  categoryIcon := categoryIcon |}
      | _, _, _, _, _ => None
      end
  | _, _, _ => None
  end.

Definition optional_prop (k : string) (o : option value)
  : list (string * value) :=
  match o with Some v => [(k, v)] | None => [] end.

(** The object with the properties of a record, in the order the
    validator assigns them. *)
Definition to_value (r : CheckinRecord) : value :=
  Object (optional_prop "$type" (option_map Str (type r))
          ++ [("text", Str (text r)); ("createdAt", Str (createdAt r))]
          ++ optional_prop "locations" (option_map Array (locations r))
          ++ optional_prop "category" (option_map Str (category r))
          ++ optional_prop "categoryGroup" (option_map Str (categoryGroup r))
          ++ optional_prop "categoryIcon" (option_map Str (categoryIcon r))).

(** No character of [s] is a slash. *)
Fixpoint no_slash (s : string) : bool :=
  match s with
  | EmptyString => true
  | String c rest => negb (c =? "/")%char && no_slash rest
  end.

End Utils.

(** ** backend/database/queries.ts: writing a check-in *)

Module Writes.
Import JS Queries.

(** What the INSERT statement comes to: the table with the new row at its
    end, or the failure of the PRIMARY KEY constraint on [id], which the
    statement throws. *)
Inductive outcome : Type :=
| Inserted (table : list row)
| ConstraintFailed.

(** [value || null] for an optional string parameter. *)
Definition or_null (o : option string) : sqlval :=
  match o with
  | Some s => if (s =? "")%string then SNull else SText s
  | None => SNull
  end.

Section Writes.

(** [JSON.stringify] on a value read from JSON. *)
Variable JSON_stringify : value -> string.

Definition createCheckinRecord (table : list row) (rkey authorDid : string)
    (record : Utils.CheckinRecord) (uri cid : string) : outcome :=
  let locationsJson :=
    match Utils.locations record with
    | Some items => SText (JSON_stringify (Array items))
    | None => SNull
    end in
  let new :=
    {| row_id := SText rkey;
       row_authorDid := SText authorDid;
       row_text := SText (Utils.text record);
       row_createdAt := SText (Utils.createdAt record);
       row_locations := locationsJson;
       row_category := or_null (Utils.category record);
       row_categoryGroup := or_null (Utils.categoryGroup record);
       row_categoryIcon := or_null (Utils.categoryIcon record);
       row_uri := SText uri;
       row_cid := SText cid |} in
  if existsb (fun r => sql_eq (row_id r) rkey) table then ConstraintFailed
  else Inserted (table ++ [new]).

(** The row [createCheckinRecord] writes. *)
Definition inserted_row (rkey authorDid : string)
    (record : Utils.CheckinRecord) (uri cid : string) : row :=
  {| row_id := SText rkey;
     row_authorDid := SText authorDid;
     row_text := SText (Utils.text record);
     row_createdAt := SText (Utils.createdAt record);
     row_locations :=
       match Utils.locations record with
       | Some items => SText (JSON_stringify (Array items))
       | None => SNull
       end;
     row_category := or_null (Utils.category record);
     row_categoryGroup := or_null (Utils.categoryGroup record);
     row_categoryIcon := or_null (Utils.categoryIcon record);
     row_uri := SText uri;
     row_cid := SText cid |}.

End Writes.

(** No two rows have the same key: what the PRIMARY KEY constraint keeps. *)
Definition keys_unique (table : list row) : Prop :=
  NoDup (map row_id table).

(** The columns declared NOT NULL hold text. *)
Definition not_null (r : row) : Prop :=
  (exists s, row_authorDid r = SText s) /\ (exists s, row_text r = SText s)
  /\ (exists s, row_createdAt r = SText s) /\ (exists s, row_uri r = SText s).

(** An optional string as it reads back from the table: the empty string
    reads back as absent. *)
Definition read_back (o : option string) : option string :=
  match o with
  | Some s => if (s =? "")%string then None else Some s
  | None => None
  end.

End Writes.

(** ** backend/database/queries.ts: user settings *)

Module Settings.

(** A cell of the column [enableFeedPosts BOOLEAN]: an integer or NULL. The
    table has [did] as its primary key. *)
Inductive cell : Type :=
| CNull
| CInt (n : Z).

Record settings : Type := { enableFeedPosts : bool }.

(** [Boolean(c)] on a cell, and the cell a bound boolean is stored as. *)
Definition Boolean (c : cell) : bool :=
  match c with CNull => false | CInt n => negb (n =? 0) end.

Definition of_bool (b : bool) : cell := CInt (if b then 1 else 0).

Definition getUserSettings (table : gmap string cell) (did : string)
  : settings :=
  match table !! did with
  | None => {| enableFeedPosts := true |}
  | Some c => {| enableFeedPosts := Boolean c |}
  end.

(** INSERT OR REPLACE: the row of [did] is written over. *)
Definition updateUserSettings (table : gmap string cell) (did : string)
    (s : settings) : gmap string cell :=
  <[did := of_bool (enableFeedPosts s)]> table.

End Settings.

(** ** A sample [JSON.stringify] and [JSON.parse]

    For objects, arrays, booleans, [null] and strings that need no escape
    (no quote, no backslash, no control character). Numbers are not
    covered: the printer writes [null] for one and the reader reads none.
    They serve to run the store on concrete records; the theorems are
    stated for every host. *)

Module SampleJSON.
Import JS.

Definition quote : ascii := ascii_of_nat 34.

Fixpoint stringify (v : value) : string :=
  match v with
  | Undefined | Null | Number _ => "null"
  | Bool b => if b then "true" else "false"
  | Str s => String quote (s ++ String quote "")
  | Array items =>
      "[" ++ (fix elements (l : list value) : string :=
                match l with
                | [] => ""
                | x :: rest =>
                    stringify x
                    ++ match rest with [] => "" | _ => "," ++ elements rest end
                end) items ++ "]"
  | Object props =>
      "{" ++ (fix members (l : list (string * value)) : string :=
                match l with
                | [] => ""
                | (k, x) :: rest =>
                    String quote (k ++ String quote "") ++ ":" ++ stringify x
                    ++ match rest with [] => "" | _ => "," ++ members rest end
                end) props ++ "}"
  end.

(** The text up to the closing quote, and what follows the quote. *)
Fixpoint string_body (s : string) : option (string * string) :=
  match s with
  | EmptyString => None
  | String c rest =>
      if (c =? quote)%char then Some ("", rest)
      else if (c =? "\")%char then None
      else match string_body rest with
           | Some (body, r) => Some (String c body, r)
           | None => None
           end
  end.

Definition literal (word : string) (v : value) (s : string)
  : option (value * string) :=
  match ParseFloat.strip_prefix word s with
  | Some rest => Some (v, rest)
  | None => None
  end.

(** A value at the head of [s]; the elements of an array after its
    bracket; the members of an object after its brace. Every call reads
    at least one character, so a fuel of the length of the text is
    enough. *)
Fixpoint value_at (fuel : nat) (s : string) : option (value * string) :=
  match fuel with
  | O => None
  | S fuel =>
      match ParseFloat.trim_start s with
      | EmptyString => None
      | String c rest =>
          if (c =? "n")%char then literal "null" Null (String c rest)
          else if (c =? "t")%char then literal "true" (Bool true) (String c rest)
          else if (c =? "f")%char then literal "false" (Bool false) (String c rest)
          else if (c =? quote)%char then
            match string_body rest with
            | Some (body, r) => Some (Str body, r)
            | None => None
            end
          else if (c =? "[")%char then
            match ParseFloat.trim_start rest with
            | String "]" r => Some (Array [], r)
            | _ => match elements_at fuel rest with
                   | Some (items, r) => Some (Array items, r)
                   | None => None
                   end
            end
          else if (c =? "{")%char then
            match ParseFloat.trim_start rest with
            | String "}" r => Some (Object [], r)
            | _ => match members_at fuel rest with
                   | Some (props, r) => Some (Object props, r)
                   | None => None
                   end
            end
          else None
      end
  end
with elements_at (fuel : nat) (s : string) : option (list value * string) :=
  match fuel with
  | O => None
  | S fuel =>
      match value_at fuel s with
      | Some (v, r) =>
          match ParseFloat.trim_start r with
          | String c r' =>
              if (c =? "]")%char then Some ([v], r')
              else if (c =? ",")%char then
                match elements_at fuel r' with
                | Some (vs, r'') => Some (v :: vs, r'')
                | None => None
                end
              else None
          | EmptyString => None
          end
      | None => None
      end
  end
with members_at (fuel : nat) (s : string)
  : option (list (string * value) * string) :=
  match fuel with
  | O => None
  | S fuel =>
      match ParseFloat.trim_start s with
      | String c rest =>
          if (c =? quote)%char then
            match string_body rest with
            | Some (k, r) =>
                match ParseFloat.trim_start r with
                | String ":" r' =>
                    match value_at fuel r' with
                    | Some (v, r'') =>
                        match ParseFloat.trim_start r'' with
                        | String c' r3 =>
                            if (c' =? "}")%char then Some ([(k, v)], r3)
                            else if (c' =? ",")%char then
                              match members_at fuel r3 with
                              | Some (ps, r4) => Some ((k, v) :: ps, r4)
                              | None => None
                              end
                            else None
                        | EmptyString => None
                        end
                    | None => None
                    end
                | _ => None
                end
            | None => None
            end
          else None
      | EmptyString => None
      end
  end.

Definition parse (s : string) : completion value :=
  match value_at (S (String.length s)) s with
  | Some (v, rest) =>
      match ParseFloat.trim_start rest with
      | EmptyString => Ret v
      | String _ _ => Throw SyntaxError
      end
  | None => Throw SyntaxError
  end.

End SampleJSON.

(** ** Concrete records and tables *)

Module Scenarios.
Import JS.

(** The check-in of the repository's tests, as the interface has it. *)
Definition coffee : Utils.CheckinRecord :=
  {| Utils.type := Some "app.dropanchor.checkin";
     Utils.text := "Coffee at Central Perk";
     Utils.createdAt := "2025-06-15T13:00:00Z";
     Utils.locations :=
       Some [Examples.geo_location "40.7128" "-74.0060";
             Object [("$type", Str Examples.address);
                     ("street", Str "123 Bedford St");
                     ("name", Str "Central Perk")]];
     Utils.category := Some "cafe";
     Utils.categoryGroup := Some "";
     Utils.categoryIcon := None |}.

Definition coffee_uri : string :=
  Utils.createAtUri "did:plc:bob" "app.dropanchor.checkin" "rkey-coffee".

End Scenarios.

(** ** Vocabulary for the feed queries *)

Module Feed.
Import Queries.

(** The rows the WHERE clause of [getCheckinsByAuthor] selects without a
    cursor. *)
Definition by_author (author : string) (table : list row) : list row :=
  List.filter (fun r => sql_eq (row_authorDid r) author) table.

(** [x] may stand before [y] in a result ordered by [createdAt DESC]. *)
Definition newer (x y : row) : Prop :=
  sql_leb (row_createdAt y) (row_createdAt x) = true.

(** Records listed by descending [createdAt]. *)
Definition newest_first (cs : list StoredCheckin) : Prop :=
  StronglySorted (fun a b => String.leb (createdAt b) (createdAt a) = true) cs.

(** No two rows carry the same [createdAt]. *)
Definition distinct_times (rows : list row) : Prop :=
  NoDup (map row_createdAt rows).

(** The rows a cursor leaves. *)
Definition older_than (c0 : string) (rows : list row) : list row :=
  List.filter (fun r => sql_lt (row_createdAt r) c0) rows.

End Feed.

(** ** A small table for the feed properties *)

Module Timeline.
Import Queries.

#[global] Instance sqlval_eq_dec : EqDecision sqlval.
Proof. solve_decision. Defined.

(** A check-in of a second author, made at the same instant as one of the
    first author's. *)
Definition bob_row : row :=
  {| row_id := SText "rkey-coffee";
     row_authorDid := SText "did:plc:bob";
     row_text := SText "Coffee at Central Perk";
     row_createdAt := SText "2025-06-15T13:00:00.002Z";
     row_locations := SNull;
     row_category := SText "cafe";
     row_categoryGroup := SNull;
     row_categoryIcon := SNull;
     row_uri := SText "at://did:plc:bob/app.dropanchor.checkin/rkey-coffee";
     row_cid := SText "bafexample" |}.

(** Six check-ins in the order they were inserted, which is not the order
    of their timestamps. *)
Definition timeline : list row :=
  [Examples.checkin_row 3; Examples.checkin_row 0; bob_row;
   Examples.checkin_row 4; Examples.checkin_row 1; Examples.checkin_row 2].

End Timeline.

(** ** backend/routes: the request handlers

    A handler is a function of what it reads from the request and of the
    state of the process (the identity cache and the check-in table); it
    returns its reply and the state it leaves. The body of a
    [createRecord] request is taken at its declared type,
    [CreateRecordRequest]. A reply is the JSON document and status the
    handler passes to [c.json]; the message of a caught error is kept as
    the error itself. *)

Module Routes.
Import JS Queries Auth Writes.

Record server : Type := {
  auth : world;
  checkins : list row
}.

(** [s.substring(n)] *)
Definition substring (n : nat) (s : string) : string :=
  String.substring n (String.length s - n) s.

(** [q || d] on an optional string. *)
Definition or_else (q : option string) (d : string) : string :=
  match q with
  | Some s => if (s =? "")%string then d else s
  | None => d
  end.

(** [interface CreateRecordRequest]; the record is what the client sent. *)
Record CreateRecordRequest : Type := {
  collection : string;
  record : value;
  rkey : option string
}.

(** What a [catch] block of [createRecord] may catch: a thrown value, or
    the failure of the INSERT statement. *)
Inductive failure : Type :=
| Thrown (e : exn)
| InsertFailed.

Inductive createRecord_reply : Type :=
| Created (uri cid : string)            (* { uri, cid } *)
| CreateUnauthenticated                 (* 401 AuthenticationRequired *)
| UnsupportedCollection                 (* 400 InvalidRequest *)
| InvalidRequest (cause : failure).     (* 400 InvalidRequest, error.message *)

(** The [value] member of a reply that carries a check-in. *)
Record RecordValue : Type := {
  value_text : string;
  value_createdAt : string;
  value_locations : option value;
  value_category : option string;
  value_categoryGroup : option string;
  value_categoryIcon : option string
}.

Definition value_of (c : StoredCheckin) : RecordValue :=
  {| value_text := text c;
     value_createdAt := createdAt c;
     value_locations := locations c;
     value_category := category c;
     value_categoryGroup := categoryGroup c;
     value_categoryIcon := categoryIcon c |}.

Inductive getRecord_reply : Type :=
| Found (uri : string) (cid : option string) (value : RecordValue)
| UriRequired                           (* 400 InvalidRequest *)
| RecordNotFound.                       (* 404 RecordNotFound *)

Record CheckinResponse : Type := {
  response_uri : string;
  response_cid : option string;
  response_value : RecordValue;
  response_author : string
}.

Record FeedResponse : Type := {
  feed_checkins : list CheckinResponse;
  feed_cursor : option string
}.

Inductive feed_reply : Type :=
| Feed (response : FeedResponse)
| FeedUnauthenticated                   (* 401 AuthenticationRequired *)
| Forbidden                             (* 403 Forbidden *)
| QueryFailed (cause : option exn).     (* the handler throws *)

(** [Math.min] *)
Definition Math_min (x y : number) : number :=
  match x, y with
  | S754_nan, _ | _, S754_nan => S754_nan
  | S754_zero a, S754_zero b => S754_zero (a || b)
  | _, _ => if lt y x then y else x
  end.

(** The integer a number hands to the LIMIT clause. The statement fails
    for a number that is no integer of 64 bits. *)
Definition as_limit (x : number) : option Z :=
  match x with
  | S754_zero _ => Some 0
  | S754_finite negative m e =>
      let magnitude :=
        if 0 <=? e then Some (Z.pos m * 2 ^ e)
        else if Z.pos m mod 2 ^ (- e) =? 0 then Some (Z.pos m / 2 ^ (- e))
        else None in
      match magnitude with
      | Some n =>
          let n := if negative then - n else n in
          if (- 2 ^ 63 <=? n) && (n <? 2 ^ 63) then Some n else None
      | None => None
      end
  | S754_infinity _ | S754_nan => None
  end.

Definition toCheckinResponse (checkin : StoredCheckin) : CheckinResponse :=
  {| response_uri := Queries.uri checkin;
     response_cid := Queries.cid checkin;
     response_value := value_of checkin;
     response_author := authorDid checkin |}.

(** The [FeedResponse] both feed handlers build. *)
Definition toFeedResponse (checkins : list StoredCheckin) : FeedResponse :=
  {| feed_checkins := map toCheckinResponse checkins;
     feed_cursor :=
       if (0 <? List.length checkins)%nat
       then option_map createdAt
              (nth_error checkins (List.length checkins - 1))
       else None |}.

Section Routes.

Variable network : string -> string -> Z -> response * N.
Variable Date_parse : string -> number.
Variable JSON_parse : string -> completion value.
Variable JSON_stringify : value -> string.
(** The global function [parseInt] with one argument. *)
Variable parseInt : string -> number.

(** [authenticateRequest], the same in both route files. *)
Definition authenticateRequest (authHeader : option string) (w : world)
  : option AuthContext * world :=
  match authHeader with
  | None => (None, w)
  | Some authHeader =>
      if (authHeader =? "")%string || negb (String.prefix "Bearer " authHeader)
      then (None, w)
      else validateToken network (substring 7 authHeader) w
  end.

(** POST com.atproto.repo.createRecord. [generatedRkey] and [generatedCid]
    are what [generateRkey()] and [generateCid()] return when called. *)
Definition createRecord (authorization : option string)
    (body : completion CreateRecordRequest)
    (generatedRkey generatedCid : string) (s : server)
  : createRecord_reply * server :=
  let '(authContext, w) := authenticateRequest authorization (auth s) in
  let unchanged := {| auth := w; checkins := checkins s |} in
  match authContext with
  | None => (CreateUnauthenticated, unchanged)
  | Some authContext =>
      match body with
      | Throw error => (InvalidRequest (Thrown error), unchanged)
      | Ret body =>
          if negb (collection body =? "app.dropanchor.checkin")%string then
            (UnsupportedCollection, unchanged)
          else
            match Types.validateCheckinRecord Date_parse (record body) with
            | Throw error => (InvalidRequest (Thrown error), unchanged)
            | Ret validatedRecord =>
                let rkey := or_else (rkey body) generatedRkey in
                let uri :=
                  Utils.createAtUri (did authContext) "app.dropanchor.checkin"
                    rkey in
                let cid := generatedCid in
                match Utils.as_CheckinRecord validatedRecord with
                | Some validatedRecord =>
                    match createCheckinRecord JSON_stringify (checkins s) rkey
                            (did authContext) validatedRecord uri cid with
                    | Inserted table =>
                        (Created uri cid, {| auth := w; checkins := table |})
                    | ConstraintFailed =>
                        (InvalidRequest InsertFailed, unchanged)
                    end
                | None => (InvalidRequest (Thrown TypeError), unchanged)
                end
            end
      end
  end.

(** GET com.atproto.sync.getRecord. It asks for no authentication. *)
Definition getRecord (uri : option string) (s : server)
  : completion getRecord_reply :=
  match uri with
  | None => Ret UriRequired
  | Some uri =>
      if (uri =? "")%string then Ret UriRequired
      else
        do record <- getCheckinByUri JSON_parse (checkins s) uri;
        match record with
        | None => Ret RecordNotFound
        | Some record =>
            Ret (Found (Queries.uri record) (Queries.cid record)
                   (value_of record))
        end
  end.

(** [Math.min(parseInt(c.req.query("limit") || "50"), 100)] *)
Definition requested_limit (limit : option string) : number :=
  Math_min (parseInt (or_else limit "50")) (of_Z 100).

Definition feed_of (limit : number)
    (query : option Z -> completion (list StoredCheckin)) : feed_reply :=
  match as_limit limit with
  | Some n =>
      match query (Some n) with
      | Ret checkins => Feed (toFeedResponse checkins)
      | Throw error => QueryFailed (Some error)
      end
  | None => QueryFailed None
  end.

(** GET app.dropanchor.listCheckins *)
Definition listCheckins (authorization user limit cursor : option string)
    (s : server) : feed_reply * server :=
  let '(authContext, w) := authenticateRequest authorization (auth s) in
  let s := {| auth := w; checkins := checkins s |} in
  match authContext with
  | None => (FeedUnauthenticated, s)
  | Some authContext =>
      let userDid := or_else user (did authContext) in
      let limit := requested_limit limit in
      if negb (userDid =? did authContext)%string then (Forbidden, s)
      else
        (feed_of limit
           (fun limit =>
              getCheckinsByAuthor JSON_parse (checkins s) userDid limit cursor),
         s)
  end.

(** GET app.dropanchor.getGlobalFeed *)
Definition getGlobalFeed_handler (authorization limit cursor : option string)
    (s : server) : feed_reply * server :=
  let '(authContext, w) := authenticateRequest authorization (auth s) in
  let s := {| auth := w; checkins := checkins s |} in
  match authContext with
  | None => (FeedUnauthenticated, s)
  | Some authContext =>
      let limit := requested_limit limit in
      (feed_of limit
         (fun limit => Queries.getGlobalFeed JSON_parse (checkins s) limit cursor),
       s)
  end.

End Routes.

End Routes.

(** ** A sample deployment

    A [parseInt] that reads decimal integers after white space and a sign
    (it does not know the 0x prefix), and a server with an empty identity
    cache. They serve to run the handlers on concrete requests. *)

Module Deployment.
Import JS Queries.

Definition parseInt (s : string) : number :=
  let s := ParseFloat.trim_start s in
  let '(negative, s) :=
    match s with
    | String c rest =>
        if (c =? "-")%char then (true, rest)
        else if (c =? "+")%char then (false, rest)
        else (false, s)
    | EmptyString => (false, s)
    end in
  let '(ds, _) := ParseFloat.digits s in
  match ds with
  | [] => S754_nan
  | _ => of_Z ((if negative then -1 else 1) * ParseFloat.decimal_value ds)
  end.

Definition server : Routes.server :=
  {| Routes.auth := Examples.fresh_world;
     Routes.checkins := firstn 4 Timeline.timeline |}.

(** The body of a request to create a check-in at a cafe. *)
Definition request : Routes.CreateRecordRequest :=
  {| Routes.collection := "app.dropanchor.checkin";
     Routes.record :=
       Object [("text", Str "Coffee at Central Perk");
               ("createdAt", Str "2025-06-15T14:00:00Z");
               ("locations",
                Array [Examples.geo_location "40.7128" "-74.0060"]);
               ("category", Str "cafe");
               ("mood", Str "fine")];
     Routes.rkey := None |}.

End Deployment.

(** ** Vocabulary for address locations *)

Module Address.
Import JS Types.

(** The optional fields of an address, in the order the validator looks at
    them. *)
Definition optional_fields : list string :=
  ["street"; "locality"; "region"; "country"; "postalCode"; "name"].

(** [undefined] or a string, the empty string included. *)
Definition absent_or_string (v : value) : bool :=
  match v with Undefined | Str _ => true | _ => false end.

(** The blocks of [validateAddressLocation] for a list of fields, one after
    the other. *)
Fixpoint blocks (location : value) (fields : list string)
    (validatedAddress : list (string * value))
  : completion (list (string * value)) :=
  match fields with
  | [] => Ret validatedAddress
  | field :: rest =>
      do validatedAddress <- address_field location field validatedAddress;
      blocks location rest validatedAddress
  end.

End Address.

(** ** The table as the handlers keep it *)

Module Invariant.
Import Queries.

(** The row carries the at:// address of its author and key, and the
    author identifier holds no slash. *)
Definition addressed (r : row) : Prop :=
  exists did rkey,
    row_id r = SText rkey /\ row_authorDid r = SText did
    /\ Utils.no_slash did = true
    /\ row_uri r = SText (Utils.createAtUri did "app.dropanchor.checkin" rkey).

Definition well_addressed (table : list row) : Prop :=
  Writes.keys_unique table /\ Forall addressed table.

End Invariant.

(** ** Vocabulary for the read operations *)

Module Selection.
Import JS Queries.

(** The WHERE clause of a feed query: the author, when the query is for
    one, and the cursor, when one is given. *)
Definition selects (author cursor : option string) (r : row) : bool :=
  match author with
  | Some a => sql_eq (row_authorDid r) a
  | None => true
  end
  && (if given cursor then sql_lt (row_createdAt r) (default "" cursor)
      else true).

(** The number of rows a LIMIT lets through, out of [count]. *)
Definition limited (limit : Z) (count : nat) : nat :=
  if limit <? 0 then count else Nat.min (Z.to_nat limit) count.

(** The record of a row, its locations left out. *)
Definition without_locations (r : row) : StoredCheckin :=
  {| type := "app.dropanchor.checkin";
     id := String_of (row_id r);
     authorDid := String_of (row_authorDid r);
     text := String_of (row_text r);
     createdAt := String_of (row_createdAt r);
     locations := None;
     category := if cell_truthy (row_category r)
                 then Some (String_of (row_category r)) else None;
     categoryGroup := if cell_truthy (row_categoryGroup r)
                      then Some (String_of (row_categoryGroup r)) else None;
     categoryIcon := if cell_truthy (row_categoryIcon r)
                     then Some (String_of (row_categoryIcon r)) else None;
     uri := String_of (row_uri r);
     cid := if cell_truthy (row_cid r)
            then Some (String_of (row_cid r)) else None |}.

(** [rows] are the newest rows of [selection], listed by descending
    [createdAt]: together with [rest] they are the selection, and no row
    of [rest] has a later [createdAt] than a row of [rows]. *)
Definition newest_of (rows rest selection : list row) : Prop :=
  Permutation (rows ++ rest) selection
  /\ StronglySorted
       (fun x y => sql_leb (row_createdAt y) (row_createdAt x) = true) rows
  /\ Forall (fun x =>
               Forall (fun y => sql_leb (row_createdAt y) (row_createdAt x)
                                = true) rest) rows.

End Selection.

(** * Properties *)

(** ** Cases of the repository's test suite

    The inputs of test/validation.test.ts and test/database.test.ts, run
    through the embedding. *)

Module RepositoryTests.
Import JS Types Queries.

Example minimal_valid_record :
  validateCheckinRecord Host.Date_parse
    (Object [("text", Str "Quick checkin");
             ("createdAt", Str "2025-06-15T13:00:00Z")])
  = Ret (Object [("$type", Str "app.dropanchor.checkin");
                 ("text", Str "Quick checkin");
                 ("createdAt", Str "2025-06-15T13:00:00Z")]).
Proof. vm_compute. reflexivity. Qed.

Example missing_text :
  validateCheckinRecord Host.Date_parse
    (Object [("createdAt", Str "2025-06-15T13:00:00Z")])
  = Throw (Error "Record must have a text field").
Proof. vm_compute. reflexivity. Qed.

Example missing_createdAt :
  validateCheckinRecord Host.Date_parse (Object [("text", Str "Test checkin")])
  = Throw (Error "Record must have a createdAt field").
Proof. vm_compute. reflexivity. Qed.

Example invalid_createdAt :
  validateCheckinRecord Host.Date_parse
    (Object [("text", Str "Test checkin"); ("createdAt", Str "not-a-date")])
  = Throw (Error "createdAt must be a valid ISO timestamp").
Proof. vm_compute. reflexivity. Qed.

Example text_over_300_characters :
  validateCheckinRecord Host.Date_parse
    (Object [("text", Str (string_of_list_ascii (repeat "x"%char 301)));
             ("createdAt", Str "2025-06-15T13:00:00Z")])
  = Throw (Error "text must be 300 characters or less").
Proof. vm_compute. reflexivity. Qed.

Example latitude_91 :
  validateCheckinRecord Host.Date_parse
    (Examples.with_location (Examples.geo_location "91" "0"))
  = Throw (Error "latitude must be a valid number between -90 and 90").
Proof. vm_compute. reflexivity. Qed.

Example missing_longitude :
  validateCheckinRecord Host.Date_parse
    (Examples.with_location
       (Object [("$type", Str Examples.geo); ("latitude", Str "40.7128")]))
  = Throw (Error "geo location must have longitude as string").
Proof. vm_compute. reflexivity. Qed.

Example unsupported_location_type :
  validateCheckinRecord Host.Date_parse
    (Examples.with_location
       (Object [("$type", Str "unknown.location.type");
                ("someField", Str "value")]))
  = Throw (UnsupportedLocationType (Str "unknown.location.type")).
Proof. vm_compute. reflexivity. Qed.

Example locations_not_an_array :
  validateCheckinRecord Host.Date_parse
    (Object [("text", Str "Test checkin");
             ("createdAt", Str "2025-06-15T13:00:00Z");
             ("locations", Str "not an array")])
  = Throw (Error "locations must be an array").
Proof. vm_compute. reflexivity. Qed.

Example null_record :
  validateCheckinRecord Host.Date_parse Null
  = Throw (Error "Record must be an object").
Proof. vm_compute. reflexivity. Qed.

Example string_record :
  validateCheckinRecord Host.Date_parse (Str "not an object")
  = Throw (Error "Record must be an object").
Proof. vm_compute. reflexivity. Qed.

Example partial_categories :
  validateCheckinRecord Host.Date_parse
    (Object [("text", Str "Quick visit");
             ("createdAt", Str "2025-06-27T10:30:00Z");
             ("category", Str "restaurant");
             ("categoryIcon", Str "x")])
  = Ret (Object [("$type", Str "app.dropanchor.checkin");
                 ("text", Str "Quick visit");
                 ("createdAt", Str "2025-06-27T10:30:00Z");
                 ("category", Str "restaurant");
                 ("categoryIcon", Str "x")]).
Proof. vm_compute. reflexivity. Qed.

Example empty_category :
  validateCheckinRecord Host.Date_parse
    (Object [("text", Str "Test"); ("createdAt", Str "2025-06-27T10:30:00Z");
             ("category", Str "")])
  = Throw (Error "category must be a non-empty string").
Proof. vm_compute. reflexivity. Qed.

Example numeric_category :
  validateCheckinRecord Host.Date_parse
    (Object [("text", Str "Test"); ("createdAt", Str "2025-06-27T10:30:00Z");
             ("category", Number (of_Z 123))])
  = Throw (Error "category must be a non-empty string").
Proof. vm_compute. reflexivity. Qed.

Example categoryIcon_over_10_characters :
  validateCheckinRecord Host.Date_parse
    (Object [("text", Str "Test"); ("createdAt", Str "2025-06-27T10:30:00Z");
             ("categoryIcon", Str "01234567890")])
  = Throw (Error "categoryIcon must be 10 characters or less").
Proof. vm_compute. reflexivity. Qed.

Example global_feed_limit_150 :
  Z.min 150 100 = 100
  /\ exists checkins,
       getGlobalFeed Host.JSON_parse Examples.table_101 (Some 150) None
       = Ret checkins
       /\ List.length checkins = 100%nat.
Proof.
  split; [reflexivity|]. eexists. split; vm_compute; reflexivity.
Qed.

Example row_with_nulls :
  toStoredCheckin Host.JSON_parse (Examples.checkin_row 7)
  = Ret {| type := "app.dropanchor.checkin";
           id := "rkey-007";
           authorDid := "did:plc:alice";
           text := "Coffee";
           createdAt := "2025-06-15T13:00:00.007Z";
           locations := None;
           category := None;
           categoryGroup := None;
           categoryIcon := None;
           uri := "at://did:plc:alice/app.dropanchor.checkin/rkey-007";
           cid := Some "bafexample" |}.
Proof. vm_compute. reflexivity. Qed.

End RepositoryTests.

(** ** Property lists *)

Module JSFacts.
Import JS.

Lemma assoc_set_prop props k v k' :
  assoc k' (set_prop props k v)
  = if (k =? k')%string then Some v else assoc k' props.
Proof.
  induction props as [|[k0 v0] rest IH]; simpl.
  - destruct (k =? k')%string; reflexivity.
  - destruct (k0 =? k)%string eqn:E0; simpl.
    + apply String.eqb_eq in E0. subst k0.
      destruct (k =? k')%string; reflexivity.
    + rewrite IH. destruct (k0 =? k')%string eqn:E1; [|reflexivity].
      apply String.eqb_eq in E1. subst k0.
      rewrite String.eqb_sym, E0. reflexivity.
Qed.

Lemma prop_set_prop props k v k' :
  prop (Object (set_prop props k v)) k'
  = if (k =? k')%string then v else prop (Object props) k'.
Proof.
  unfold prop. rewrite assoc_set_prop.
  destruct (k =? k')%string; reflexivity.
Qed.

Lemma nonempty_string_spec v :
  Rules.nonempty_string v = truthy v && is_string v.
Proof. destruct v as [| |b|x|s|items|props]; try reflexivity.
  - destruct b; reflexivity.
  - destruct x; reflexivity.
  - simpl. rewrite andb_true_r. reflexivity.
Qed.

Lemma get_defined v k :
  is_undefined v || is_null v = false -> get v k = Ret (prop v k).
Proof. destruct v; try discriminate; reflexivity. Qed.

Lemma prop_Str_defined v k s :
  prop v k = Str s -> is_undefined v || is_null v = false.
Proof. destruct v; try discriminate; reflexivity. Qed.

Lemma is_string_Str v : is_string v = true -> v = Str (str_of v).
Proof. destruct v; try discriminate. reflexivity. Qed.

Lemma is_str_Str v s : is_str v s = true -> v = Str s.
Proof.
  destruct v; try discriminate. simpl. intros H.
  apply String.eqb_eq in H. congruence.
Qed.

End JSFacts.

(** ** The validator against the rules *)

Module Refinement.
Import JS Types Rules JSFacts.

Lemma decides_ret {A} (a : A) : decides (Ret a) [].
Proof. exists a. reflexivity. Qed.

Lemma decides_throw {A} e reports : decides (@Throw A e) (e :: reports).
Proof. reflexivity. Qed.

Lemma decides_if {A} (b b' : bool) e (c : completion A) reports :
  b = b' ->
  (b = false -> decides c reports) ->
  decides (if b then Throw e else c) (when b' e ++ reports).
Proof.
  intros <- H. destruct b; simpl; [reflexivity | apply H; reflexivity].
Qed.

Lemma decides_bind {A B} (c : completion A) (k : A -> completion B) r1 r2 :
  decides c r1 ->
  (forall a, c = Ret a -> decides (k a) r2) ->
  decides (bind c k) (r1 ++ r2).
Proof.
  intros H1 H2. destruct r1 as [|e r1]; simpl in *.
  - destruct H1 as [a Ha]. rewrite Ha. simpl. apply H2. exact Ha.
  - rewrite H1. reflexivity.
Qed.

(** Reading a property of a location: it throws for [null] and
    [undefined] and gives the property otherwise. *)
Lemma address_field_eq location field acc :
  address_field location field acc
  = if is_undefined location || is_null location then Throw TypeError
    else if negb (is_undefined (prop location field)) then
      if negb (is_string (prop location field)) then
        Throw (Error (field ++ " must be a string"))
      else Ret (set_prop acc field (prop location field))
    else Ret acc.
Proof. unfold address_field. destruct location; reflexivity. Qed.

Lemma validateGeoLocation_eq location :
  is_undefined location || is_null location = false ->
  validateGeoLocation location
  = if negb (truthy (prop location "latitude"))
       || negb (is_string (prop location "latitude")) then
      Throw (Error "geo location must have latitude as string")
    else if negb (truthy (prop location "longitude"))
            || negb (is_string (prop location "longitude")) then
      Throw (Error "geo location must have longitude as string")
    else
      let lat := ParseFloat.parseFloat (str_of (prop location "latitude")) in
      let lng := ParseFloat.parseFloat (str_of (prop location "longitude")) in
      if isNaN lat || lt lat (of_Z (-90)) || gt lat (of_Z 90) then
        Throw (Error "latitude must be a valid number between -90 and 90")
      else if isNaN lng || lt lng (of_Z (-180)) || gt lng (of_Z 180) then
        Throw (Error "longitude must be a valid number between -180 and 180")
      else
        Ret (Object [("$type", Str "community.lexicon.location.geo");
                     ("latitude", prop location "latitude");
                     ("longitude", prop location "longitude")]).
Proof.
  intros H. unfold validateGeoLocation. rewrite (get_defined _ _ H).
  reflexivity.
Qed.

Section Refinement.

Variable Date_parse : string -> number.

Lemma validateGeoLocation_decides location :
  is_undefined location || is_null location = false ->
  decides (validateGeoLocation location) (geo_violations location).
Proof.
  intros Hdef.
  unfold validateGeoLocation, geo_violations, coordinate_missing,
    coordinate_out_of_range.
  rewrite (get_defined _ _ Hdef). cbn [bind].
  apply decides_if.
  { rewrite nonempty_string_spec, negb_andb. reflexivity. }
  intros Hlat. apply decides_if.
  { rewrite nonempty_string_spec, negb_andb. reflexivity. }
  intros Hlng.
  apply orb_false_iff in Hlat as [_ Hlat], Hlng as [_ Hlng].
  destruct (prop location "latitude") as [| | | |s| |]; try discriminate Hlat.
  destruct (prop location "longitude") as [| | | |t| |]; try discriminate Hlng.
  rewrite <- (app_nil_r (when _ (Error "longitude must be a valid number between -180 and 180"))).
  apply decides_if; [reflexivity|].
  intros _. apply decides_if; [reflexivity|].
  intros _. apply decides_ret.
Qed.

Lemma address_field_decides location field validatedAddress :
  is_undefined location || is_null location = false ->
  decides (address_field location field validatedAddress)
          (address_field_not_string location field).
Proof.
  intros Hdef. unfold address_field, address_field_not_string.
  rewrite (get_defined _ _ Hdef). cbn [bind].
  destruct (prop location field); simpl;
    first [apply decides_ret | reflexivity].
Qed.

Lemma validateAddressLocation_decides location :
  is_undefined location || is_null location = false ->
  decides (validateAddressLocation location) (address_violations location).
Proof.
  intros Hdef.
  unfold validateAddressLocation, address_violations. cbn [flat_map].
  repeat (apply decides_bind;
          [apply address_field_decides; exact Hdef | intros ? _]).
  apply decides_ret.
Qed.

Lemma validateLocation_decides location :
  decides (validateLocation location) (location_violations location).
Proof.
  unfold validateLocation, location_violations.
  destruct location as [| |b|x|s|items|props];
    try reflexivity.
  cbn [get bind when app].
  set (tag := prop (Object props) "$type").
  destruct (truthy tag) eqn:Htruthy; [|reflexivity].
  cbn [negb andb when app].
  destruct (is_str tag "community.lexicon.location.geo") eqn:Hgeo.
  { apply is_str_Str in Hgeo. rewrite Hgeo. cbn -[geo_violations validateGeoLocation].
    rewrite app_nil_r. apply validateGeoLocation_decides. reflexivity. }
  destruct (is_str tag "community.lexicon.location.address") eqn:Haddr.
  { cbn [negb andb when app]. apply validateAddressLocation_decides.
    reflexivity. }
  reflexivity.
Qed.

Lemma validateLocations_decides locations validatedLocations :
  decides (validateLocations locations validatedLocations)
          (flat_map location_violations locations).
Proof.
  revert validatedLocations.
  induction locations as [|location rest IH]; intros acc; cbn [validateLocations flat_map].
  - apply decides_ret.
  - apply decides_bind; [apply validateLocation_decides | intros v _; apply IH].
Qed.

Lemma category_field_decides record field ceiling too_long validatedRecord :
  decides (category_field record field ceiling too_long validatedRecord)
          (category_violations record field ceiling too_long).
Proof.
  unfold category_field, category_violations.
  destruct (prop record field) as [| |b|x|s|items|props]; try reflexivity.
  - apply decides_ret.
  - cbn [is_undefined negb is_string typeof type_tag_eqb orb nonempty_string str_length str_of].
    destruct s as [|c s]; [reflexivity|].
    change (str_length (Str (String c s))) with (S (String.length s)).
    cbn [String.length Nat.eqb String.eqb negb when app].
    destruct (ceiling <? S (String.length s))%nat;
      [reflexivity | apply decides_ret].
Qed.

Lemma validateCheckinRecord_decides record :
  decides (validateCheckinRecord Date_parse record)
          (violations Date_parse record).
Proof.
  unfold validateCheckinRecord, violations, not_an_object, text_missing,
    text_too_long, createdAt_missing, createdAt_unparseable.
  apply decides_if.
  { destruct record; reflexivity. }
  intros _. apply decides_if.
  { rewrite nonempty_string_spec, negb_andb. reflexivity. }
  intros Htext. apply decides_if.
  { destruct (prop record "text"); reflexivity. }
  intros _. apply decides_if.
  { rewrite nonempty_string_spec, negb_andb. reflexivity. }
  intros Hcreated. apply decides_if.
  { apply orb_false_iff in Hcreated as [_ Hcreated].
    destruct (prop record "createdAt"); try discriminate Hcreated.
    reflexivity. }
  intros _. cbv zeta. rewrite app_assoc.
  apply decides_bind.
  { unfold locations_not_array, locations_violations.
    destruct (prop record "locations") as [| |b|x|s|locations|props];
      try reflexivity.
    - apply decides_ret.
    - cbn [is_undefined negb when app].
      rewrite <- (app_nil_r (flat_map _ _)).
      apply decides_bind; [apply validateLocations_decides|].
      intros vs _. destruct (0 <? List.length vs)%nat; apply decides_ret. }
  intros r1 _.
  apply decides_bind; [apply category_field_decides | intros r2 _].
  apply decides_bind; [apply category_field_decides | intros r3 _].
  rewrite <- (app_nil_r (category_violations _ _ _ _)).
  apply decides_bind; [apply category_field_decides | intros r4 _].
  apply decides_ret.
Qed.

Lemma accepted_no_violation record r :
  validateCheckinRecord Date_parse record = Ret r ->
  violations Date_parse record = [].
Proof.
  intros H. pose proof (validateCheckinRecord_decides record) as D.
  destruct (violations Date_parse record) as [|e rest]; [reflexivity|].
  simpl in D. congruence.
Qed.

(** C2. An input that violates several rules is rejected with the report
    of the first violated rule in the order of the specification (not an
    object, text missing, text too long, createdAt missing, createdAt
    unparseable, locations not an array, the locations element by element,
    category, categoryGroup, categoryIcon): whenever the list of all
    violations is [e :: rest], the validator throws exactly [e], whatever
    [rest] holds. *)
Theorem first_violation_wins record e rest :
  violations Date_parse record = e :: rest ->
  validateCheckinRecord Date_parse record = Throw e.
Proof.
  intros H. pose proof (validateCheckinRecord_decides record) as D.
  rewrite H in D. exact D.
Qed.

End Refinement.

Lemma first_violation_wins_witness :
  (exists rest,
     (1 <= List.length rest)%nat /\
     violations Host.Date_parse Examples.several_violations
     = Error "Record must have a text field" :: rest)
  /\ validateCheckinRecord Host.Date_parse Examples.several_violations
     = Throw (Error "Record must have a text field").
Proof.
  split.
  - eexists. split; [|vm_compute; reflexivity]. simpl. lia.
  - eapply (first_violation_wins Host.Date_parse Examples.several_violations).
    vm_compute. reflexivity.
Defined.

End Refinement.

(** ** What the validator accepts *)

Module Accepted.
Import JS Types Rules JSFacts Refinement.

Section Accepted.

Variable Date_parse : string -> number.

Lemma validateLocations_length locations acc vs :
  validateLocations locations acc = Ret vs ->
  List.length vs = (List.length acc + List.length locations)%nat.
Proof.
  revert acc. induction locations as [|l rest IH]; intros acc; simpl.
  - intros [= <-]. lia.
  - destruct (validateLocation l) as [v|e]; simpl; [|discriminate].
    intros H. apply IH in H. rewrite H, length_app. simpl. lia.
Qed.

Lemma category_field_other record field ceiling too_long vr vr' k :
  category_field record field ceiling too_long vr = Ret vr' ->
  (field =? k)%string = false ->
  assoc k vr' = assoc k vr.
Proof.
  unfold category_field. intros H Hk.
  repeat match type of H with
         | (if ?b then _ else _) = _ => destruct b
         end; try discriminate; injection H as <-; [|reflexivity].
  rewrite assoc_set_prop, Hk. reflexivity.
Qed.

(** The [locations] property of an accepted record. *)
Lemma accepted_locations record fields :
  validateCheckinRecord Date_parse record = Ret (Object fields) ->
  match prop record "locations" with
  | Array (l :: ls) =>
      exists vs, assoc "locations" fields = Some (Array vs)
                 /\ validateLocations (l :: ls) [] = Ret vs
  | _ => assoc "locations" fields = None
  end.
Proof.
  unfold validateCheckinRecord. intros H.
  repeat match type of H with
         | (if ?b then Throw _ else _) = _ => destruct b; [discriminate|]
         end.
  cbv zeta in H.
  match type of H with
  | bind ?c _ = _ => destruct c as [r1|] eqn:E1; [|discriminate]
  end.
  cbn [bind] in H.
  assert (Hr1 : match prop record "locations" with
                | Array (l :: ls) =>
                    exists vs, assoc "locations" r1 = Some (Array vs)
                               /\ validateLocations (l :: ls) [] = Ret vs
                | _ => assoc "locations" r1 = None
                end).
  { destruct (prop record "locations") as [| |b|x|s|ls|ps];
      cbn in E1; try discriminate; try (injection E1 as <-; reflexivity).
    destruct (validateLocations ls []) as [vs|] eqn:Evs; [|discriminate].
    pose proof (validateLocations_length _ _ _ Evs) as Hlen. cbn in E1.
    destruct ls as [|l ls].
    - destruct vs; [|discriminate Hlen]. cbn in E1. injection E1 as <-.
      reflexivity.
    - destruct vs as [|v vs]; [discriminate Hlen|]. cbn in E1.
      injection E1 as <-. exists (v :: vs). split; [reflexivity|exact Evs]. }
  destruct (category_field record "category" _ _ r1) as [r2|] eqn:E2;
    [|discriminate].
  cbn [bind] in H.
  destruct (category_field record "categoryGroup" _ _ r2) as [r3|] eqn:E3;
    [|discriminate].
  cbn [bind] in H.
  destruct (category_field record "categoryIcon" _ _ r3) as [r4|] eqn:E4;
    [|discriminate].
  cbn [bind] in H. injection H as <-.
  apply category_field_other with (k := "locations") in E2, E3, E4;
    try reflexivity.
  rewrite E4, E3, E2. exact Hr1.
Qed.

(** What the validator returns is an object. *)
Lemma accepted_is_object record r :
  validateCheckinRecord Date_parse record = Ret r ->
  exists fields, r = Object fields.
Proof.
  unfold validateCheckinRecord.
  repeat match goal with
         | |- (if ?b then Throw _ else _) = _ -> _ =>
             destruct b; [discriminate|]
         end.
  cbv zeta.
  repeat match goal with
         | |- bind ?c _ = _ -> _ => destruct c; [cbn [bind]|discriminate]
         end.
  intros [= <-]. eexists. reflexivity.
Qed.

(** C3, as the code has it. When no rule is violated and [locations] is an
    empty array, the record is accepted and the result has no [locations]
    property at all, as for an input without the field. The result carries
    the property exactly when the input array has at least one element,
    and then with as many elements as the input. *)
Theorem empty_locations_omitted record :
  violations Date_parse record = [] ->
  exists fields,
    validateCheckinRecord Date_parse record = Ret (Object fields)
    /\ match prop record "locations" with
       | Array (l :: ls) =>
           exists vs, assoc "locations" fields = Some (Array vs)
                      /\ List.length vs = S (List.length ls)
       | _ => assoc "locations" fields = None
       end.
Proof.
  intros Hv. pose proof (validateCheckinRecord_decides Date_parse record) as D.
  rewrite Hv in D. destruct D as [r Hr].
  destruct (accepted_is_object record r Hr) as [fields ->].
  exists fields. split; [exact Hr|].
  pose proof (accepted_locations record fields Hr) as Hl.
  destruct (prop record "locations") as [| | | | |[|l ls]|]; try exact Hl.
  destruct Hl as (vs & Hvs & Hval). exists vs. split; [exact Hvs|].
  apply validateLocations_length in Hval. exact Hval.
Qed.

(** C10. A record whose [text] is the empty string is rejected with the
    missing-text error, the same as a record without [text]; and a record
    that is accepted has a [text] of at least one character, so the
    minimum length rests on that rejection alone. *)
Theorem empty_text_is_missing record :
  prop record "text" = Str "" ->
  validateCheckinRecord Date_parse record
  = Throw (Error "Record must have a text field")
  /\ forall record' r,
       validateCheckinRecord Date_parse record' = Ret r ->
       exists s, prop record' "text" = Str s
                 /\ (1 <= String.length s <= 300)%nat.
Proof.
  intros H. split.
  - unfold validateCheckinRecord.
    destruct record; try discriminate H. cbn [typeof type_tag_eqb negb is_null orb].
    rewrite H. reflexivity.
  - intros record' r Hr. apply accepted_no_violation in Hr.
    unfold violations in Hr.
    repeat (apply app_eq_nil in Hr as [? Hr]).
    unfold text_missing, text_too_long in *.
    destruct (prop record' "text") as [| | | |s| |]; try discriminate.
    exists s. split; [reflexivity|].
    destruct s as [|c s]; [discriminate|].
    destruct (300 <? String.length (String c s))%nat eqn:E; [discriminate|].
    apply Nat.ltb_ge in E. simpl in *. lia.
Qed.

End Accepted.

Lemma empty_locations_omitted_witness :
  violations Host.Date_parse Examples.empty_locations = []
  /\ exists fields,
       validateCheckinRecord Host.Date_parse Examples.empty_locations
       = Ret (Object fields)
       /\ assoc "locations" fields = None.
Proof.
  split; [vm_compute; reflexivity|].
  apply (empty_locations_omitted Host.Date_parse Examples.empty_locations).
  vm_compute. reflexivity.
Defined.

(** C3, as the specification words it, fails: for a valid input with
    [locations: []] the result has no empty [locations] sequence. *)
Lemma empty_locations_not_retained :
  ~ exists r,
      validateCheckinRecord Host.Date_parse Examples.empty_locations = Ret r
      /\ prop r "locations" = Array [].
Proof.
  intros [r [Hr Hl]]. vm_compute in Hr. injection Hr as <-.
  vm_compute in Hl. discriminate Hl.
Qed.

Lemma empty_text_is_missing_witness :
  prop Examples.empty_text "text" = Str ""
  /\ validateCheckinRecord Host.Date_parse Examples.empty_text
     = Throw (Error "Record must have a text field").
Proof.
  split; [reflexivity|].
  apply (empty_text_is_missing Host.Date_parse Examples.empty_text).
  reflexivity.
Defined.

End Accepted.

(** ** Geo coordinates *)

Module Geo.
Import JS Types Rules JSFacts Refinement.

Lemma outside_not_NaN x lo hi : outside x lo hi -> isNaN x = false.
Proof.
  unfold outside, lt, gt, SFltb.
  destruct x; try reflexivity.
  intros [H|H]; [discriminate H|].
  destruct (of_Z hi); discriminate H.
Qed.

Lemma outside_not_empty s lo hi :
  outside (ParseFloat.parseFloat s) lo hi -> s <> "".
Proof. intros H ->. apply outside_not_NaN in H. discriminate H. Qed.

Lemma inside_not_empty s lo hi :
  inside (ParseFloat.parseFloat s) lo hi -> s <> "".
Proof. intros [H _] ->; discriminate H. Qed.

Lemma truthy_Str s : s <> "" -> truthy (Str s) = true.
Proof.
  intros H. simpl. destruct (s =? "")%string eqn:E; [|reflexivity].
  apply String.eqb_eq in E. contradiction.
Qed.

Lemma outside_out_of_range x lo hi : outside x lo hi -> out_of_range x lo hi = true.
Proof.
  unfold out_of_range. intros [H|H]; rewrite H;
    rewrite ?orb_true_r; reflexivity.
Qed.

Lemma inside_out_of_range x lo hi : inside x lo hi -> out_of_range x lo hi = false.
Proof. unfold out_of_range. intros (-> & -> & ->). reflexivity. Qed.

Section Geo.

Variable Date_parse : string -> number.

(** What [validateGeoLocation] does with two coordinate strings. *)
Lemma validateGeoLocation_strings location s t :
  prop location "latitude" = Str s ->
  prop location "longitude" = Str t ->
  s <> "" -> t <> "" ->
  validateGeoLocation location
  = if out_of_range (ParseFloat.parseFloat s) (-90) 90 then
      Throw (Error "latitude must be a valid number between -90 and 90")
    else if out_of_range (ParseFloat.parseFloat t) (-180) 180 then
      Throw (Error "longitude must be a valid number between -180 and 180")
    else Ret (Object [("$type", Str "community.lexicon.location.geo");
                      ("latitude", Str s); ("longitude", Str t)]).
Proof.
  intros Hs Ht Hs' Ht'. unfold validateGeoLocation.
  rewrite (get_defined _ _ (prop_Str_defined _ _ _ Hs)). cbn [bind].
  rewrite Hs, Ht, !truthy_Str by assumption. reflexivity.
Qed.

Lemma validateLocation_geo location :
  prop location "$type" = Str "community.lexicon.location.geo" ->
  validateLocation location = validateGeoLocation location.
Proof.
  intros H. unfold validateLocation.
  destruct location; try discriminate H.
  cbn [get bind]. rewrite H. reflexivity.
Qed.

(** The record fails as its first failing location does, when no rule
    before the locations is violated. *)
Lemma first_failing_location record pre location post e :
  prop record "locations" = Array (pre ++ location :: post) ->
  before_locations Date_parse record = [] ->
  flat_map location_violations pre = [] ->
  validateLocation location = Throw e ->
  validateCheckinRecord Date_parse record = Throw e.
Proof.
  intros Hl Hb Hpre He.
  pose proof (validateLocation_decides location) as D.
  destruct (location_violations location) as [|e' rest] eqn:Ev.
  { destruct D as [v Hv]. congruence. }
  simpl in D. assert (e' = e) as -> by congruence.
  pose proof (validateCheckinRecord_decides Date_parse record) as Dr.
  assert (Hv : violations Date_parse record
               = e :: (rest ++ flat_map location_violations post
             ++ category_violations record "category" 50
                  "category must be 50 characters or less"
             ++ category_violations record "categoryGroup" 50
                  "categoryGroup must be 50 characters or less"
             ++ category_violations record "categoryIcon" 10
                  "categoryIcon must be 10 characters or less")%list).
  { unfold before_locations in Hb. unfold violations.
    apply app_eq_nil in Hb as [H1 Hb]. apply app_eq_nil in Hb as [H2 Hb].
    apply app_eq_nil in Hb as [H3 Hb]. apply app_eq_nil in Hb as [H4 Hb].
    rewrite H1, H2, H3, H4, Hb.
    unfold locations_not_array, locations_violations. rewrite Hl.
    cbn [when app]. rewrite flat_map_app, Hpre. cbn [app flat_map].
    rewrite Ev. cbn [app]. rewrite <- app_assoc. reflexivity. }
  rewrite Hv in Dr. exact Dr.
Qed.

(** A record with a failing location is rejected. *)
Lemma failing_location_rejects record locations location e :
  prop record "locations" = Array locations ->
  In location locations ->
  validateLocation location = Throw e ->
  exists e', validateCheckinRecord Date_parse record = Throw e'.
Proof.
  intros Hl Hin He.
  pose proof (validateCheckinRecord_decides Date_parse record) as D.
  destruct (violations Date_parse record) as [|e' rest] eqn:Ev.
  2: { exists e'. exact D. }
  exfalso. unfold violations in Ev.
  do 6 (apply app_eq_nil in Ev as [_ Ev]).
  apply app_eq_nil in Ev as [Hlv _].
  unfold locations_violations in Hlv. rewrite Hl in Hlv.
  pose proof (validateLocation_decides location) as D'.
  destruct (location_violations location) as [|e'' r''] eqn:E''.
  - destruct D' as [v Hv]. congruence.
  - apply in_split in Hin as (l1 & l2 & ->).
    rewrite flat_map_app in Hlv. apply app_eq_nil in Hlv as [_ Hlv].
    cbn [flat_map] in Hlv. rewrite E'' in Hlv. discriminate Hlv.
Qed.

(** C5. A geo location whose latitude and longitude are strings: when the
    parsed latitude is below -90 or above 90, or the parsed longitude is
    below -180 or above 180, the record is rejected, however well-formed
    the number. Where no earlier rule and no earlier location fails, the
    error is the latitude error when the latitude is out of range (and the
    longitude string is not empty, which the check before it requires),
    and the longitude error when the latitude is in range and the
    longitude is not. *)
Theorem coordinates_out_of_range_rejected record pre location post s t :
  prop record "locations" = Array (pre ++ location :: post) ->
  prop location "$type" = Str "community.lexicon.location.geo" ->
  prop location "latitude" = Str s ->
  prop location "longitude" = Str t ->
  outside (ParseFloat.parseFloat s) (-90) 90
  \/ outside (ParseFloat.parseFloat t) (-180) 180 ->
  (exists e, validateCheckinRecord Date_parse record = Throw e)
  /\ (before_locations Date_parse record = [] ->
      flat_map location_violations pre = [] ->
      (outside (ParseFloat.parseFloat s) (-90) 90 -> t <> "" ->
       validateCheckinRecord Date_parse record
       = Throw (Error "latitude must be a valid number between -90 and 90"))
      /\ (inside (ParseFloat.parseFloat s) (-90) 90 ->
          outside (ParseFloat.parseFloat t) (-180) 180 ->
          validateCheckinRecord Date_parse record
          = Throw (Error "longitude must be a valid number between -180 and 180"))).
Proof.
  intros Hl Htag Hs Ht Hout.
  pose proof (validateLocation_geo location Htag) as Hgeo.
  split.
  - assert (exists e, validateLocation location = Throw e) as [e He].
    { rewrite Hgeo. unfold validateGeoLocation.
      rewrite (get_defined _ _ (prop_Str_defined _ _ _ Hs)). cbn [bind].
      rewrite Hs, Ht.
      cbn [is_string typeof type_tag_eqb negb orb str_of]. rewrite !orb_false_r.
      destruct (truthy (Str s)); [|eexists; reflexivity].
      destruct (truthy (Str t)); [|eexists; reflexivity].
      cbn [negb].
      destruct Hout as [H|H]; apply outside_out_of_range in H;
        unfold out_of_range in H.
      + rewrite H. eexists; reflexivity.
      + rewrite H.
        match goal with
        | |- context [if ?b then _ else _] => destruct b
        end; eexists; reflexivity. }
    eapply failing_location_rejects; [exact Hl| |exact He].
    apply in_elt.
  - intros Hb Hpre. split.
    + intros Hlat Ht'. eapply first_failing_location; eauto.
      rewrite Hgeo, (validateGeoLocation_strings location s t); auto.
      * rewrite (outside_out_of_range _ _ _ Hlat). reflexivity.
      * eapply outside_not_empty; eauto.
    + intros Hlat Hlng. eapply first_failing_location; eauto.
      rewrite Hgeo, (validateGeoLocation_strings location s t); auto.
      * rewrite (inside_out_of_range _ _ _ Hlat),
          (outside_out_of_range _ _ _ Hlng). reflexivity.
      * eapply inside_not_empty; eauto.
      * eapply outside_not_empty; eauto.
Qed.

End Geo.

Lemma coordinates_out_of_range_rejected_witness :
  outside (ParseFloat.parseFloat "91") (-90) 90
  /\ validateCheckinRecord Host.Date_parse
       (Examples.with_location (Examples.geo_location "91" "0"))
     = Throw (Error "latitude must be a valid number between -90 and 90").
Proof.
  assert (H : outside (ParseFloat.parseFloat "91") (-90) 90)
    by (right; vm_compute; reflexivity).
  split; [exact H|].
  refine (proj1 (proj2 (coordinates_out_of_range_rejected Host.Date_parse
            (Examples.with_location (Examples.geo_location "91" "0"))
            [] (Examples.geo_location "91" "0") [] "91" "0"
            _ _ _ _ _) _ _) _ _);
    try reflexivity; try (left; exact H); try exact H.
  discriminate.
Defined.

End Geo.

(** ** [parseFloat] reads a prefix *)

Module ParseFloatFacts.
Import ParseFloat.

Lemma digits_app s g ds r :
  digits s = (ds, r) ->
  r <> "" \/ non_numeric g = true ->
  digits (s ++ g) = (ds, r ++ g).
Proof.
  revert ds r. induction s as [|c s IH]; intros ds r; simpl.
  - intros [= <- <-] [H|H]; [contradiction|].
    destruct g as [|c g]; [reflexivity|]. simpl in *.
    destruct (is_digit c); [discriminate H|reflexivity].
  - destruct (is_digit c).
    + destruct (digits s) as [ds' r'] eqn:E. intros [= <- <-] H.
      rewrite (IH ds' r' eq_refl H). reflexivity.
    + intros [= <- <-] _. reflexivity.
Qed.

Lemma sign_app s g neg rest :
  sign s = (neg, rest) -> s <> "" -> sign (s ++ g) = (neg, rest ++ g).
Proof.
  destruct s as [|c s]; [contradiction|]. simpl. intros H _.
  destruct (c =? "+")%char; [injection H as <- <-; reflexivity|].
  destruct (c =? "-")%char; injection H as <- <-; reflexivity.
Qed.

Lemma exponent_part_app s g e :
  exponent_part s = (e, "") ->
  non_numeric g = true ->
  exponent_part (s ++ g) = (e, g).
Proof.
  intros H Hg. destruct s as [|c s]; simpl in *.
  - injection H as <-. destruct g as [|c g]; [reflexivity|]. simpl in *.
    apply negb_true_iff in Hg.
    apply orb_false_iff in Hg as [Hg HE]. apply orb_false_iff in Hg as [_ He].
    rewrite He, HE. reflexivity.
  - destruct ((c =? "e")%char || (c =? "E")%char); [|discriminate H].
    destruct (sign s) as [neg rest'] eqn:Es.
    destruct s as [|c' s'].
    { simpl in Es. injection Es as <- <-. simpl in H. discriminate H. }
    rewrite (sign_app _ g _ _ Es) by discriminate.
    destruct (digits rest') as [ds r] eqn:Ed.
    destruct ds as [|d ds]; [discriminate H|].
    injection H as <- ->.
    rewrite (digits_app _ g _ _ Ed) by (right; exact Hg). reflexivity.
Qed.

Lemma strip_prefix_app p s g rest :
  strip_prefix p s = Some rest -> strip_prefix p (s ++ g) = Some (rest ++ g).
Proof.
  revert s. induction p as [|a p IH]; intros s; simpl.
  - destruct s; intros [= <-]; reflexivity.
  - destruct s as [|b s]; [discriminate|]. simpl.
    destruct (a =? b)%char; [apply IH|discriminate].
Qed.

Lemma digit_not_I c : is_digit c = true -> ("I" =? c)%char = false.
Proof.
  intros H. destruct (Ascii.eqb_spec "I" c) as [<-|]; [discriminate H|reflexivity].
Qed.

Lemma unsigned_literal_app s g l :
  unsigned_literal s = Some (l, "") ->
  non_numeric g = true ->
  unsigned_literal (s ++ g) = Some (l, g).
Proof.
  unfold unsigned_literal. intros H Hg.
  destruct (strip_prefix "Infinity" s) as [rest|] eqn:Ei.
  { injection H as <- ->. rewrite (strip_prefix_app _ _ g _ Ei). reflexivity. }
  destruct (digits s) as [ip r1] eqn:Ed.
  assert (Hi : strip_prefix "Infinity" (s ++ g) = None).
  { destruct s as [|c s]; simpl in Ed.
    - injection Ed as <- <-. discriminate H.
    - change (String c s ++ g) with (String c (s ++ g)). cbn [strip_prefix].
      destruct (is_digit c) eqn:Ec.
      + rewrite (digit_not_I _ Ec). reflexivity.
      + injection Ed as <- <-.
        destruct (c =? ".")%char eqn:Ep; [|discriminate H].
        apply Ascii.eqb_eq in Ep. subst c. reflexivity. }
  rewrite Hi.
  destruct r1 as [|c r2].
  - destruct (is_nil ip) eqn:En; [discriminate H|]. injection H as <-.
    rewrite (digits_app _ g _ _ Ed) by (right; exact Hg).
    change ("" ++ g) with g.
    destruct g as [|c g]; [rewrite En; reflexivity|].
    pose proof Hg as Hg'. simpl in Hg'. apply negb_true_iff in Hg'.
    apply orb_false_iff in Hg' as [Hg' HE]. apply orb_false_iff in Hg' as [Hg' He].
    apply orb_false_iff in Hg' as [_ Hp].
    rewrite Hp, En. simpl. rewrite He, HE. reflexivity.
  - rewrite (digits_app _ g _ _ Ed) by (left; discriminate).
    change (String c r2 ++ g) with (String c (r2 ++ g)). cbv beta iota.
    destruct (c =? ".")%char.
    + destruct (digits r2) as [fp r3] eqn:Ef.
      rewrite (digits_app _ g _ _ Ef) by (right; exact Hg).
      destruct (is_nil ip && is_nil fp); [discriminate H|].
      destruct (exponent_part r3) as [e r4] eqn:Ee.
      injection H as <- ->.
      rewrite (exponent_part_app _ g _ Ee Hg). reflexivity.
    + destruct (is_nil ip); [discriminate H|].
      destruct (exponent_part (String c r2)) as [e r4] eqn:Ee.
      injection H as <- ->.
      change (String c (r2 ++ g)) with (String c r2 ++ g).
      rewrite (exponent_part_app _ g _ Ee Hg). reflexivity.
Qed.

Lemma trim_start_app s g :
  trim_start s <> "" -> trim_start (s ++ g) = trim_start s ++ g.
Proof.
  induction s as [|c s IH]; simpl; [contradiction|].
  destruct (is_white_space c); [exact IH|reflexivity].
Qed.

(** A complete literal followed by text that cannot continue it parses as
    the literal alone. *)
Lemma parseFloat_app p g :
  numeric p = true ->
  non_numeric g = true ->
  parseFloat (p ++ g) = parseFloat p.
Proof.
  unfold numeric, parseFloat. intros Hp Hg.
  destruct (signed_literal (trim_start p)) as [[[neg l] rest]|] eqn:E;
    [|discriminate Hp].
  apply String.eqb_eq in Hp. subst rest.
  assert (Hne : trim_start p <> "").
  { intros H0. rewrite H0 in E. discriminate E. }
  rewrite (trim_start_app _ g Hne).
  unfold signed_literal in *.
  destruct (sign (trim_start p)) as [neg' body] eqn:Es.
  rewrite (sign_app _ g _ _ Es Hne).
  destruct (unsigned_literal body) as [[l' rest]|] eqn:Eu; [|discriminate E].
  injection E as -> -> ->.
  rewrite (unsigned_literal_app _ g _ Eu Hg). reflexivity.
Qed.

End ParseFloatFacts.

(** ** Coordinates are echoed as given *)

Module Echo.
Import JS Types Rules JSFacts Refinement Accepted Geo ParseFloatFacts.

(** The loop validates the elements one by one, in order. *)
Lemma validateLocations_each locations acc vs :
  validateLocations locations acc = Ret vs ->
  exists vs', vs = (acc ++ vs')%list
              /\ Forall2 (fun l v => validateLocation l = Ret v) locations vs'.
Proof.
  revert acc. induction locations as [|l rest IH]; intros acc; simpl.
  - intros [= <-]. exists []. rewrite app_nil_r. split; constructor.
  - destruct (validateLocation l) as [v|e] eqn:El; simpl; [|discriminate].
    intros H. apply IH in H as (vs' & -> & HF).
    exists (v :: vs'). rewrite <- app_assoc. split; [reflexivity|].
    constructor; assumption.
Qed.

(** C9. A coordinate string that starts with a number in range and goes on
    with text that is no part of a number (as in "45abc") is accepted:
    [parseFloat] reads the numeric prefix only, and the validated location
    carries the whole original string, trailing text included. *)
Theorem trailing_text_accepted location p g q h :
  prop location "$type" = Str "community.lexicon.location.geo" ->
  prop location "latitude" = Str (p ++ g) ->
  prop location "longitude" = Str (q ++ h) ->
  ParseFloat.numeric p = true -> ParseFloat.non_numeric g = true ->
  ParseFloat.numeric q = true -> ParseFloat.non_numeric h = true ->
  inside (ParseFloat.parseFloat p) (-90) 90 ->
  inside (ParseFloat.parseFloat q) (-180) 180 ->
  let validated :=
    Object [("$type", Str "community.lexicon.location.geo");
            ("latitude", Str (p ++ g)); ("longitude", Str (q ++ h))] in
  ParseFloat.parseFloat (p ++ g) = ParseFloat.parseFloat p
  /\ ParseFloat.parseFloat (q ++ h) = ParseFloat.parseFloat q
  /\ validateLocation location = Ret validated
  /\ forall Date_parse record pre post r,
       prop record "locations" = Array (pre ++ location :: post) ->
       validateCheckinRecord Date_parse record = Ret r ->
       exists vpre vpost,
         prop r "locations" = Array (vpre ++ validated :: vpost)
         /\ List.length vpre = List.length pre.
Proof.
  intros Htag Hlat Hlng Hp Hg Hq Hh Ip Iq validated.
  pose proof (parseFloat_app p g Hp Hg) as Ep.
  pose proof (parseFloat_app q h Hq Hh) as Eq.
  assert (Hv : validateLocation location = Ret validated).
  { rewrite (validateLocation_geo _ Htag).
    rewrite (validateGeoLocation_strings location (p ++ g) (q ++ h) Hlat Hlng).
    - rewrite Ep, Eq, (inside_out_of_range _ _ _ Ip),
        (inside_out_of_range _ _ _ Iq). reflexivity.
    - apply (inside_not_empty _ (-90) 90). rewrite Ep. exact Ip.
    - apply (inside_not_empty _ (-180) 180). rewrite Eq. exact Iq. }
  repeat split; try assumption.
  intros Date_parse record pre post r Hl Hr.
  destruct (accepted_is_object Date_parse record r Hr) as [fields ->].
  pose proof (accepted_locations Date_parse record fields Hr) as Ha.
  rewrite Hl in Ha.
  destruct (pre ++ location :: post)%list as [|l0 ls0] eqn:Els.
  { destruct pre; discriminate Els. }
  destruct Ha as (vs & Hassoc & Hvs). rewrite <- Els in Hvs.
  apply validateLocations_each in Hvs as (vs' & -> & HF).
  apply Forall2_app_inv_l in HF as (vpre & vrest & Hpre & Hrest & ->).
  inversion Hrest as [|? v ? vpost Hl1 Hpost]; subst.
  exists vpre, vpost. split.
  - unfold prop. rewrite Hassoc. simpl. congruence.
  - symmetry. eapply Forall2_length; eassumption.
Qed.

Lemma trailing_text_accepted_witness :
  ParseFloat.parseFloat "45abc" = of_Z 45
  /\ validateCheckinRecord Host.Date_parse Examples.trailing_text
     = Ret (Object
              [("$type", Str "app.dropanchor.checkin");
               ("text", Str "Coffee");
               ("createdAt", Str "2025-06-15T13:00:00Z");
               ("locations",
                Array [Object [("$type", Str "community.lexicon.location.geo");
                               ("latitude", Str "45abc");
                               ("longitude", Str "7 degrees")]])])
  /\ validateLocation (Examples.geo_location "45abc" "7 degrees")
     = Ret (Examples.geo_location "45abc" "7 degrees").
Proof.
  split; [vm_compute; reflexivity|]. split; [vm_compute; reflexivity|].
  refine (proj1 (proj2 (proj2
    (trailing_text_accepted (Examples.geo_location "45abc" "7 degrees")
       "45" "abc" "7" " degrees" _ _ _ _ _ _ _ _ _))));
    try reflexivity; vm_compute; repeat split; reflexivity.
Defined.

End Echo.

(** ** Validating twice *)

Module Idempotence.
Import JS Types Rules JSFacts Refinement Accepted Geo Echo.

Lemma address_field_result location field acc acc' :
  address_field location field acc = Ret acc' ->
  forall k, assoc k acc'
            = if (field =? k)%string && negb (is_undefined (prop location field))
              then Some (prop location field) else assoc k acc.
Proof.
  rewrite address_field_eq. intros H k.
  destruct (is_undefined location || is_null location); [discriminate H|].
  destruct (is_undefined (prop location field)); cbn [negb] in *.
  - injection H as <-. rewrite andb_false_r. reflexivity.
  - destruct (is_string (prop location field)); [|discriminate H].
    cbn [negb] in H. injection H as <-.
    rewrite assoc_set_prop, andb_true_r. reflexivity.
Qed.

Lemma category_field_result record field ceiling too_long acc acc' :
  category_field record field ceiling too_long acc = Ret acc' ->
  forall k, assoc k acc'
            = if (field =? k)%string && negb (is_undefined (prop record field))
              then Some (prop record field) else assoc k acc.
Proof.
  unfold category_field. intros H k.
  destruct (is_undefined (prop record field)); cbn [negb] in *.
  - injection H as <-. rewrite andb_false_r. reflexivity.
  - repeat match type of H with
           | (if ?b then _ else _) = _ => destruct b; [discriminate H|]
           end.
    injection H as <-. rewrite assoc_set_prop, andb_true_r. reflexivity.
Qed.

Lemma or_undefined_defined v :
  or_undefined (if negb (is_undefined v) then Some v else None) = v.
Proof. destruct v; reflexivity. Qed.

Lemma validateGeoLocation_ext l l' :
  is_undefined l || is_null l = false ->
  is_undefined l' || is_null l' = false ->
  prop l "latitude" = prop l' "latitude" ->
  prop l "longitude" = prop l' "longitude" ->
  validateGeoLocation l = validateGeoLocation l'.
Proof.
  intros Hl Hl'. rewrite !validateGeoLocation_eq by assumption.
  intros -> ->. reflexivity.
Qed.

Lemma validateAddressLocation_ext l l' :
  is_undefined l || is_null l = false ->
  is_undefined l' || is_null l' = false ->
  (forall k, In k ["street"; "locality"; "region"; "country"; "postalCode"; "name"] ->
             prop l k = prop l' k) ->
  validateAddressLocation l = validateAddressLocation l'.
Proof.
  intros Hl Hl' H. unfold validateAddressLocation, address_field.
  rewrite !(get_defined l _ Hl), !(get_defined l' _ Hl').
  rewrite !(H "street"), !(H "locality"), !(H "region"), !(H "country"),
    !(H "postalCode"), !(H "name") by (simpl; tauto).
  reflexivity.
Qed.

(** A validated location validates to itself. *)
Lemma validateLocation_idempotent l v :
  validateLocation l = Ret v -> validateLocation v = Ret v.
Proof.
  unfold validateLocation. intros H.
  destruct l as [| |b|x|s|items|props]; try discriminate H.
  cbn [get bind] in H.
  destruct (truthy (prop (Object props) "$type")); [|discriminate H].
  cbn [negb] in H.
  destruct (is_str (prop (Object props) "$type") "community.lexicon.location.geo").
  - (* geo *)
    assert (Hv : v = Object [("$type", Str "community.lexicon.location.geo");
                             ("latitude", prop (Object props) "latitude");
                             ("longitude", prop (Object props) "longitude")]).
    { rewrite validateGeoLocation_eq in H by reflexivity.
      repeat match type of H with
             | (if ?b then Throw _ else _) = _ => destruct b; [discriminate H|]
             | (let _ := _ in _) = _ => cbv zeta in H
             end.
      injection H as <-. reflexivity. }
    subst v. cbn [get bind].
    change (truthy (prop (Object _) "$type")) with true. cbn [negb].
    change (is_str (prop (Object _) "$type") "community.lexicon.location.geo")
      with true. cbv iota.
    rewrite <- H. apply validateGeoLocation_ext; reflexivity.
  - destruct (is_str (prop (Object props) "$type")
                "community.lexicon.location.address"); [|discriminate H].
    (* address *)
    set (l := Object props) in *.
    pose proof H as H0. unfold validateAddressLocation in H.
    destruct (address_field l "street" _) as [a1|] eqn:E1; [|discriminate H].
    cbn [bind] in H.
    destruct (address_field l "locality" _) as [a2|] eqn:E2; [|discriminate H].
    cbn [bind] in H.
    destruct (address_field l "region" _) as [a3|] eqn:E3; [|discriminate H].
    cbn [bind] in H.
    destruct (address_field l "country" _) as [a4|] eqn:E4; [|discriminate H].
    cbn [bind] in H.
    destruct (address_field l "postalCode" _) as [a5|] eqn:E5; [|discriminate H].
    cbn [bind] in H.
    destruct (address_field l "name" _) as [a6|] eqn:E6; [|discriminate H].
    cbn [bind] in H. injection H as <-.
    assert (Hk : forall k, assoc k a6
      = if ("name" =? k)%string && negb (is_undefined (prop l "name"))
        then Some (prop l "name")
        else if ("postalCode" =? k)%string && negb (is_undefined (prop l "postalCode"))
        then Some (prop l "postalCode")
        else if ("country" =? k)%string && negb (is_undefined (prop l "country"))
        then Some (prop l "country")
        else if ("region" =? k)%string && negb (is_undefined (prop l "region"))
        then Some (prop l "region")
        else if ("locality" =? k)%string && negb (is_undefined (prop l "locality"))
        then Some (prop l "locality")
        else if ("street" =? k)%string && negb (is_undefined (prop l "street"))
        then Some (prop l "street")
        else assoc k [("$type", Str "community.lexicon.location.address")]).
    { intros k.
      rewrite (address_field_result _ _ _ _ E6 k),
        (address_field_result _ _ _ _ E5 k),
        (address_field_result _ _ _ _ E4 k),
        (address_field_result _ _ _ _ E3 k),
        (address_field_result _ _ _ _ E2 k),
        (address_field_result _ _ _ _ E1 k). reflexivity. }
    assert (Htag : prop (Object a6) "$type"
                   = Str "community.lexicon.location.address").
    { unfold prop. rewrite Hk. reflexivity. }
    cbn [get bind]. rewrite Htag.
    change (truthy (Str "community.lexicon.location.address")) with true.
    cbn [negb].
    change (is_str (Str "community.lexicon.location.address")
              "community.lexicon.location.geo") with false.
    change (is_str (Str "community.lexicon.location.address")
              "community.lexicon.location.address") with true.
    cbv iota. rewrite <- H0.
    apply validateAddressLocation_ext; [reflexivity|reflexivity|].
    intros k Hin. unfold prop at 1. rewrite Hk.
    simpl in Hin.
    destruct Hin as [<-|[<-|[<-|[<-|[<-|[<-|[]]]]]]];
      cbn [String.eqb Ascii.eqb Bool.eqb andb];
      try apply or_undefined_defined.
Qed.

Lemma validateLocations_idempotent locations vs acc :
  Forall2 (fun l v => validateLocation l = Ret v) locations vs ->
  validateLocations vs acc = Ret (acc ++ vs)%list.
Proof.
  intros HF. revert acc.
  induction HF as [|l v ls vs Hlv _ IH]; intros acc; simpl.
  - rewrite app_nil_r. reflexivity.
  - rewrite (validateLocation_idempotent _ _ Hlv). simpl.
    rewrite IH, <- app_assoc. reflexivity.
Qed.

Lemma set_prop_keys (P : string -> Prop) props k v :
  Forall P (map fst props) -> P k -> Forall P (map fst (set_prop props k v)).
Proof.
  intros HF Hk. induction props as [|[k0 v0] rest IH]; simpl.
  - constructor; [exact Hk|constructor].
  - inversion HF as [|? ? H0 Hrest]; subst.
    destruct (k0 =? k)%string; simpl; constructor; auto.
Qed.

Lemma address_field_keys (P : string -> Prop) location field acc acc' :
  address_field location field acc = Ret acc' ->
  Forall P (map fst acc) -> P field -> Forall P (map fst acc').
Proof.
  rewrite address_field_eq. intros H HF Hk.
  repeat match type of H with
         | (if ?b then _ else _) = _ => destruct b; try discriminate H
         end; injection H as <-; auto using set_prop_keys.
Qed.

(** A validated location has the properties of its kind and no other. *)
Lemma validateLocation_fields l v :
  validateLocation l = Ret v ->
  only_fields geo_fields v \/ only_fields address_fields v.
Proof.
  unfold validateLocation. intros H.
  destruct l as [| |b|x|s|items|props]; try discriminate H.
  cbn [get bind] in H.
  destruct (truthy _); [|discriminate H]. cbn [negb] in H.
  destruct (is_str _ "community.lexicon.location.geo").
  - left. rewrite validateGeoLocation_eq in H by reflexivity.
    repeat match type of H with
           | (if ?b then Throw _ else _) = _ => destruct b; [discriminate H|]
           | (let _ := _ in _) = _ => cbv zeta in H
           end.
    injection H as <-. eexists. split; [reflexivity|].
    repeat constructor; simpl; tauto.
  - destruct (is_str _ "community.lexicon.location.address"); [|discriminate H].
    right. unfold validateAddressLocation in H.
    repeat match type of H with
           | bind ?c _ = _ =>
               let a := fresh "a" in let E := fresh "E" in
               destruct c as [a|] eqn:E; [cbn [bind] in H|discriminate H]
           end.
    injection H as <-. eexists. split; [reflexivity|].
    repeat match goal with
           | E : address_field _ _ _ = Ret ?a |- Forall _ (map fst ?a) =>
               eapply address_field_keys; [exact E| |simpl; tauto]
           end.
    repeat constructor; simpl; tauto.
Qed.

Lemma category_field_keys (P : string -> Prop) record field ceiling too_long acc acc' :
  category_field record field ceiling too_long acc = Ret acc' ->
  Forall P (map fst acc) -> P field -> Forall P (map fst acc').
Proof.
  unfold category_field. intros H HF Hk.
  repeat match type of H with
         | (if ?b then _ else _) = _ => destruct b; try discriminate H
         end; injection H as <-; auto using set_prop_keys.
Qed.

Lemma category_field_ext record record' field ceiling too_long acc :
  prop record field = prop record' field ->
  category_field record field ceiling too_long acc
  = category_field record' field ceiling too_long acc.
Proof. unfold category_field. intros ->. reflexivity. Qed.

(** Reads a property of the result off the chain of assignments [Hk]. *)
Ltac field_of_result Hk Hbase :=
  try unfold prop at 1; rewrite Hk;
  cbn [String.eqb Ascii.eqb Bool.eqb andb];
  rewrite ?Hbase by reflexivity;
  repeat match goal with
         | |- context [negb (is_undefined ?X)] =>
             let E := fresh "E" in
             destruct (is_undefined X) eqn:E; cbn [negb];
             [destruct X; try discriminate E|]
         end;
  reflexivity.

Section Idempotence.

Variable Date_parse : string -> number.

(** C8. Validating an accepted record again accepts it and returns the
    same record. The record is an object whose property names are among
    [$type], [text], [createdAt], [locations], [category],
    [categoryGroup] and [categoryIcon]; its [$type] is
    "app.dropanchor.checkin" whatever the input carried; its locations,
    when it has any, are objects with the properties of a geo or of an
    address location and no other; and [text], [createdAt] and the
    category fields are those of the input. *)
Theorem validate_idempotent record r :
  validateCheckinRecord Date_parse record = Ret r ->
  validateCheckinRecord Date_parse r = Ret r
  /\ exists fields,
       r = Object fields
       /\ Forall (fun k => In k recognized) (map fst fields)
       /\ assoc "$type" fields = Some (Str "app.dropanchor.checkin")
       /\ (forall locations,
             assoc "locations" fields = Some locations ->
             exists vs,
               locations = Array vs
               /\ Forall (fun v => only_fields geo_fields v
                                   \/ only_fields address_fields v) vs)
       /\ prop r "text" = prop record "text"
       /\ prop r "createdAt" = prop record "createdAt"
       /\ prop r "category" = prop record "category"
       /\ prop r "categoryGroup" = prop record "categoryGroup"
       /\ prop r "categoryIcon" = prop record "categoryIcon".
Proof.
  intros Hr. pose proof Hr as H. unfold validateCheckinRecord in H.
  destruct (negb (type_tag_eqb (typeof record) TObject) || is_null record);
    [discriminate H|].
  destruct (negb (truthy (prop record "text"))
            || negb (is_string (prop record "text"))) eqn:C2; [discriminate H|].
  destruct (300 <? str_length (prop record "text"))%nat eqn:C3; [discriminate H|].
  destruct (negb (truthy (prop record "createdAt"))
            || negb (is_string (prop record "createdAt"))) eqn:C4;
    [discriminate H|].
  destruct (isNaN (Date_parse (str_of (prop record "createdAt")))) eqn:C5;
    [discriminate H|].
  cbv zeta in H.
  set (base := [("$type", Str "app.dropanchor.checkin");
                ("text", prop record "text");
                ("createdAt", prop record "createdAt")]) in *.
  match type of H with
  | bind ?c _ = _ => destruct c as [r1|] eqn:E1; [|discriminate H]
  end.
  cbn [bind] in H.
  destruct (category_field record "category" _ _ r1) as [r2|] eqn:E2;
    [|discriminate H].
  cbn [bind] in H.
  destruct (category_field record "categoryGroup" _ _ r2) as [r3|] eqn:E3;
    [|discriminate H].
  cbn [bind] in H.
  destruct (category_field record "categoryIcon" _ _ r3) as [r4|] eqn:E4;
    [|discriminate H].
  cbn [bind] in H. injection H as <-.
  (* the locations step: what it returns, and what it does on its own output *)
  assert (L : (r1 = base /\ assoc "locations" r1 = None)
              \/ exists vs, r1 = set_prop base "locations" (Array vs)
                            /\ assoc "locations" r1 = Some (Array vs)
                            /\ validateLocations vs [] = Ret vs
                            /\ (0 <? List.length vs)%nat = true
                            /\ Forall (fun v => only_fields geo_fields v
                                                \/ only_fields address_fields v) vs).
  { destruct (prop record "locations") as [| |b|x|s|ls|ps];
      cbn [is_undefined negb] in E1; try discriminate E1.
    - left. injection E1 as <-. split; reflexivity.
    - destruct (validateLocations ls []) as [vs|] eqn:Evs; [|discriminate E1].
      cbn [bind] in E1.
      destruct (0 <? List.length vs)%nat eqn:Elen; injection E1 as <-.
      + right. exists vs.
        apply validateLocations_each in Evs as (vs' & -> & HF).
        cbn [app] in *.
        split; [reflexivity|]. split; [reflexivity|].
        split; [apply (validateLocations_idempotent _ _ [] HF)|].
        split; [exact Elen|].
        clear -HF. induction HF as [|l v ls vs' Hlv _ IH]; constructor;
          [eapply validateLocation_fields; exact Hlv|exact IH].
      + left. split; reflexivity. }
  assert (Hk : forall k, assoc k r4
    = if ("categoryIcon" =? k)%string && negb (is_undefined (prop record "categoryIcon"))
      then Some (prop record "categoryIcon")
      else if ("categoryGroup" =? k)%string && negb (is_undefined (prop record "categoryGroup"))
      then Some (prop record "categoryGroup")
      else if ("category" =? k)%string && negb (is_undefined (prop record "category"))
      then Some (prop record "category")
      else assoc k r1).
  { intros k. rewrite (category_field_result _ _ _ _ _ _ E4 k),
      (category_field_result _ _ _ _ _ _ E3 k),
      (category_field_result _ _ _ _ _ _ E2 k). reflexivity. }
  assert (Hbase : forall k, (k =? "locations")%string = false ->
                            assoc k r1 = assoc k base).
  { intros k Hne. destruct L as [[-> _]|(vs & -> & _)]; [reflexivity|].
    rewrite assoc_set_prop, String.eqb_sym, Hne. reflexivity. }
  assert (Ftype : assoc "$type" r4 = Some (Str "app.dropanchor.checkin"))
    by field_of_result Hk Hbase.
  assert (Ftext : prop (Object r4) "text" = prop record "text")
    by field_of_result Hk Hbase.
  assert (Fcreated : prop (Object r4) "createdAt" = prop record "createdAt")
    by field_of_result Hk Hbase.
  assert (Fcat : prop (Object r4) "category" = prop record "category")
    by field_of_result Hk Hbase.
  assert (Fgroup : prop (Object r4) "categoryGroup" = prop record "categoryGroup")
    by field_of_result Hk Hbase.
  assert (Ficon : prop (Object r4) "categoryIcon" = prop record "categoryIcon")
    by field_of_result Hk Hbase.
  assert (Flocs : prop (Object r4) "locations"
                  = or_undefined (assoc "locations" r1)).
  { unfold prop at 1. rewrite Hk. reflexivity. }
  split.
  - unfold validateCheckinRecord.
    cbn [typeof type_tag_eqb negb is_null orb].
    rewrite Ftext, Fcreated, C2, C3, C4, C5. cbv zeta. fold base.
    rewrite Flocs.
    match goal with
    | |- bind ?c _ = _ => assert (Hc : c = Ret r1)
    end.
    { destruct L as [[-> H0]|(vs & -> & H0 & Hval & Hlen & _)]; rewrite H0.
      - reflexivity.
      - cbn [or_undefined is_undefined negb]. rewrite Hval. cbn [bind].
        rewrite Hlen. reflexivity. }
    rewrite Hc. cbn [bind].
    rewrite (category_field_ext (Object r4) record "category") by exact Fcat.
    rewrite E2. cbn [bind].
    rewrite (category_field_ext (Object r4) record "categoryGroup")
      by exact Fgroup.
    rewrite E3. cbn [bind].
    rewrite (category_field_ext (Object r4) record "categoryIcon")
      by exact Ficon.
    rewrite E4. reflexivity.
  - exists r4. split; [reflexivity|].
    split; [|split; [exact Ftype|split; [|repeat split; assumption]]].
    2: { intros locations Hl. rewrite Hk in Hl.
         cbn [String.eqb Ascii.eqb Bool.eqb andb] in Hl.
         destruct L as [[_ H0]|(vs & _ & H0 & _ & _ & Hf)];
           rewrite H0 in Hl; [discriminate Hl|].
         injection Hl as <-. exists vs. split; [reflexivity|exact Hf]. }
    assert (K1 : Forall (fun k => In k recognized) (map fst r1)).
    { assert (Kb : Forall (fun k => In k recognized) (map fst base))
        by (repeat constructor; simpl; tauto).
      destruct L as [[-> _]|(vs & -> & _)]; [exact Kb|].
      apply set_prop_keys; [exact Kb|simpl; tauto]. }
    eapply category_field_keys; [exact E4| |simpl; tauto].
    eapply category_field_keys; [exact E3| |simpl; tauto].
    eapply category_field_keys; [exact E2|exact K1|simpl; tauto].
Qed.

End Idempotence.

Lemma validate_idempotent_witness :
  validateCheckinRecord Host.Date_parse Examples.with_extras
  = Ret (Object
           [("$type", Str "app.dropanchor.checkin");
            ("text", Str "Coffee at Central Perk");
            ("createdAt", Str "2025-06-15T13:00:00Z");
            ("locations",
             Array [Object [("$type", Str "community.lexicon.location.geo");
                            ("latitude", Str "40.7128");
                            ("longitude", Str "-74.0060")];
                    Object [("$type", Str "community.lexicon.location.address");
                            ("street", Str "123 Bedford St");
                            ("name", Str "Central Perk")]]);
            ("category", Str "cafe");
            ("categoryIcon", Str "x")])
  /\ exists r,
       validateCheckinRecord Host.Date_parse Examples.with_extras = Ret r
       /\ validateCheckinRecord Host.Date_parse r = Ret r.
Proof.
  split; [vm_compute; reflexivity|].
  eexists. split; [vm_compute; reflexivity|].
  eapply (validate_idempotent Host.Date_parse Examples.with_extras).
  vm_compute. reflexivity.
Defined.

End Idempotence.

(** ** Ordering of rows *)

Module FeedFacts.
Import JS Queries Writes.

(** *** The order of the keys *)

Lemma leb_trans a b c :
  String.leb a b = true -> String.leb b c = true -> String.leb a c = true.
Proof.
  unfold String.leb. intros Hab Hbc.
  destruct (String.compare a b) eqn:Eab; try discriminate Hab.
  - apply String.compare_eq_iff in Eab. subst b. exact Hbc.
  - destruct (String.compare b c) eqn:Ebc; try discriminate Hbc.
    + apply String.compare_eq_iff in Ebc. subst c. rewrite Eab. reflexivity.
    + assert (H : String.compare a c = Lt).
      { apply OrderedTypeEx.String_as_OT.cmp_lt.
        eapply OrderedTypeEx.String_as_OT.lt_trans;
          apply OrderedTypeEx.String_as_OT.cmp_lt; eassumption. }
      rewrite H. reflexivity.
Qed.

Lemma ltb_irrefl a : String.ltb a a = false.
Proof.
  unfold String.ltb. destruct (String.compare a a) eqn:E; try reflexivity.
  pose proof (String.compare_antisym a a) as H. rewrite E in H. discriminate H.
Qed.

Lemma leb_ne_ltb a b : String.leb a b = true -> a <> b -> String.ltb a b = true.
Proof.
  unfold String.leb, String.ltb. intros H Hne.
  destruct (String.compare a b) eqn:E; try discriminate H; [|reflexivity].
  apply String.compare_eq_iff in E. contradiction.
Qed.

Lemma ltb_not_leb a b : String.ltb a b = true -> String.leb b a = false.
Proof.
  unfold String.leb, String.ltb. rewrite (String.compare_antisym b a).
  destruct (String.compare a b); simpl; try discriminate. reflexivity.
Qed.

Lemma leb_not_ltb a b : String.leb a b = true -> String.ltb b a = false.
Proof.
  unfold String.leb, String.ltb. rewrite (String.compare_antisym b a).
  destruct (String.compare a b); simpl; try discriminate; reflexivity.
Qed.

Lemma sql_leb_trans a b c :
  sql_leb a b = true -> sql_leb b c = true -> sql_leb a c = true.
Proof.
  destruct a, b, c; simpl; try reflexivity; try discriminate. apply leb_trans.
Qed.

Lemma sql_leb_total a b : sql_leb a b = true \/ sql_leb b a = true.
Proof.
  destruct a, b; simpl; auto. apply String.leb_total.
Qed.

End FeedFacts.

Module SortFacts.
Import JS Queries Writes Feed FeedFacts.

Lemma insert_desc_perm r l : Permutation (insert_desc r l) (r :: l).
Proof.
  induction l as [|x rest IH]; simpl; [reflexivity|].
  destruct (sql_leb (row_createdAt x) (row_createdAt r)); [reflexivity|].
  rewrite IH. apply perm_swap.
Qed.

Lemma order_perm l : Permutation (order_by_createdAt_desc l) l.
Proof.
  induction l as [|x rest IH]; simpl; [reflexivity|].
  rewrite insert_desc_perm. constructor. exact IH.
Qed.

Lemma insert_desc_sorted r l :
  StronglySorted newer l -> StronglySorted newer (insert_desc r l).
Proof.
  induction 1 as [|x rest Hs IH Hx]; simpl.
  - constructor; constructor.
  - destruct (sql_leb (row_createdAt x) (row_createdAt r)) eqn:E.
    + constructor; [constructor; assumption|].
      constructor; [exact E|].
      eapply List.Forall_impl; [|exact Hx]. intros z Hz. unfold newer in *.
      eapply sql_leb_trans; eassumption.
    + constructor; [exact IH|].
      rewrite insert_desc_perm. constructor; [|exact Hx].
      unfold newer. destruct (sql_leb_total (row_createdAt x) (row_createdAt r));
        congruence.
Qed.

Lemma order_sorted l : StronglySorted newer (order_by_createdAt_desc l).
Proof.
  induction l as [|x rest IH]; simpl; [constructor|].
  apply insert_desc_sorted. exact IH.
Qed.

Lemma firstn_In {A} n (l : list A) z : In z (firstn n l) -> In z l.
Proof.
  intros H. rewrite <- (firstn_skipn n l). apply in_or_app. left. exact H.
Qed.

Lemma skipn_In {A} n (l : list A) z : In z (skipn n l) -> In z l.
Proof.
  intros H. rewrite <- (firstn_skipn n l). apply in_or_app. right. exact H.
Qed.

Lemma sorted_firstn {A} (R : A -> A -> Prop) n l :
  StronglySorted R l -> StronglySorted R (firstn n l).
Proof.
  intros H. revert n. induction H as [|x rest Hs IH Hx]; intros [|n]; simpl;
    try constructor; [apply IH|].
  apply List.Forall_forall. intros z Hz. apply firstn_In in Hz.
  revert z Hz. apply List.Forall_forall. exact Hx.
Qed.

Lemma sorted_filter {A} (R : A -> A -> Prop) p l :
  StronglySorted R l -> StronglySorted R (List.filter p l).
Proof.
  induction 1 as [|x rest Hs IH Hx]; simpl; [constructor|].
  destruct (p x); [|exact IH]. constructor; [exact IH|].
  apply List.Forall_forall. intros z Hz. apply List.filter_In in Hz as [Hz _].
  revert z Hz. apply List.Forall_forall. exact Hx.
Qed.

Lemma sql_limit_sorted n l :
  StronglySorted newer l -> StronglySorted newer (sql_limit n l).
Proof.
  unfold sql_limit. destruct (n <? 0); [auto|apply sorted_firstn].
Qed.

Lemma sql_limit_In n l r : In r (sql_limit n l) -> In r l.
Proof.
  unfold sql_limit. destruct (n <? 0); [auto|apply firstn_In].
Qed.

End SortFacts.

(** ** The read path of the record store *)

Module Store.
Import JS Queries Selection.

Lemma sql_limit_length n rows :
  0 <= n -> (List.length (sql_limit n rows) <= Z.to_nat n)%nat.
Proof.
  intros Hn. unfold sql_limit.
  destruct (n <? 0) eqn:E; [apply Z.ltb_lt in E; lia|].
  apply firstn_le_length.
Qed.

Section Store.

Variable JSON_parse : string -> completion value.

Lemma toStoredCheckin_total r : exists c, toStoredCheckin JSON_parse r = Ret c.
Proof.
  unfold toStoredCheckin.
  destruct (cell_truthy (cell r 4)); [|eexists; reflexivity].
  destruct (JSON_parse (String_of (cell r 4))); eexists; reflexivity.
Qed.

Lemma map_rows_total rows :
  exists cs, map_rows JSON_parse rows = Ret cs
             /\ List.length cs = List.length rows.
Proof.
  induction rows as [|r rest [cs [IH Hlen]]]; simpl.
  - exists []. split; reflexivity.
  - destruct (toStoredCheckin_total r) as [c ->]. simpl. rewrite IH. simpl.
    exists (c :: cs). split; [reflexivity|simpl; congruence].
Qed.

(** Up to 100 rows come back for a limit that is not negative. *)
Lemma getGlobalFeed_capped table limit cursor checkins :
  0 <= default 50 limit ->
  getGlobalFeed JSON_parse table limit cursor = Ret checkins ->
  (List.length checkins <= 100)%nat.
Proof.
  unfold getGlobalFeed. intros Hl H.
  destruct (limit_in_range _); [|discriminate H].
  match type of H with
  | map_rows _ ?rows = _ =>
      destruct (map_rows_total rows) as (cs & Hcs & Hlen)
  end.
  rewrite Hcs in H. injection H as <-. rewrite Hlen.
  etransitivity; [apply sql_limit_length; lia|]. lia.
Qed.

Lemma toStoredCheckin_scrub r :
  toStoredCheckin JSON_parse (without_corrupt_locations JSON_parse r)
  = toStoredCheckin JSON_parse r.
Proof.
  unfold without_corrupt_locations, toStoredCheckin.
  destruct r as [c0 c1 c2 c3 c4 c5 c6 c7 c8 c9]. cbn [row_locations cell].
  destruct c4 as [|json]; [reflexivity|].
  destruct (JSON_parse json) eqn:E; [reflexivity|].
  cbn [cell row_id row_authorDid row_text row_createdAt row_locations
       row_category row_categoryGroup row_categoryIcon row_uri row_cid
       cell_truthy String_of].
  destruct (negb (json =? "")%string); [|reflexivity].
  rewrite E. reflexivity.
Qed.

Lemma map_rows_scrub rows :
  map_rows JSON_parse (map (without_corrupt_locations JSON_parse) rows)
  = map_rows JSON_parse rows.
Proof.
  induction rows as [|r rest IH]; simpl; [reflexivity|].
  rewrite toStoredCheckin_scrub, IH. reflexivity.
Qed.

(** The columns the queries select and order by are not touched. *)
Lemma scrub_keeps r :
  let r' := without_corrupt_locations JSON_parse r in
  row_uri r' = row_uri r /\ row_authorDid r' = row_authorDid r
  /\ row_createdAt r' = row_createdAt r.
Proof.
  unfold without_corrupt_locations.
  destruct (row_locations r); [repeat split|].
  destruct (JSON_parse s); repeat split.
Qed.

Lemma filter_map_scrub (p : row -> bool) rows :
  (forall r, p (without_corrupt_locations JSON_parse r) = p r) ->
  List.filter p (map (without_corrupt_locations JSON_parse) rows)
  = map (without_corrupt_locations JSON_parse) (List.filter p rows).
Proof.
  intros Hp. induction rows as [|r rest IH]; simpl; [reflexivity|].
  rewrite Hp. destruct (p r); simpl; rewrite IH; reflexivity.
Qed.

Lemma insert_desc_scrub r sorted :
  insert_desc (without_corrupt_locations JSON_parse r)
    (map (without_corrupt_locations JSON_parse) sorted)
  = map (without_corrupt_locations JSON_parse) (insert_desc r sorted).
Proof.
  induction sorted as [|x rest IH]; simpl; [reflexivity|].
  destruct (scrub_keeps r) as (_ & _ & ->).
  destruct (scrub_keeps x) as (_ & _ & ->).
  destruct (sql_leb (row_createdAt x) (row_createdAt r)); simpl;
    [reflexivity|]. rewrite IH. reflexivity.
Qed.

Lemma order_by_scrub rows :
  order_by_createdAt_desc (map (without_corrupt_locations JSON_parse) rows)
  = map (without_corrupt_locations JSON_parse) (order_by_createdAt_desc rows).
Proof.
  unfold order_by_createdAt_desc.
  induction rows as [|r rest IH]; simpl; [reflexivity|].
  rewrite IH. apply insert_desc_scrub.
Qed.

Lemma sql_limit_scrub n rows :
  sql_limit n (map (without_corrupt_locations JSON_parse) rows)
  = map (without_corrupt_locations JSON_parse) (sql_limit n rows).
Proof.
  unfold sql_limit. destruct (n <? 0); [reflexivity|].
  apply firstn_map.
Qed.

(** *** What a page holds *)

Lemma map_rows_Forall2 rows cs :
  map_rows JSON_parse rows = Ret cs ->
  Forall2 (fun r c => toStoredCheckin JSON_parse r = Ret c) rows cs.
Proof.
  revert cs. induction rows as [|r rest IH]; simpl; intros cs H.
  - injection H as <-. constructor.
  - destruct (toStoredCheckin JSON_parse r) as [c|] eqn:E; [|discriminate H].
    simpl in H.
    destruct (map_rows JSON_parse rest) as [cs'|]; [|discriminate H].
    simpl in H. injection H as <-. constructor; [exact E|]. apply IH.
    reflexivity.
Qed.

Lemma sorted_split {A} (R : A -> A -> Prop) n l :
  StronglySorted R l ->
  Forall (fun x => Forall (R x) (skipn n l)) (firstn n l).
Proof.
  intros H. revert n. induction H as [|x rest Hs IH Hx]; intros [|n];
    cbn [firstn skipn]; try constructor.
  - apply List.Forall_forall. intros y Hy. apply SortFacts.skipn_In in Hy.
    exact (proj1 (List.Forall_forall _ _) Hx y Hy).
  - apply IH.
Qed.

(** The rows of a page: the newest rows of the selection, as many as the
    limit lets through, each converted to its record. *)
Lemma page_rows selection n :
  exists cs rows rest,
    map_rows JSON_parse (sql_limit n (order_by_createdAt_desc selection))
    = Ret cs
    /\ Forall2 (fun r c => toStoredCheckin JSON_parse r = Ret c) rows cs
    /\ newest_of rows rest selection
    /\ List.length rows = limited n (List.length selection).
Proof.
  destruct (map_rows_total (sql_limit n (order_by_createdAt_desc selection)))
    as (cs & Hcs & _).
  exists cs, (sql_limit n (order_by_createdAt_desc selection)),
    (if n <? 0 then [] else skipn (Z.to_nat n) (order_by_createdAt_desc selection)).
  split; [exact Hcs|]. split; [apply map_rows_Forall2; exact Hcs|].
  pose proof (SortFacts.order_sorted selection) as Hs.
  pose proof (SortFacts.order_perm selection) as Hp.
  unfold newest_of, limited, sql_limit. destruct (n <? 0).
  - rewrite app_nil_r. split; [|apply Permutation_length; exact Hp].
    split; [exact Hp|]. split; [exact Hs|].
    apply List.Forall_forall. intros x _. constructor.
  - rewrite firstn_skipn. split.
    + split; [exact Hp|]. split.
      * apply SortFacts.sorted_firstn. exact Hs.
      * apply (sorted_split _ _ _ Hs).
    + rewrite length_firstn, (Permutation_length Hp). reflexivity.
Qed.

Lemma filter_filter {A} (p q : A -> bool) l :
  List.filter p (List.filter q l) = List.filter (fun x => q x && p x) l.
Proof.
  induction l as [|x l IH]; simpl; [reflexivity|].
  destruct (q x); simpl; [destruct (p x)|]; rewrite IH; reflexivity.
Qed.

Lemma filter_true {A} (l : list A) : List.filter (fun _ => true) l = l.
Proof. induction l as [|x l IH]; simpl; [reflexivity|]. rewrite IH. reflexivity. Qed.

Lemma author_selection table author cursor :
  (if given cursor
   then List.filter (fun r => sql_lt (row_createdAt r) (default "" cursor))
          (List.filter (fun r => sql_eq (row_authorDid r) author) table)
   else List.filter (fun r => sql_eq (row_authorDid r) author) table)
  = List.filter (selects (Some author) cursor) table.
Proof.
  unfold selects. destruct (given cursor).
  - apply filter_filter.
  - apply List.filter_ext. intros r. rewrite andb_true_r. reflexivity.
Qed.

Lemma global_selection table cursor :
  (if given cursor
   then List.filter (fun r => sql_lt (row_createdAt r) (default "" cursor))
          table
   else table)
  = List.filter (selects None cursor) table.
Proof.
  unfold selects. destruct (given cursor); cbn [andb]; [reflexivity|].
  symmetry. apply filter_true.
Qed.

Lemma newest_of_rev rows rest selection :
  newest_of rows rest (rev selection) -> newest_of rows rest selection.
Proof.
  unfold newest_of. intros (Hp & Hs & Ht). split; [|split; assumption].
  rewrite Hp. symmetry. apply Permutation_rev.
Qed.

Lemma record_of_row rows cs r :
  Forall2 (fun r c => toStoredCheckin JSON_parse r = Ret c) rows cs ->
  In r rows ->
  exists c, In c cs /\ toStoredCheckin JSON_parse r = Ret c.
Proof.
  induction 1 as [|x c rows cs Hx _ IH]; intros Hin; [contradiction|].
  destruct Hin as [->|Hin].
  - exists c. split; [left; reflexivity|exact Hx].
  - destruct (IH Hin) as (c' & Hc' & Hr). exists c'.
    split; [right; exact Hc'|exact Hr].
Qed.

Lemma corrupt_conversion r json e :
  row_locations r = SText json ->
  JSON_parse json = Throw e ->
  toStoredCheckin JSON_parse r = Ret (without_locations r).
Proof.
  intros Hl Hp. unfold toStoredCheckin, without_locations. cbn [cell].
  rewrite Hl. cbn [cell_truthy String_of].
  destruct (negb (json =? "")%string); [rewrite Hp|]; reflexivity.
Qed.

(** C6. A row whose [locations] cell holds text that is not JSON is
    converted without failure, to the record with [locations] absent and
    every other field as the row has it. [getCheckinByUri] returns the
    record of the first row with the address asked for, so that record
    when the row is corrupt. A feed query whose limit the statement
    accepts returns the records of the newest rows of its selection, as
    many as the limit lets through, and among them, for each corrupt row,
    that record. And each of the three reads does on the table what it
    does on the table in which the corrupt cells are NULL: nothing else
    in the affected record, and no other row, is touched. *)
Theorem malformed_locations_tolerated table :
  (forall r json e,
     row_locations r = SText json ->
     JSON_parse json = Throw e ->
     toStoredCheckin JSON_parse r = Ret (without_locations r))
  /\ (forall uri,
        (exists c, getCheckinByUri JSON_parse table uri = Ret c)
        /\ getCheckinByUri JSON_parse table uri
           = getCheckinByUri JSON_parse
               (map (without_corrupt_locations JSON_parse) table) uri
        /\ (forall before r after json e,
              table = (before ++ r :: after)%list ->
              (forall x, In x before -> sql_eq (row_uri x) uri = false) ->
              sql_eq (row_uri r) uri = true ->
              row_locations r = SText json ->
              JSON_parse json = Throw e ->
              getCheckinByUri JSON_parse table uri
              = Ret (Some (without_locations r))))
  /\ (forall author limit cursor,
        getCheckinsByAuthor JSON_parse table author limit cursor
        = getCheckinsByAuthor JSON_parse
            (map (without_corrupt_locations JSON_parse) table)
            author limit cursor
        /\ (limit_in_range (default 50 limit) = true ->
            exists cs rows rest,
              getCheckinsByAuthor JSON_parse table author limit cursor = Ret cs
              /\ Forall2 (fun r c => toStoredCheckin JSON_parse r = Ret c)
                   rows cs
              /\ newest_of rows rest
                   (List.filter (selects (Some author) cursor) table)
              /\ List.length rows
                 = limited (default 50 limit)
                     (List.length
                        (List.filter (selects (Some author) cursor) table))
              /\ forall r json e,
                   In r rows ->
                   row_locations r = SText json ->
                   JSON_parse json = Throw e ->
                   In (without_locations r) cs))
  /\ (forall limit cursor,
        getGlobalFeed JSON_parse table limit cursor
        = getGlobalFeed JSON_parse
            (map (without_corrupt_locations JSON_parse) table) limit cursor
        /\ (limit_in_range (Z.min (default 50 limit) 100) = true ->
            exists cs rows rest,
              getGlobalFeed JSON_parse table limit cursor = Ret cs
              /\ Forall2 (fun r c => toStoredCheckin JSON_parse r = Ret c)
                   rows cs
              /\ newest_of rows rest (List.filter (selects None cursor) table)
              /\ List.length rows
                 = limited (Z.min (default 50 limit) 100)
                     (List.length (List.filter (selects None cursor) table))
              /\ forall r json e,
                   In r rows ->
                   row_locations r = SText json ->
                   JSON_parse json = Throw e ->
                   In (without_locations r) cs)).
Proof.
  assert (Hin : forall rows cs,
            Forall2 (fun r c => toStoredCheckin JSON_parse r = Ret c) rows cs ->
            forall r json e,
              In r rows -> row_locations r = SText json ->
              JSON_parse json = Throw e -> In (without_locations r) cs).
  { intros rows cs HF r json e Hr Hl Hp.
    destruct (record_of_row rows cs r HF Hr) as (c & Hc & Hconv).
    rewrite (corrupt_conversion r json e Hl Hp) in Hconv.
    injection Hconv as <-. exact Hc. }
  split; [exact corrupt_conversion|]. split; [|split].
  - intros uri. unfold getCheckinByUri. split; [|split].
    + destruct (List.filter _ table) as [|r rest]; [eexists; reflexivity|].
      destruct (toStoredCheckin_total r) as [c ->]. eexists. reflexivity.
    + rewrite filter_map_scrub
        by (intros r; destruct (scrub_keeps r) as (-> & _ & _); reflexivity).
      destruct (List.filter _ table) as [|r rest]; [reflexivity|].
      cbn [map]. rewrite toStoredCheckin_scrub. reflexivity.
    + intros before r after json e -> Hfree Hr Hl Hp.
      rewrite List.filter_app. cbn [List.filter]. rewrite Hr.
      replace (List.filter (fun r0 => sql_eq (row_uri r0) uri) before)
        with (@nil row).
      * cbn [app]. rewrite (corrupt_conversion r json e Hl Hp). reflexivity.
      * symmetry. clear -Hfree.
        induction before as [|x l IH]; [reflexivity|]. cbn [List.filter].
        rewrite (Hfree x) by (left; reflexivity). apply IH.
        intros y Hy. apply Hfree. right. exact Hy.
  - intros author limit cursor. unfold getCheckinsByAuthor. split.
    + destruct (limit_in_range _); [|reflexivity].
      rewrite (filter_map_scrub (fun r => sql_eq (row_authorDid r) author))
        by (intros r; destruct (scrub_keeps r) as (_ & -> & _); reflexivity).
      destruct (given cursor).
      * rewrite filter_map_scrub
          by (intros r; destruct (scrub_keeps r) as (_ & _ & ->); reflexivity).
        rewrite order_by_scrub, sql_limit_scrub, map_rows_scrub. reflexivity.
      * rewrite order_by_scrub, sql_limit_scrub, map_rows_scrub. reflexivity.
    + intros ->. rewrite author_selection.
      destruct (page_rows (List.filter (selects (Some author) cursor) table)
                  (default 50 limit))
        as (cs & rows & rest & Hcs & HF & Hnew & Hlen).
      exists cs, rows, rest. split; [exact Hcs|]. split; [exact HF|].
      split; [exact Hnew|]. split; [exact Hlen|]. exact (Hin rows cs HF).
  - intros limit cursor. unfold getGlobalFeed. split.
    + destruct (limit_in_range _); [|reflexivity].
      destruct (given cursor).
      * rewrite filter_map_scrub
          by (intros r; destruct (scrub_keeps r) as (_ & _ & ->); reflexivity).
        rewrite <- map_rev, order_by_scrub, sql_limit_scrub, map_rows_scrub.
        reflexivity.
      * rewrite <- map_rev, order_by_scrub, sql_limit_scrub, map_rows_scrub.
        reflexivity.
    + intros ->. rewrite global_selection.
      destruct (page_rows (rev (List.filter (selects None cursor) table))
                  (Z.min (default 50 limit) 100))
        as (cs & rows & rest & Hcs & HF & Hnew & Hlen).
      exists cs, rows, rest. split; [exact Hcs|]. split; [exact HF|].
      split; [apply newest_of_rev; exact Hnew|].
      split; [rewrite Hlen, length_rev; reflexivity|]. exact (Hin rows cs HF).
Qed.

End Store.

Lemma malformed_locations_tolerated_witness :
  Host.JSON_parse "[{ $type: community.lexicon.loc" = Throw SyntaxError
  /\ getCheckinByUri Host.JSON_parse
       [Examples.checkin_row 1; Examples.corrupt_row]
       "at://did:plc:alice/app.dropanchor.checkin/rkey-x"
     = Ret (Some {| type := "app.dropanchor.checkin";
                    id := "rkey-x";
                    authorDid := "did:plc:alice";
                    text := "Coffee";
                    createdAt := "2025-06-15T13:00:00Z";
                    locations := None;
                    category := Some "cafe";
                    categoryGroup := None;
                    categoryIcon := None;
                    uri := "at://did:plc:alice/app.dropanchor.checkin/rkey-x";
                    cid := None |}).
Proof.
  split; [reflexivity|].
  refine (proj2 (proj2 (proj1 (proj2 (malformed_locations_tolerated
                                        Host.JSON_parse
                                        [Examples.checkin_row 1;
                                         Examples.corrupt_row]))
                          "at://did:plc:alice/app.dropanchor.checkin/rkey-x"))
            [Examples.checkin_row 1] Examples.corrupt_row [] _ SyntaxError
            eq_refl _ eq_refl eq_refl eq_refl).
  intros x [<-|[]]. reflexivity.
Defined.

(** C1 fails for a negative limit. [Math.min(-1, 100)] is [-1], and SQLite
    puts no bound on the rows of a query with a negative LIMIT: on a table
    of 101 check-ins [getGlobalFeed(-1)] returns all 101. *)
Theorem getGlobalFeed_negative_limit_unbounded :
  exists checkins,
    getGlobalFeed Host.JSON_parse Examples.table_101 (Some (-1)) None
    = Ret checkins
    /\ List.length checkins = 101%nat.
Proof.
  destruct (map_rows_total Host.JSON_parse
              (sql_limit (-1)
                 (order_by_createdAt_desc (rev Examples.table_101))))
    as (cs & Hcs & Hlen).
  exists cs. split; [exact Hcs|]. rewrite Hlen. vm_compute. reflexivity.
Qed.

End Store.

(** ** The identity cache *)

Module Cache.
Import Auth.

Section Cache.

Variable network : string -> string -> Z -> response * N.

(** A resolution that succeeds has sent a request and has stored its
    result with an expiry of one hour from the time of storing. *)
Lemma tryHosts_some hosts token w ctx w' :
  tryHosts network hosts token w = (Some ctx, w') ->
  didCache w' !! token
  = Some {| cached_did := did ctx; cached_handle := handle ctx;
            expires := clock w' + CACHE_TTL |}
  /\ exists sent, sent <> [] /\ requests w' = (requests w ++ sent)%list.
Proof.
  revert w. induction hosts as [|h rest IH]; intros w; simpl; [discriminate|].
  unfold fetch. destruct (network (getSession_url h) token (clock w)) as [r d].
  destruct r as [| | |session].
  1-3: intros H; apply IH in H as (Hc & sent & _ & Hs); split; [exact Hc|];
       cbn [requests] in Hs; rewrite <- app_assoc in Hs;
       eexists; split; [|exact Hs]; discriminate.
  intros [= <- <-]. cbn [didCache clock requests did handle]. split.
  - apply lookup_insert_eq.
  - eexists. split; [|reflexivity]. discriminate.
Qed.

(** A resolution that fails leaves the cache as it was, after one request
    to every host in turn. *)
Lemma tryHosts_none hosts token w w' :
  tryHosts network hosts token w = (None, w') ->
  didCache w' = didCache w
  /\ clock w <= clock w'
  /\ requests w'
     = (requests w ++ map (fun h => (getSession_url h, token)) hosts)%list.
Proof.
  revert w. induction hosts as [|h rest IH]; intros w; simpl.
  - intros [= <-]. rewrite app_nil_r. repeat split; lia.
  - unfold fetch. destruct (network (getSession_url h) token (clock w)) as [r d].
    destruct r as [| | |session]; [| | |discriminate].
    all: intros H; apply IH in H as (Hc & Ht & Hs);
         cbn [didCache clock requests] in *;
         rewrite <- app_assoc in Hs; repeat split; try assumption; lia.
Qed.

(** The first thing a resolution does is to ask the first host. *)
Lemma tryHosts_asks h rest token w :
  exists later,
    requests (snd (tryHosts network (h :: rest) token w))
    = (requests w ++ (getSession_url h, token) :: later)%list.
Proof.
  simpl. unfold fetch.
  destruct (network (getSession_url h) token (clock w)) as [r d].
  destruct r as [| | |session].
  4: { exists []. reflexivity. }
  all: match goal with
       | |- context [tryHosts network ?hs ?t ?w1] =>
           destruct (tryHosts network hs t w1) as [[ctx|] w2] eqn:E
       end;
       [apply tryHosts_some in E as (_ & sent & _ & Hs)
       |apply tryHosts_none in E as (_ & _ & Hs)];
       cbn [requests snd] in *; rewrite <- app_assoc in Hs;
       eexists; exact Hs.
Qed.

(** A call that returns [null] has written nothing to the cache. *)
Lemma validateToken_none token w w' :
  validateToken network token w = (None, w') -> didCache w' = didCache w.
Proof.
  unfold validateToken.
  destruct (didCache w !! token) as [entry|].
  - destruct (expires entry >? clock w); [discriminate|].
    intros H. apply tryHosts_none in H as [H _]. exact H.
  - intros H. apply tryHosts_none in H as [H _]. exact H.
Qed.

Lemma validateToken_no_usable_entry token w :
  no_usable_entry token w ->
  validateToken network token w = tryHosts network commonPDSHosts token w.
Proof.
  unfold no_usable_entry, validateToken.
  destruct (didCache w !! token) as [entry|]; [|reflexivity].
  intros H. destruct (expires entry >? clock w) eqn:E; [|reflexivity].
  apply Z.gtb_lt in E. lia.
Qed.


(** C7. When the cache holds nothing usable for the token and both hosts
    refuse or fail, the call returns [null] after asking each host once
    and leaves the cache as it was: no entry is written. A later call with
    the same token, the cache being still the same, asks the first host
    again. In any state at all, a call that returns [null] leaves the
    cache as it was. *)
Theorem rejection_not_cached token w r1 d1 r2 d2 :
  no_usable_entry token w ->
  network (getSession_url "https://bsky.social") token (clock w) = (r1, d1) ->
  rejects r1 ->
  network (getSession_url "https://staging.bsky.dev") token
    (clock w + Z.of_N d1) = (r2, d2) ->
  rejects r2 ->
  (exists w',
    validateToken network token w = (None, w')
    /\ didCache w' = didCache w
    /\ requests w'
       = (requests w
          ++ [(getSession_url "https://bsky.social", token);
              (getSession_url "https://staging.bsky.dev", token)])%list
    /\ forall w2,
         didCache w2 = didCache w' ->
         clock w <= clock w2 ->
         exists later,
           requests (snd (validateToken network token w2))
           = (requests w2
              ++ (getSession_url "https://bsky.social", token) :: later)%list)
  /\ forall w0 w0',
       validateToken network token w0 = (None, w0') ->
       didCache w0' = didCache w0.
Proof.
  intros Hn H1 Hr1 H2 Hr2.
  split; [|intros w0 w0'; apply validateToken_none].
  rewrite (validateToken_no_usable_entry _ _ Hn).
  destruct (tryHosts network commonPDSHosts token w) as [[ctx|] w'] eqn:E.
  { exfalso. revert E. unfold commonPDSHosts. cbn [tryHosts]. unfold fetch.
    rewrite H1. destruct r1; try contradiction; cbn [clock];
      rewrite H2; destruct r2; try contradiction; discriminate. }
  exists w'. split; [reflexivity|].
  apply tryHosts_none in E as (Hc & Ht & Hs).
  split; [exact Hc|]. split; [exact Hs|].
  intros w2 Hc2 Ht2.
  assert (Hn2 : no_usable_entry token w2).
  { unfold no_usable_entry in *. rewrite Hc2, Hc.
    destruct (didCache w !! token); [lia|exact I]. }
  rewrite (validateToken_no_usable_entry _ _ Hn2).
  apply tryHosts_asks.
Qed.

End Cache.


Lemma rejection_not_cached_witness :
  exists w',
    validateToken Examples.network "bad" Examples.fresh_world = (None, w')
    /\ didCache w' = didCache Examples.fresh_world.
Proof.
  destruct (rejection_not_cached Examples.network "bad" Examples.fresh_world
              NotOk 120%N NotOk 120%N)
    as [(w' & H1 & H2 & _) _]; try reflexivity; try exact I.
  exists w'. split; assumption.
Defined.

End Cache.

(** ** Protocol addresses *)

Module UriFacts.
Import Utils.

Lemma append_slash_inj a a' x x' :
  no_slash a = true -> no_slash a' = true ->
  a ++ String "/" x = a' ++ String "/" x' -> a = a' /\ x = x'.
Proof.
  revert a'. induction a as [|c a IH]; intros [|c' a']; simpl.
  - intros _ _ [= ->]. split; reflexivity.
  - intros _ H [= <- _]. discriminate H.
  - intros H _ [= -> _]. discriminate H.
  - intros H H' [= -> E].
    apply andb_true_iff in H as [_ H], H' as [_ H'].
    destruct (IH a' H H' E) as [-> ->]. split; reflexivity.
Qed.

(** X1. [createAtUri] gives different addresses to different owners, collections
    or record keys, as long as the owner identifier and the collection
    name hold no slash. *)
Theorem createAtUri_injective did collection rkey did' collection' rkey' :
  no_slash did = true -> no_slash did' = true ->
  no_slash collection = true -> no_slash collection' = true ->
  createAtUri did collection rkey = createAtUri did' collection' rkey' ->
  did = did' /\ collection = collection' /\ rkey = rkey'.
Proof.
  unfold createAtUri. intros Hd Hd' Hc Hc' E.
  cbn [String.append] in E. injection E as E.
  apply append_slash_inj in E as [-> E]; try assumption.
  apply append_slash_inj in E as [-> ->]; try assumption.
  repeat split.
Qed.

Lemma createAtUri_injective_witness :
  createAtUri "did:plc:alice" "app.dropanchor.checkin" "k1"
  = "at://did:plc:alice/app.dropanchor.checkin/k1"
  /\ no_slash "did:plc:alice" = true
  /\ no_slash "app.dropanchor.checkin" = true
  /\ ("did:plc:alice" = "did:plc:alice"
      /\ "app.dropanchor.checkin" = "app.dropanchor.checkin" /\ "k1" = "k1").
Proof.
  split; [reflexivity|]. split; [reflexivity|]. split; [reflexivity|].
  apply (createAtUri_injective "did:plc:alice" "app.dropanchor.checkin" "k1"
           "did:plc:alice" "app.dropanchor.checkin" "k1");
    reflexivity.
Defined.

End UriFacts.

(** ** Writing and reading back *)

Module WriteFacts.
Import JS Queries Writes.

Lemma existsb_false_forall {A} (p : A -> bool) l :
  existsb p l = false -> forall x, In x l -> p x = false.
Proof.
  induction l as [|y l IH]; simpl; [contradiction|].
  intros H x [<-|Hin]; apply orb_false_iff in H as [H1 H2]; auto.
Qed.

Lemma filter_none {A} (p : A -> bool) l :
  (forall x, In x l -> p x = false) -> List.filter p l = [].
Proof.
  induction l as [|y l IH]; simpl; [reflexivity|].
  intros H. rewrite (H y) by (left; reflexivity). apply IH.
  intros x Hx. apply H. right. exact Hx.
Qed.

Section WriteFacts.

Variable JSON_parse : string -> completion value.
Variable JSON_stringify : value -> string.

Lemma inserted_row_conversion rkey author record uri cid :
  (forall items,
     Utils.locations record = Some items ->
     JSON_stringify (Array items) <> ""
     /\ JSON_parse (JSON_stringify (Array items)) = Ret (Array items)) ->
  toStoredCheckin JSON_parse
    (inserted_row JSON_stringify rkey author record uri cid)
  = Ret {| type := "app.dropanchor.checkin";
           id := rkey;
           authorDid := author;
           text := Utils.text record;
           createdAt := Utils.createdAt record;
           locations := option_map Array (Utils.locations record);
           category := read_back (Utils.category record);
           categoryGroup := read_back (Utils.categoryGroup record);
           categoryIcon := read_back (Utils.categoryIcon record);
           uri := uri;
           cid := read_back (Some cid) |}.
Proof.
  intros Hjson. unfold toStoredCheckin, inserted_row.
  cbn [cell row_id row_authorDid row_text row_createdAt row_locations
       row_category row_categoryGroup row_categoryIcon row_uri row_cid].
  assert (Hopt : forall o,
            (if cell_truthy (or_null o) then Some (String_of (or_null o)) else None)
            = read_back o).
  { intros [s|]; [|reflexivity]. unfold or_null, read_back.
    destruct (s =? "")%string eqn:E; [reflexivity|].
    cbn [cell_truthy String_of]. rewrite E. reflexivity. }
  rewrite !Hopt.
  assert (Hcid : (if cell_truthy (SText cid) then Some (String_of (SText cid)) else None)
                 = read_back (Some cid)).
  { unfold read_back. cbn [cell_truthy String_of].
    destruct (cid =? "")%string; reflexivity. }
  rewrite Hcid.
  destruct (Utils.locations record) as [items|] eqn:El; [|reflexivity].
  destruct (Hjson items eq_refl) as [Hne Hrt].
  cbn [cell_truthy String_of].
  destruct (JSON_stringify (Array items) =? "")%string eqn:E.
  { apply String.eqb_eq in E. contradiction. }
  cbn [negb]. rewrite Hrt. reflexivity.
Qed.

Lemma lookup_last_row table new uri :
  (forall r, In r table -> sql_eq (row_uri r) uri = false) ->
  row_uri new = SText uri ->
  getCheckinByUri JSON_parse (table ++ [new]) uri
  = (do c <- toStoredCheckin JSON_parse new; Ret (Some c)).
Proof.
  intros Hfree Hu. unfold getCheckinByUri.
  rewrite List.filter_app, (filter_none _ _ Hfree).
  cbn [List.filter app]. rewrite Hu. cbn [sql_eq]. rewrite String.eqb_refl.
  reflexivity.
Qed.

Lemma createCheckinRecord_inserted table rkey author record uri cid table' :
  createCheckinRecord JSON_stringify table rkey author record uri cid
  = Inserted table' ->
  table' = (table ++ [inserted_row JSON_stringify rkey author record uri cid])%list.
Proof.
  unfold createCheckinRecord.
  destruct (existsb _ table); [discriminate|]. intros [= <-]. reflexivity.
Qed.

(** X2. A check-in that has been written is read back under its address with
    the fields it was written with: the locations as stored, as long as
    [JSON.parse] undoes [JSON.stringify] on them, and an empty category
    field or content identifier as absent. *)
Theorem create_then_get table rkey author record uri cid table' :
  createCheckinRecord JSON_stringify table rkey author record uri cid
  = Inserted table' ->
  (forall r, In r table -> sql_eq (row_uri r) uri = false) ->
  (forall items,
     Utils.locations record = Some items ->
     JSON_stringify (Array items) <> ""
     /\ JSON_parse (JSON_stringify (Array items)) = Ret (Array items)) ->
  getCheckinByUri JSON_parse table' uri
  = Ret (Some {| type := "app.dropanchor.checkin";
                 id := rkey;
                 authorDid := author;
                 text := Utils.text record;
                 createdAt := Utils.createdAt record;
                 locations := option_map Array (Utils.locations record);
                 category := read_back (Utils.category record);
                 categoryGroup := read_back (Utils.categoryGroup record);
                 categoryIcon := read_back (Utils.categoryIcon record);
                 uri := uri;
                 cid := read_back (Some cid) |}).
Proof.
  intros H Hfree Hjson.
  rewrite (createCheckinRecord_inserted _ _ _ _ _ _ _ H).
  rewrite lookup_last_row by (exact Hfree || reflexivity).
  rewrite (inserted_row_conversion _ _ _ _ _ Hjson). reflexivity.
Qed.

(** X3. Writing a check-in changes no answer the store already gives: a record
    found under an address is still the one found there, and the feed of
    every other author is what it was. *)
Theorem create_keeps_records table rkey author record uri cid table' :
  createCheckinRecord JSON_stringify table rkey author record uri cid
  = Inserted table' ->
  (forall uri' c,
     getCheckinByUri JSON_parse table uri' = Ret (Some c) ->
     getCheckinByUri JSON_parse table' uri' = Ret (Some c))
  /\ (forall author' limit cursor,
        author' <> author ->
        getCheckinsByAuthor JSON_parse table' author' limit cursor
        = getCheckinsByAuthor JSON_parse table author' limit cursor).
Proof.
  unfold createCheckinRecord. intros H.
  destruct (existsb _ table); [discriminate H|]. injection H as <-. split.
  - intros uri' c. unfold getCheckinByUri. rewrite List.filter_app.
    destruct (List.filter _ table) as [|r rest]; [discriminate|].
    intros Hc. exact Hc.
  - intros author' limit cursor Hne. unfold getCheckinsByAuthor.
    rewrite (List.filter_app _ table).
    cbn [List.filter row_authorDid sql_eq].
    destruct (author =? author')%string eqn:E.
    { apply String.eqb_eq in E. congruence. }
    rewrite app_nil_r. reflexivity.
Qed.

(** X4. The key is the primary key of the whole table. An insert fails exactly
    when some row, of whatever author, has the key already; then nothing
    is written. An insert that succeeds keeps the keys distinct and the
    NOT NULL columns filled. *)
Theorem create_keeps_keys_unique table rkey author record uri cid :
  (createCheckinRecord JSON_stringify table rkey author record uri cid
   = ConstraintFailed
   <-> exists r, In r table /\ row_id r = SText rkey)
  /\ forall table',
       createCheckinRecord JSON_stringify table rkey author record uri cid
       = Inserted table' ->
       (keys_unique table -> keys_unique table')
       /\ (Forall not_null table -> Forall not_null table')
       /\ List.length table' = S (List.length table).
Proof.
  unfold createCheckinRecord. split.
  - destruct (existsb _ table) eqn:E.
    + split; [intros _|reflexivity].
      apply existsb_exists in E as (r & Hin & Hr). exists r. split; [exact Hin|].
      destruct (row_id r) as [|s]; [discriminate Hr|].
      apply String.eqb_eq in Hr. congruence.
    + split; [discriminate|]. intros (r & Hin & Hr).
      pose proof (existsb_false_forall _ _ E r Hin) as Hf.
      cbv beta in Hf. rewrite Hr in Hf. cbn in Hf.
      rewrite String.eqb_refl in Hf. discriminate Hf.
  - intros table'. destruct (existsb _ table) eqn:E; [discriminate|].
    intros [= <-]. split; [|split].
    + unfold keys_unique. rewrite map_app. cbn [map row_id]. intros Hu.
      apply NoDup_app. split; [exact Hu|]. split; [|apply NoDup_singleton].
      intros k Hk Hin. apply list_elem_of_In in Hk, Hin.
      destruct Hin as [<-|[]]. apply in_map_iff in Hk as (r & Hr & Hin).
      pose proof (existsb_false_forall _ _ E r Hin) as Hf.
      cbv beta in Hf. rewrite Hr in Hf. cbn in Hf.
      rewrite String.eqb_refl in Hf. discriminate Hf.
    + intros Hn. apply Forall_app. split; [exact Hn|].
      constructor; [|constructor]. unfold not_null.
      cbn [row_authorDid row_text row_createdAt row_uri].
      repeat split; eexists; reflexivity.
    + rewrite length_app. simpl. lia.
Qed.

End WriteFacts.

Lemma create_then_get_witness :
  exists table',
    createCheckinRecord SampleJSON.stringify Examples.table_101
      "rkey-coffee" "did:plc:bob" Scenarios.coffee Scenarios.coffee_uri
      "bafabc"
    = Inserted table'
    /\ getCheckinByUri SampleJSON.parse table' Scenarios.coffee_uri
       = Ret (Some {| type := "app.dropanchor.checkin";
                      id := "rkey-coffee";
                      authorDid := "did:plc:bob";
                      text := "Coffee at Central Perk";
                      createdAt := "2025-06-15T13:00:00Z";
                      locations := option_map Array
                                     (Utils.locations Scenarios.coffee);
                      category := Some "cafe";
                      categoryGroup := None;
                      categoryIcon := None;
                      uri := "at://did:plc:bob/app.dropanchor.checkin/rkey-coffee";
                      cid := Some "bafabc" |}).
Proof.
  eexists. split; [vm_compute; reflexivity|].
  apply (create_then_get SampleJSON.parse SampleJSON.stringify
           Examples.table_101 "rkey-coffee" "did:plc:bob" Scenarios.coffee
           Scenarios.coffee_uri "bafabc").
  - vm_compute. reflexivity.
  - intros r Hr.
    pose proof (proj1 (forallb_forall
      (fun r => negb (sql_eq (row_uri r) Scenarios.coffee_uri))
      Examples.table_101) ltac:(vm_compute; reflexivity) r Hr) as H.
    apply negb_true_iff in H. exact H.
  - intros items [= <-]. split; [vm_compute; discriminate|].
    vm_compute. reflexivity.
Defined.

Lemma create_keeps_records_witness :
  exists table',
    createCheckinRecord SampleJSON.stringify Examples.table_101
      "rkey-coffee" "did:plc:bob" Scenarios.coffee Scenarios.coffee_uri
      "bafabc"
    = Inserted table'
    /\ getCheckinsByAuthor SampleJSON.parse table' "did:plc:alice" (Some 3) None
       = getCheckinsByAuthor SampleJSON.parse Examples.table_101
           "did:plc:alice" (Some 3) None.
Proof.
  eexists. split; [vm_compute; reflexivity|].
  apply (proj2 (create_keeps_records SampleJSON.parse SampleJSON.stringify
                  Examples.table_101 "rkey-coffee" "did:plc:bob"
                  Scenarios.coffee Scenarios.coffee_uri "bafabc" _
                  ltac:(vm_compute; reflexivity))).
  discriminate.
Defined.

Lemma create_keeps_keys_unique_witness :
  createCheckinRecord SampleJSON.stringify Examples.table_101
    "rkey-007" "did:plc:bob" Scenarios.coffee Scenarios.coffee_uri "bafabc"
  = ConstraintFailed.
Proof.
  apply (proj1 (create_keeps_keys_unique SampleJSON.stringify
                  Examples.table_101 "rkey-007" "did:plc:bob"
                  Scenarios.coffee Scenarios.coffee_uri "bafabc")).
  exists (Examples.checkin_row 7). split; [|reflexivity].
  apply in_map. apply in_seq. lia.
Defined.

End WriteFacts.

(** ** User settings *)

Module SettingsFacts.
Import Settings.

Lemma Boolean_of_bool b : Boolean (of_bool b) = b.
Proof. destruct b; reflexivity. Qed.

(** X5. A setting that has been written reads back as written, whatever the
    table held for that user; every other user reads what they read
    before; and a user the table has no row for reads [true]. *)
Theorem update_then_get (table : gmap string cell) did did' s :
  getUserSettings (updateUserSettings table did s) did'
  = (if decide (did = did') then s else getUserSettings table did')
  /\ (table !! did' = None ->
      getUserSettings table did' = {| enableFeedPosts := true |})
  /\ updateUserSettings (updateUserSettings table did s) did s
     = updateUserSettings table did s.
Proof.
  unfold getUserSettings, updateUserSettings. split; [|split].
  - rewrite lookup_insert. destruct (decide (did = did')); [|reflexivity].
    rewrite Boolean_of_bool. destruct s; reflexivity.
  - intros ->. reflexivity.
  - apply insert_insert_eq.
Qed.

End SettingsFacts.

Module FeedQueries.
Import JS Queries Writes Feed FeedFacts SortFacts.

Section FeedQueries.

Variable JSON_parse : string -> completion value.

Lemma toStoredCheckin_fields r c :
  toStoredCheckin JSON_parse r = Ret c ->
  id c = String_of (row_id r) /\ authorDid c = String_of (row_authorDid r)
  /\ createdAt c = String_of (row_createdAt r) /\ uri c = String_of (row_uri r).
Proof.
  unfold toStoredCheckin. intros H.
  destruct (cell_truthy (cell r 4)).
  - destruct (JSON_parse (String_of (cell r 4))); simpl in H;
      injection H as <-; repeat split; reflexivity.
  - simpl in H. injection H as <-. repeat split; reflexivity.
Qed.

Lemma map_rows_each rows cs :
  map_rows JSON_parse rows = Ret cs <->
  Forall2 (fun r c => toStoredCheckin JSON_parse r = Ret c) rows cs.
Proof.
  split.
  - revert cs. induction rows as [|r rest IH]; simpl; intros cs H.
    + injection H as <-. constructor.
    + destruct (toStoredCheckin JSON_parse r) as [c|] eqn:E; [|discriminate H].
      simpl in H.
      destruct (map_rows JSON_parse rest) as [cs'|]; [|discriminate H].
      simpl in H. injection H as <-. constructor; [exact E|]. apply IH.
      reflexivity.
  - induction 1 as [|r c rest cs Hc _ IH]; simpl; [reflexivity|].
    rewrite Hc. simpl. rewrite IH. reflexivity.
Qed.

Lemma records_of_rows (Q : row -> Prop) rows cs :
  Forall2 (fun r c => toStoredCheckin JSON_parse r = Ret c) rows cs ->
  Forall Q rows ->
  Forall (fun c => exists r, Q r /\ toStoredCheckin JSON_parse r = Ret c) cs.
Proof.
  induction 1 as [|r c rest cs Hc _ IH]; intros HQ; [constructor|].
  inversion HQ; subst. constructor; [|apply IH; assumption].
  exists r. split; assumption.
Qed.

Lemma records_sorted rows cs :
  Forall2 (fun r c => toStoredCheckin JSON_parse r = Ret c) rows cs ->
  Forall not_null rows -> StronglySorted newer rows -> newest_first cs.
Proof.
  unfold newest_first.
  induction 1 as [|r c rest cs Hc Hrest IH]; intros Hn Hs; [constructor|].
  inversion Hn as [|? ? Hr Hn']; subst. inversion Hs as [|? ? Hs' Hall]; subst.
  constructor; [apply IH; assumption|].
  assert (Hlift : Forall (fun q => not_null q /\ newer r q) rest).
  { apply List.Forall_forall. intros q Hq. split.
    - revert q Hq. apply List.Forall_forall. exact Hn'.
    - revert q Hq. apply List.Forall_forall. exact Hall. }
  eapply List.Forall_impl; [|apply (records_of_rows _ _ _ Hrest Hlift)].
  intros c' (q & [Hq Hnew] & Hc').
  apply toStoredCheckin_fields in Hc as (_ & _ & -> & _).
  apply toStoredCheckin_fields in Hc' as (_ & _ & -> & _).
  destruct Hr as (_ & _ & [t Ht] & _). destruct Hq as (_ & _ & [t' Ht'] & _).
  unfold newer in Hnew. rewrite Ht, Ht' in *. exact Hnew.
Qed.

Lemma Forall_order (Q : row -> Prop) n rows :
  Forall Q rows -> Forall Q (sql_limit n (order_by_createdAt_desc rows)).
Proof.
  intros H. apply List.Forall_forall. intros r Hr.
  apply sql_limit_In in Hr.
  apply (Permutation_in _ (order_perm rows)) in Hr.
  revert r Hr. apply List.Forall_forall. exact H.
Qed.

Lemma Forall_older (Q : row -> Prop) cursor rows :
  Forall Q rows ->
  Forall (fun r => Q r /\ (given cursor = true ->
                          sql_lt (row_createdAt r) (default "" cursor) = true))
    (if given cursor
     then List.filter (fun r => sql_lt (row_createdAt r) (default "" cursor)) rows
     else rows).
Proof.
  intros H. destruct (given cursor).
  - apply List.Forall_forall. intros r Hr. apply List.filter_In in Hr as [Hr Hlt].
    split; [|intros _; exact Hlt]. clear Hlt. revert r Hr.
    apply List.Forall_forall. exact H.
  - eapply List.Forall_impl; [|exact H]. intros r Hr. split; [exact Hr|discriminate].
Qed.

Lemma sql_eq_true c s : sql_eq c s = true -> c = SText s.
Proof.
  destruct c as [|t]; simpl; [discriminate|]. intros H.
  apply String.eqb_eq in H. congruence.
Qed.

Lemma page_contents (Q : row -> Prop) selected limit cursor :
  Forall Q selected ->
  exists cs,
    map_rows JSON_parse
      (sql_limit limit
         (order_by_createdAt_desc
            (if given cursor
             then List.filter
                    (fun r => sql_lt (row_createdAt r) (default "" cursor))
                    selected
             else selected))) = Ret cs
    /\ Forall (fun c => exists r, Q r /\ toStoredCheckin JSON_parse r = Ret c) cs
    /\ (given cursor = true ->
        Forall (fun c => String.ltb (createdAt c) (default "" cursor) = true) cs)
    /\ (0 <= limit -> (List.length cs <= Z.to_nat limit)%nat)
    /\ (Forall not_null selected -> newest_first cs).
Proof.
  intros HQ.
  set (chosen := if given cursor then _ else _).
  destruct (Store.map_rows_total JSON_parse
              (sql_limit limit (order_by_createdAt_desc chosen)))
    as (cs & Hcs & Hlen).
  exists cs. split; [exact Hcs|]. apply map_rows_each in Hcs.
  pose proof (Forall_order _ limit _ (Forall_older Q cursor selected HQ)) as Hall.
  fold chosen in Hall. pose proof (records_of_rows _ _ _ Hcs Hall) as Hrec.
  split; [|split; [|split]].
  - eapply List.Forall_impl; [|exact Hrec].
    intros c (r & [Hr _] & Hc). exists r. split; assumption.
  - intros Hg. eapply List.Forall_impl; [|exact Hrec].
    intros c (r & [_ Hlt] & Hc). specialize (Hlt Hg).
    apply toStoredCheckin_fields in Hc as (_ & _ & -> & _).
    destruct (row_createdAt r); [discriminate Hlt|exact Hlt].
  - intros Hl. rewrite Hlen. apply Store.sql_limit_length. exact Hl.
  - intros Hn. eapply records_sorted; [exact Hcs| |].
    + apply Forall_order. subst chosen. destruct (given cursor); [|exact Hn].
      apply List.Forall_forall. intros r Hr. apply List.filter_In in Hr as [Hr _].
      revert r Hr. apply List.Forall_forall. exact Hn.
    + apply sql_limit_sorted, order_sorted.
Qed.

Lemma author_feed_authors table author limit cursor cs :
  getCheckinsByAuthor JSON_parse table author limit cursor = Ret cs ->
  Forall (fun c => authorDid c = author) cs.
Proof.
  unfold getCheckinsByAuthor. intros H.
  destruct (limit_in_range _); [|discriminate H].
  destruct (page_contents
              (fun r => row_authorDid r = SText author)
              (List.filter (fun r => sql_eq (row_authorDid r) author) table)
              (default 50 limit) cursor) as (cs' & Hcs & Hrec & _).
  { apply List.Forall_forall. intros r Hr. apply List.filter_In in Hr as [_ He].
    apply sql_eq_true. exact He. }
  rewrite Hcs in H. injection H as <-.
  eapply List.Forall_impl; [|exact Hrec]. intros c (r & Ha & Hc).
  apply toStoredCheckin_fields in Hc as (_ & -> & _). rewrite Ha. reflexivity.
Qed.

Lemma rev_selection (b : bool) (p : row -> bool) table :
  rev (if b then List.filter p table else table)
  = if b then List.filter p (rev table) else rev table.
Proof. destruct b; [|reflexivity]. symmetry. apply List.filter_rev. Qed.

(** X6. A call of [getCheckinsByAuthor] whose limit the statement accepts
    does not throw. Every record it returns is the conversion of a row of
    the table whose [authorDid] is the author asked for; with a cursor,
    every record is strictly older than the cursor; with a limit that is
    not negative, no more records come back than the limit; and when the
    NOT NULL columns of the table hold text, the records are listed
    newest first. *)
Theorem author_feed_contents table author limit cursor :
  limit_in_range (default 50 limit) = true ->
  exists cs,
    getCheckinsByAuthor JSON_parse table author limit cursor = Ret cs
    /\ Forall (fun c => authorDid c = author
                 /\ exists r, In r table /\ toStoredCheckin JSON_parse r = Ret c) cs
    /\ (given cursor = true ->
        Forall (fun c => String.ltb (createdAt c) (default "" cursor) = true) cs)
    /\ (0 <= default 50 limit ->
        (List.length cs <= Z.to_nat (default 50%Z limit))%nat)
    /\ (Forall not_null table -> newest_first cs).
Proof.
  intros Hrange. unfold getCheckinsByAuthor. rewrite Hrange.
  destruct (page_contents
              (fun r => In r table /\ row_authorDid r = SText author)
              (List.filter (fun r => sql_eq (row_authorDid r) author) table)
              (default 50 limit) cursor) as (cs & Hcs & Hrec & Hold & Hlen & Hsort).
  { apply List.Forall_forall. intros r Hr. apply List.filter_In in Hr as [Hr He].
    split; [exact Hr|apply sql_eq_true; exact He]. }
  exists cs. split; [exact Hcs|]. split; [|split; [exact Hold|split; [exact Hlen|]]].
  - eapply List.Forall_impl; [|exact Hrec]. intros c (r & [Hr Ha] & Hc). split.
    + apply toStoredCheckin_fields in Hc as (_ & -> & _). rewrite Ha. reflexivity.
    + exists r. split; assumption.
  - intros Hn. apply Hsort. apply List.Forall_forall. intros r Hr.
    apply List.filter_In in Hr as [Hr _]. revert r Hr.
    apply List.Forall_forall. exact Hn.
Qed.

(** X7. A call of [getGlobalFeed] whose limit, capped at 100, the
    statement accepts does not throw. Every record it returns is the
    conversion of a row of the table; with a cursor, every record is
    strictly older than the cursor; and when the NOT NULL columns of the
    table hold text, the records are listed newest first. *)
Theorem global_feed_contents table limit cursor :
  limit_in_range (Z.min (default 50 limit) 100) = true ->
  exists cs,
    getGlobalFeed JSON_parse table limit cursor = Ret cs
    /\ Forall (fun c => exists r, In r table /\ toStoredCheckin JSON_parse r = Ret c) cs
    /\ (given cursor = true ->
        Forall (fun c => String.ltb (createdAt c) (default "" cursor) = true) cs)
    /\ (Forall not_null table -> newest_first cs).
Proof.
  intros Hrange. unfold getGlobalFeed. rewrite Hrange, rev_selection.
  destruct (page_contents (fun r => In r table) (rev table)
              (Z.min (default 50 limit) 100) cursor)
    as (cs & Hcs & Hrec & Hold & _ & Hsort).
  { apply List.Forall_forall. intros r Hr. apply in_rev. exact Hr. }
  exists cs. split; [exact Hcs|]. split; [exact Hrec|].
  split; [exact Hold|]. intros Hn. apply Hsort. apply Forall_rev. exact Hn.
Qed.

End FeedQueries.

Lemma author_feed_contents_witness :
  exists cs,
    getCheckinsByAuthor Host.JSON_parse Timeline.timeline "did:plc:alice"
      (Some 3) (Some "2025-06-15T13:00:00.004Z") = Ret cs
    /\ Forall (fun c => authorDid c = "did:plc:alice") cs
    /\ (List.length cs <= 3)%nat.
Proof.
  destruct (author_feed_contents Host.JSON_parse Timeline.timeline
              "did:plc:alice" (Some 3) (Some "2025-06-15T13:00:00.004Z")
              eq_refl) as (cs & Hcs & Hall & _ & Hlen & _).
  exists cs. split; [exact Hcs|]. split.
  - eapply List.Forall_impl; [|exact Hall]. intros c [Hc _]. exact Hc.
  - apply Hlen. discriminate.
Defined.

Lemma global_feed_contents_witness :
  exists cs,
    getGlobalFeed Host.JSON_parse Timeline.timeline (Some 150) None = Ret cs
    /\ newest_first cs.
Proof.
  destruct (global_feed_contents Host.JSON_parse Timeline.timeline
              (Some 150) None eq_refl) as (cs & Hcs & _ & _ & Hsort).
  exists cs. split; [exact Hcs|]. apply Hsort.
  repeat constructor; unfold not_null; cbn; repeat split; eexists; reflexivity.
Defined.

End FeedQueries.

(** *** Pages *)

Module PageFacts.
Import JS Queries Writes Feed FeedFacts SortFacts.

Lemma insert_desc_head x l :
  Forall (newer x) l -> insert_desc x l = x :: l.
Proof.
  intros H. destruct l as [|y rest]; [reflexivity|]. simpl.
  inversion H as [|? ? Hy _]; subst. unfold newer in Hy. rewrite Hy.
  reflexivity.
Qed.

Lemma filter_insert p x l :
  StronglySorted newer l ->
  List.filter p (insert_desc x l)
  = if p x then insert_desc x (List.filter p l) else List.filter p l.
Proof.
  induction 1 as [|y rest Hs IH Hy]; simpl.
  - destruct (p x); reflexivity.
  - destruct (sql_leb (row_createdAt y) (row_createdAt x)) eqn:E.
    + cbn [List.filter]. destruct (p x); [|reflexivity].
      symmetry. apply insert_desc_head.
      apply List.Forall_forall. intros z Hz.
      assert (Hin : In z (y :: rest)).
      { destruct (p y); [|right]; try (apply List.filter_In in Hz as [Hz _]; exact Hz).
        destruct Hz as [Hz|Hz]; [left; exact Hz|right].
        apply List.filter_In in Hz as [Hz _]. exact Hz. }
      clear Hz. destruct Hin as [Hin|Hin]; [rewrite <- Hin; exact E|].
      unfold newer. eapply sql_leb_trans; [|exact E].
      revert z Hin. apply List.Forall_forall. exact Hy.
    + cbn [List.filter]. rewrite IH. destruct (p y), (p x); simpl;
        rewrite ?E; reflexivity.
Qed.

Lemma order_filter p l :
  order_by_createdAt_desc (List.filter p l)
  = List.filter p (order_by_createdAt_desc l).
Proof.
  induction l as [|x rest IH]; [reflexivity|].
  cbn [List.filter]. change (order_by_createdAt_desc (x :: rest))
    with (insert_desc x (order_by_createdAt_desc rest)).
  rewrite filter_insert by apply order_sorted.
  destruct (p x); [|exact IH].
  change (order_by_createdAt_desc (x :: List.filter p rest))
    with (insert_desc x (order_by_createdAt_desc (List.filter p rest))).
  rewrite IH. reflexivity.
Qed.

Lemma filter_all {A} (p : A -> bool) l :
  Forall (fun z => p z = true) l -> List.filter p l = l.
Proof.
  induction 1 as [|z rest Hz _ IH]; simpl; [reflexivity|].
  rewrite Hz, IH. reflexivity.
Qed.

(** In a list ordered by strictly descending key, the rows whose key is
    below the key at position [k] are the rows after position [k]. *)
Lemma older_than_skipn l :
  StronglySorted newer l -> Forall not_null l -> distinct_times l ->
  forall k r c0,
    nth_error l k = Some r -> row_createdAt r = SText c0 ->
    older_than c0 l = skipn (S k) l.
Proof.
  unfold older_than, distinct_times.
  induction 1 as [|y rest Hs IH Hy]; intros Hn Hd k r c0 Hk Hr.
  - destruct k; discriminate Hk.
  - inversion Hn as [|? ? Hny Hn']; subst.
    cbn [map] in Hd. inversion Hd as [|? ? Hnotin Hd']; subst.
    destruct k as [|k]; cbn [nth_error] in Hk.
    + injection Hk as ->. cbn [List.filter]. rewrite Hr. cbn [sql_lt].
      rewrite ltb_irrefl. cbn [skipn]. apply filter_all.
      apply List.Forall_forall. intros z Hz.
      pose proof (proj1 (List.Forall_forall _ _) Hn' z Hz) as Hnz.
      pose proof (proj1 (List.Forall_forall _ _) Hy z Hz) as Hle.
      destruct Hnz as (_ & _ & [t Ht] & _). unfold newer in Hle.
      rewrite Ht, Hr in Hle. rewrite Ht. cbn [sql_lt sql_leb] in *.
      apply leb_ne_ltb; [exact Hle|]. intros ->. apply Hnotin.
      rewrite Hr, <- Ht. apply list_elem_of_In, in_map. exact Hz.
    + assert (Hin : In r rest) by (eapply nth_error_In; exact Hk).
      pose proof (proj1 (List.Forall_forall _ _) Hy r Hin) as Hle.
      destruct Hny as (_ & _ & [t Ht] & _). unfold newer in Hle.
      rewrite Ht, Hr in Hle. cbn [List.filter]. rewrite Ht. cbn [sql_lt sql_leb] in *.
      rewrite (leb_not_ltb _ _ Hle).
      rewrite (IH Hn' Hd' k r c0 Hk Hr). reflexivity.
Qed.

Lemma distinct_times_rev l : distinct_times l -> distinct_times (rev l).
Proof.
  unfold distinct_times. intros H. rewrite map_rev.
  rewrite <- (Permutation_rev (map row_createdAt l)). exact H.
Qed.

Section Pages.

Variable JSON_parse : string -> completion value.

Lemma Forall2_nth_error {A B} (P : A -> B -> Prop) l k :
  Forall2 P l k ->
  forall i y, nth_error k i = Some y ->
              exists x, nth_error l i = Some x /\ P x y.
Proof.
  induction 1 as [|x y l k Hxy _ IH]; intros [|i] z Hz; try discriminate Hz.
  - injection Hz as <-. exists x. split; [reflexivity|exact Hxy].
  - apply IH. exact Hz.
Qed.

Lemma map_rows_firstn n rows cs :
  map_rows JSON_parse rows = Ret cs ->
  map_rows JSON_parse (firstn n rows) = Ret (firstn n cs).
Proof.
  intros H. apply FeedQueries.map_rows_each.
  apply Forall2_take, FeedQueries.map_rows_each, H.
Qed.

Lemma map_rows_skipn n rows cs :
  map_rows JSON_parse rows = Ret cs ->
  map_rows JSON_parse (skipn n rows) = Ret (skipn n cs).
Proof.
  intros H. apply FeedQueries.map_rows_each.
  apply Forall2_drop, FeedQueries.map_rows_each, H.
Qed.

Lemma sql_limit_firstn n rows :
  0 <= n -> sql_limit n rows = firstn (Z.to_nat n) rows.
Proof.
  intros Hn. unfold sql_limit. destruct (n <? 0) eqn:E; [|reflexivity].
  apply Z.ltb_lt in E. lia.
Qed.

(** The pages of a selection of rows with distinct timestamps: without a
    cursor a query returns the head of the newest-first listing, and with
    the timestamp of the record at position [k] as cursor it returns the
    records that follow position [k]. *)
Lemma pages selected :
  Forall not_null selected -> distinct_times selected ->
  exists feed,
    map_rows JSON_parse (order_by_createdAt_desc selected) = Ret feed
    /\ List.length feed = List.length selected
    /\ forall n, 0 <= n ->
         map_rows JSON_parse
           (sql_limit n (order_by_createdAt_desc selected))
         = Ret (firstn (Z.to_nat n) feed)
         /\ forall k c,
              nth_error feed k = Some c -> createdAt c <> "" ->
              map_rows JSON_parse
                (sql_limit n
                   (order_by_createdAt_desc
                      (if given (Some (createdAt c))
                       then List.filter
                              (fun r => sql_lt (row_createdAt r)
                                          (default "" (Some (createdAt c))))
                              selected
                       else selected)))
              = Ret (firstn (Z.to_nat n) (skipn (S k) feed)).
Proof.
  intros Hn Hd.
  destruct (Store.map_rows_total JSON_parse (order_by_createdAt_desc selected))
    as (feed & Hfeed & Hlen).
  exists feed. split; [exact Hfeed|]. split.
  { rewrite Hlen. apply Permutation_length, order_perm. }
  intros n Hpos. rewrite sql_limit_firstn by exact Hpos.
  split; [apply map_rows_firstn; exact Hfeed|].
  intros k c Hk Hne.
  assert (Hg : given (Some (createdAt c)) = true).
  { simpl. apply negb_true_iff, String.eqb_neq. exact Hne. }
  rewrite Hg. change (default "" (Some (createdAt c))) with (createdAt c).
  rewrite order_filter, sql_limit_firstn by exact Hpos.
  destruct (Forall2_nth_error _ _ _
              (proj1 (FeedQueries.map_rows_each JSON_parse _ _) Hfeed) k c Hk)
    as (r & Hr & Hc).
  assert (Hsorted_null : Forall not_null (order_by_createdAt_desc selected)).
  { apply List.Forall_forall. intros q Hq.
    apply (Permutation_in _ (order_perm selected)) in Hq.
    exact (proj1 (List.Forall_forall _ _) Hn q Hq). }
  assert (Hsorted_distinct : distinct_times (order_by_createdAt_desc selected)).
  { unfold distinct_times in *.
    rewrite (Permutation_map row_createdAt (order_perm selected)). exact Hd. }
  pose proof (proj1 (List.Forall_forall _ _) Hsorted_null r
                (nth_error_In _ _ Hr)) as (_ & _ & [t Ht] & _).
  apply FeedQueries.toStoredCheckin_fields in Hc as (_ & _ & Hc & _).
  rewrite Ht in Hc. cbn [String_of] in Hc. rewrite Hc.
  pose proof (older_than_skipn _ (order_sorted selected) Hsorted_null
                Hsorted_distinct k r t Hr Ht) as Hskip.
  unfold older_than in Hskip. rewrite Hskip.
  apply map_rows_firstn, map_rows_skipn. exact Hfeed.
Qed.

Lemma limit_in_range_bounds n :
  - 2 ^ 63 < n < 2 ^ 63 -> limit_in_range n = true.
Proof.
  intros [Hlo Hhi]. unfold limit_in_range.
  apply andb_true_intro. split; apply Z.ltb_lt; assumption.
Qed.

(** X8. Pages of an author's feed. When the NOT NULL columns hold text and
    the author's check-ins have distinct [createdAt], the author's records
    listed newest first are one list [feed] with one record for each of
    the author's rows, such that for every limit [n] from 0 up to, and
    without, 2^63 the query without a cursor returns the first [n]
    records of [feed], and the query with the [createdAt] of the record
    at position [k] as cursor returns the first [n] records after
    position [k]. *)
Theorem author_feed_pages table author :
  Forall not_null table -> distinct_times (by_author author table) ->
  exists feed,
    List.length feed = List.length (by_author author table)
    /\ newest_first feed
    /\ forall n, 0 <= n < 2 ^ 63 ->
         getCheckinsByAuthor JSON_parse table author (Some n) None
         = Ret (firstn (Z.to_nat n) feed)
         /\ forall k c,
              nth_error feed k = Some c -> createdAt c <> "" ->
              getCheckinsByAuthor JSON_parse table author (Some n)
                (Some (createdAt c))
              = Ret (firstn (Z.to_nat n) (skipn (S k) feed)).
Proof.
  intros Hn Hd.
  assert (Hnull : forall r, In r (by_author author table) -> not_null r).
  { intros r Hr. apply List.filter_In in Hr as [Hr _].
    exact (proj1 (List.Forall_forall _ _) Hn r Hr). }
  destruct (pages (by_author author table)) as (feed & Hfeed & Hlen & Hpages).
  { apply List.Forall_forall. exact Hnull. }
  { exact Hd. }
  exists feed. split; [exact Hlen|]. split.
  { apply (FeedQueries.records_sorted JSON_parse
             (order_by_createdAt_desc (by_author author table))).
    - apply FeedQueries.map_rows_each. exact Hfeed.
    - apply List.Forall_forall. intros r Hr.
      apply (Permutation_in _ (order_perm _)) in Hr. exact (Hnull r Hr).
    - apply order_sorted. }
  intros n [Hpos Hmax]. unfold getCheckinsByAuthor.
  change (default 50 (Some n)) with n.
  rewrite (limit_in_range_bounds n) by lia.
  destruct (Hpages n Hpos) as [Hfirst Hnext]. split; [exact Hfirst|].
  intros k c Hk Hne. exact (Hnext k c Hk Hne).
Qed.


End Pages.

Lemma timeline_not_null : Forall not_null Timeline.timeline.
Proof.
  repeat constructor; unfold not_null; cbn; repeat split; eexists; reflexivity.
Qed.

Lemma author_feed_pages_witness :
  exists feed,
    List.length feed
    = List.length (by_author "did:plc:alice" Timeline.timeline)
    /\ newest_first feed
    /\ forall n, 0 <= n < 2 ^ 63 ->
         getCheckinsByAuthor Host.JSON_parse Timeline.timeline "did:plc:alice"
           (Some n) None
         = Ret (firstn (Z.to_nat n) feed)
         /\ forall k c,
              nth_error feed k = Some c -> createdAt c <> "" ->
              getCheckinsByAuthor Host.JSON_parse Timeline.timeline
                "did:plc:alice" (Some n) (Some (createdAt c))
              = Ret (firstn (Z.to_nat n) (skipn (S k) feed)).
Proof.
  apply (author_feed_pages Host.JSON_parse Timeline.timeline "did:plc:alice").
  - exact timeline_not_null.
  - unfold distinct_times. apply (bool_decide_unpack _). vm_compute. exact I.
Defined.


End PageFacts.

(** ** The identity cache, once more *)

Module CacheFacts.
Import Auth.

Section CacheFacts.

Variable network : string -> string -> Z -> response * N.

Lemma tryHosts_frame hosts token w :
  exists sent unasked,
    requests (snd (tryHosts network hosts token w)) = (requests w ++ sent)%list
    /\ map (fun h => (getSession_url h, token)) hosts = (sent ++ unasked)%list
    /\ clock w <= clock (snd (tryHosts network hosts token w))
    /\ (forall other, other <> token ->
          didCache (snd (tryHosts network hosts token w)) !! other
          = didCache w !! other)
    /\ (is_Some (didCache w !! token) ->
        is_Some (didCache (snd (tryHosts network hosts token w)) !! token)).
Proof.
  revert w. induction hosts as [|h rest IH]; intros w.
  - exists [], []. simpl. rewrite app_nil_r. repeat split; auto; lia.
  - cbn [tryHosts map]. unfold fetch.
    destruct (network (getSession_url h) token (clock w)) as [r d].
    destruct r as [| | |session].
    4: { exists [(getSession_url h, token)],
                (map (fun h => (getSession_url h, token)) rest).
         cbn [snd requests clock didCache]. repeat split; try reflexivity.
         - lia.
         - intros other Hne. apply lookup_insert_ne. congruence.
         - intros _. rewrite lookup_insert_eq. eexists. reflexivity. }
    all: match goal with
         | |- context [tryHosts network ?hs ?t ?w1] =>
             destruct (IH w1) as (sent & unasked & Hs & Hm & Ht & Ho & Hk)
         end;
         cbn [requests clock didCache] in *;
         exists ((getSession_url h, token) :: sent), unasked;
         rewrite Hs, Hm, <- app_assoc; repeat split; try assumption;
         try reflexivity; lia.
Qed.

(** X10. What a call of [validateToken] leaves alone, whatever it returns.
    It sends the token to no address but the session endpoint of the two
    hosts, in their order, each at most once; the clock does not go back;
    the cache entries of all other tokens are what they were; and an entry
    that was there for the token, expired or not, is not removed. *)
Theorem validateToken_frame token w :
  exists sent unasked,
    requests (snd (validateToken network token w)) = (requests w ++ sent)%list
    /\ [(getSession_url "https://bsky.social", token);
        (getSession_url "https://staging.bsky.dev", token)]
       = (sent ++ unasked)%list
    /\ clock w <= clock (snd (validateToken network token w))
    /\ (forall other, other <> token ->
          didCache (snd (validateToken network token w)) !! other
          = didCache w !! other)
    /\ (is_Some (didCache w !! token) ->
        is_Some (didCache (snd (validateToken network token w)) !! token)).
Proof.
  assert (Hhit : exists sent unasked,
             requests w = (requests w ++ sent)%list
             /\ [(getSession_url "https://bsky.social", token);
                 (getSession_url "https://staging.bsky.dev", token)]
                = (sent ++ unasked)%list
             /\ clock w <= clock w
             /\ (forall other, other <> token ->
                   didCache w !! other = didCache w !! other)
             /\ (is_Some (didCache w !! token) -> is_Some (didCache w !! token))).
  { exists [], [(getSession_url "https://bsky.social", token);
                (getSession_url "https://staging.bsky.dev", token)].
    rewrite app_nil_r. repeat split; auto; lia. }
  unfold validateToken.
  destruct (didCache w !! token) as [entry|] eqn:He.
  - destruct (expires entry >? clock w).
    + cbn [snd]. rewrite He. exact Hhit.
    + rewrite <- He. apply (tryHosts_frame commonPDSHosts).
  - rewrite <- He. apply (tryHosts_frame commonPDSHosts).
Qed.

Lemma validateToken_again token w ctx w' :
  validateToken network token w = (Some ctx, w') ->
  validateToken network token w' = (Some ctx, w').
Proof.
  unfold validateToken at 1.
  assert (Hfresh : tryHosts network commonPDSHosts token w = (Some ctx, w') ->
                   validateToken network token w' = (Some ctx, w')).
  { intros H. apply Cache.tryHosts_some in H as [Hc _].
    unfold validateToken. rewrite Hc. cbn [expires cached_did cached_handle].
    replace (clock w' + CACHE_TTL >? clock w') with true
      by (symmetry; apply Z.gtb_lt; unfold CACHE_TTL; lia).
    destruct ctx; reflexivity. }
  destruct (didCache w !! token) as [entry|] eqn:He; [|exact Hfresh].
  destruct (expires entry >? clock w) eqn:E; [|exact Hfresh].
  intros [= <- <-]. unfold validateToken. rewrite He, E. reflexivity.
Qed.

(** X11. An identity that a call has returned is served from the cache
    afterwards: the state after the call holds an entry for the token that
    has not expired, and in every state that still holds this entry, at
    any time before its expiry, a call returns the same identity, sends no
    request and changes nothing. *)
Theorem returned_identity_is_reused token w ctx w' :
  validateToken network token w = (Some ctx, w') ->
  exists entry,
    didCache w' !! token = Some entry
    /\ clock w' < expires entry
    /\ forall w2,
         didCache w2 !! token = Some entry ->
         clock w2 < expires entry ->
         validateToken network token w2 = (Some ctx, w2).
Proof.
  intros H.
  assert (Hreuse : forall entry,
            ctx = {| did := cached_did entry; handle := cached_handle entry |} ->
            forall w2,
              didCache w2 !! token = Some entry ->
              clock w2 < expires entry ->
              validateToken network token w2 = (Some ctx, w2)).
  { intros entry -> w2 He Ht. unfold validateToken. rewrite He.
    destruct (expires entry >? clock w2) eqn:E; [reflexivity|].
    rewrite Z.gtb_ltb, Z.ltb_ge in E. lia. }
  assert (Hfresh : tryHosts network commonPDSHosts token w = (Some ctx, w') ->
            exists entry,
              didCache w' !! token = Some entry
              /\ clock w' < expires entry
              /\ ctx = {| did := cached_did entry; handle := cached_handle entry |}).
  { intros Ht. apply Cache.tryHosts_some in Ht as [Hc _].
    eexists. split; [exact Hc|]. cbn [expires cached_did cached_handle].
    split; [unfold CACHE_TTL; lia|]. destruct ctx; reflexivity. }
  unfold validateToken in H.
  destruct (didCache w !! token) as [entry|] eqn:He.
  - destruct (expires entry >? clock w) eqn:E.
    + injection H as <- <-. exists entry. apply Z.gtb_lt in E.
      split; [exact He|]. split; [exact E|]. apply Hreuse. reflexivity.
    + destruct (Hfresh H) as (e & H1 & H2 & H3). exists e.
      split; [exact H1|]. split; [exact H2|]. apply Hreuse. exact H3.
  - destruct (Hfresh H) as (e & H1 & H2 & H3). exists e.
    split; [exact H1|]. split; [exact H2|]. apply Hreuse. exact H3.
Qed.

(** X12. The hosts are asked in their order and the first session decides.
    With nothing usable in the cache: when bsky.social returns a session,
    that session is the result, staging.bsky.dev is not asked, and the
    entry expires one hour after the response came in; when bsky.social
    refuses or fails and staging.bsky.dev returns a session, that session
    is the result after one request to each, and the entry expires one
    hour after the second response. *)
Theorem first_session_decides token w :
  no_usable_entry token w ->
  (forall session d,
     network (getSession_url "https://bsky.social") token (clock w)
     = (OkSession session, d) ->
     validateToken network token w
     = (Some session,
        {| didCache :=
             <[token := {| cached_did := did session;
                           cached_handle := handle session;
                           expires := clock w + Z.of_N d + CACHE_TTL |}]>
               (didCache w);
           clock := clock w + Z.of_N d;
           requests :=
             (requests w ++ [(getSession_url "https://bsky.social", token)])%list |}))
  /\ (forall r1 d1 session d2,
        network (getSession_url "https://bsky.social") token (clock w)
        = (r1, d1) ->
        rejects r1 ->
        network (getSession_url "https://staging.bsky.dev") token
          (clock w + Z.of_N d1) = (OkSession session, d2) ->
        validateToken network token w
        = (Some session,
           {| didCache :=
                <[token := {| cached_did := did session;
                              cached_handle := handle session;
                              expires := clock w + Z.of_N d1 + Z.of_N d2
                                         + CACHE_TTL |}]>
                  (didCache w);
              clock := clock w + Z.of_N d1 + Z.of_N d2;
              requests :=
                (requests w
                 ++ [(getSession_url "https://bsky.social", token);
                     (getSession_url "https://staging.bsky.dev", token)])%list |})).
Proof.
  intros Hn. rewrite (Cache.validateToken_no_usable_entry _ _ _ Hn).
  unfold commonPDSHosts. split.
  - intros [d0 h0] d H1. cbn [tryHosts]. unfold fetch. rewrite H1. reflexivity.
  - intros r1 d1 [d0 h0] d2 H1 Hr H2. cbn [tryHosts]. unfold fetch.
    rewrite H1.
    destruct r1; try contradiction; cbn [clock]; rewrite H2;
      cbn [clock requests didCache did handle]; rewrite <- app_assoc;
      reflexivity.
Qed.

End CacheFacts.

Lemma returned_identity_is_reused_witness :
  exists entry,
    didCache (snd (validateToken Examples.network "good" Examples.stale_world))
      !! "good" = Some entry
    /\ clock (snd (validateToken Examples.network "good" Examples.stale_world))
       < expires entry
    /\ forall w2,
         didCache w2 !! "good" = Some entry ->
         clock w2 < expires entry ->
         validateToken Examples.network "good" w2 = (Some Examples.alice, w2).
Proof.
  apply (returned_identity_is_reused Examples.network "good"
           Examples.stale_world Examples.alice).
  vm_compute. reflexivity.
Defined.

Lemma first_session_decides_witness :
  fst (validateToken Examples.network "good" Examples.fresh_world)
  = Some Examples.alice
  /\ requests (snd (validateToken Examples.network "good" Examples.fresh_world))
     = [(getSession_url "https://bsky.social", "good")].
Proof.
  rewrite (proj1 (first_session_decides Examples.network "good"
                    Examples.fresh_world ltac:(exact I))
             Examples.alice 120%N eq_refl).
  split; reflexivity.
Defined.

End CacheFacts.

(** ** The validator and the declared record type *)

Module Conformance.
Import JS Types JSFacts.

Lemma category_field_cases record field ceiling too_long acc acc' :
  category_field record field ceiling too_long acc = Ret acc' ->
  (prop record field = Undefined /\ acc' = acc)
  \/ exists s,
       prop record field = Str s
       /\ (1 <= String.length s <= ceiling)%nat
       /\ acc' = set_prop acc field (Str s).
Proof.
  unfold category_field. intros H.
  destruct (prop record field) as [| |b|x|s|items|props] eqn:E;
    cbn [is_undefined negb is_string typeof type_tag_eqb orb] in H;
    try discriminate H.
  - left. injection H as <-. split; reflexivity.
  - right. exists s. unfold str_length in H. cbn [str_of] in H.
    destruct (String.length s =? 0)%nat eqn:E0; [discriminate H|].
    destruct (ceiling <? String.length s)%nat eqn:E1; [discriminate H|].
    injection H as <-. apply Nat.eqb_neq in E0. apply Nat.ltb_ge in E1.
    repeat split; try reflexivity; lia.
Qed.

Lemma nonempty_text v :
  negb (truthy v) || negb (is_string v) = false ->
  exists s, v = Str s /\ (1 <= String.length s)%nat.
Proof.
  destruct v as [| |b|x|s|items|props]; cbn; try discriminate;
    try (rewrite orb_true_r; discriminate).
  destruct s; [discriminate|]. intros _. eexists. split; [reflexivity|].
  simpl. lia.
Qed.

Lemma as_CheckinRecord_to_value r :
  Utils.as_CheckinRecord (Utils.to_value r) = Some r.
Proof.
  destruct r as [[t|] x c [l|] [c1|] [c2|] [c3|]]; reflexivity.
Qed.

Section Conformance.

Variable Date_parse : string -> number.

(** The steps of an accepted run: the text, the timestamp, the result of
    the locations block and of each category block. *)
Lemma accepted_steps record r :
  validateCheckinRecord Date_parse record = Ret r ->
  exists t c r1 r2 r3,
    prop record "text" = Str t /\ (1 <= String.length t <= 300)%nat
    /\ prop record "createdAt" = Str c /\ isNaN (Date_parse c) = false
    /\ (r1 = [("$type", Str "app.dropanchor.checkin"); ("text", Str t);
              ("createdAt", Str c)]
        \/ exists v vs,
             r1 = [("$type", Str "app.dropanchor.checkin");
                   ("text", Str t); ("createdAt", Str c);
                   ("locations", Array (v :: vs))])
    /\ category_field record "category" 50
         "category must be 50 characters or less" r1 = Ret r2
    /\ category_field record "categoryGroup" 50
         "categoryGroup must be 50 characters or less" r2 = Ret r3
    /\ exists r4,
         category_field record "categoryIcon" 10
           "categoryIcon must be 10 characters or less" r3 = Ret r4
         /\ r = Object r4.
Proof.
  intros H. unfold validateCheckinRecord in H.
  destruct (negb (type_tag_eqb (typeof record) TObject) || is_null record);
    [discriminate H|].
  destruct (negb (truthy (prop record "text"))
            || negb (is_string (prop record "text"))) eqn:C2; [discriminate H|].
  destruct (300 <? str_length (prop record "text"))%nat eqn:C3; [discriminate H|].
  destruct (negb (truthy (prop record "createdAt"))
            || negb (is_string (prop record "createdAt"))) eqn:C4;
    [discriminate H|].
  destruct (isNaN (Date_parse (str_of (prop record "createdAt")))) eqn:C5;
    [discriminate H|].
  apply nonempty_text in C2 as (t & Et & Ht).
  apply nonempty_text in C4 as (c & Ec & Hc).
  rewrite Et, Ec in *. unfold str_length in C3. cbn [str_of] in C3, C5.
  apply Nat.ltb_ge in C3.
  cbv zeta in H.
  match type of H with
  | bind ?c _ = _ => destruct c as [r1|] eqn:E1; [|discriminate H]
  end.
  cbn [bind] in H.
  destruct (category_field record "category" _ _ r1) as [r2|] eqn:E2;
    [|discriminate H].
  cbn [bind] in H.
  destruct (category_field record "categoryGroup" _ _ r2) as [r3|] eqn:E3;
    [|discriminate H].
  cbn [bind] in H.
  destruct (category_field record "categoryIcon" _ _ r3) as [r4|] eqn:E4;
    [|discriminate H].
  cbn [bind] in H. injection H as <-.
  exists t, c, r1, r2, r3.
  split; [reflexivity|]. split; [lia|]. split; [reflexivity|].
  split; [exact C5|]. split; [|split; [exact E2|split; [exact E3|]]].
  - destruct (prop record "locations") as [| |b|x|s|ls|ps];
      cbn [is_undefined negb] in E1; try discriminate E1.
    + left. injection E1 as <-. reflexivity.
    + destruct (validateLocations ls []) as [vs|]; [|discriminate E1].
      cbn [bind] in E1. destruct vs as [|v vs]; cbn in E1; injection E1 as <-.
      * left. reflexivity.
      * right. exists v, vs. reflexivity.
  - exists r4. split; [exact E4|reflexivity].
Qed.

(** An accepted record seen through the interface. *)
Lemma accepted_typed record r :
  validateCheckinRecord Date_parse record = Ret r ->
  exists rec,
    Utils.as_CheckinRecord r = Some rec
    /\ Utils.to_value rec = r
    /\ (forall x, Utils.category rec = Some x -> x <> "")
    /\ (forall x, Utils.categoryGroup rec = Some x -> x <> "")
    /\ (forall x, Utils.categoryIcon rec = Some x -> x <> "").
Proof.
  intros H.
  destruct (accepted_steps record r H)
    as (t & c & r1 & r2 & r3 & _ & _ & _ & _ & L & E2 & E3 & r4 & E4 & ->).
  apply category_field_cases in E2, E3, E4.
  destruct L as [->|(v & vs & ->)];
    destruct E2 as [[_ ->]|(s2 & _ & B2 & ->)];
    destruct E3 as [[_ ->]|(s3 & _ & B3 & ->)];
    destruct E4 as [[_ ->]|(s4 & _ & B4 & ->)];
    (eexists; split; [reflexivity|]);
    cbn [Utils.category Utils.categoryGroup Utils.categoryIcon];
    (split; [reflexivity|]);
    (split; [|split]); intros s0 Hs; try discriminate Hs;
    injection Hs as <-; intros ->; simpl in *; lia.
Qed.

(** X13. An accepted record has the declared shape of a [CheckinRecord],
    and its properties stand in the order of the interface: it is the
    value of a typed record whose [$type] is "app.dropanchor.checkin",
    whose [text] is the input's and has 1 to 300 characters, whose
    [createdAt] is the input's and is a timestamp [Date.parse] reads,
    whose [locations], when there are any, are not empty, and whose
    [category], [categoryGroup] and [categoryIcon], when there, have 1 to
    50, 1 to 50 and 1 to 10 characters. *)
Theorem accepted_is_CheckinRecord record r :
  validateCheckinRecord Date_parse record = Ret r ->
  exists rec,
    Utils.as_CheckinRecord r = Some rec
    /\ Utils.to_value rec = r
    /\ Utils.type rec = Some "app.dropanchor.checkin"
    /\ prop record "text" = Str (Utils.text rec)
    /\ (1 <= String.length (Utils.text rec) <= 300)%nat
    /\ prop record "createdAt" = Str (Utils.createdAt rec)
    /\ isNaN (Date_parse (Utils.createdAt rec)) = false
    /\ Utils.locations rec <> Some []
    /\ (forall s, Utils.category rec = Some s ->
                  (1 <= String.length s <= 50)%nat)
    /\ (forall s, Utils.categoryGroup rec = Some s ->
                  (1 <= String.length s <= 50)%nat)
    /\ (forall s, Utils.categoryIcon rec = Some s ->
                  (1 <= String.length s <= 10)%nat).
Proof.
  intros H.
  destruct (accepted_steps record r H)
    as (t & c & r1 & r2 & r3 & Et & Ht & Ec & C5 & L & E2 & E3 & r4 & E4 & ->).
  apply category_field_cases in E2, E3, E4.
  destruct L as [->|(v & vs & ->)];
    destruct E2 as [[_ ->]|(s2 & _ & B2 & ->)];
    destruct E3 as [[_ ->]|(s3 & _ & B3 & ->)];
    destruct E4 as [[_ ->]|(s4 & _ & B4 & ->)];
    (eexists; split; [reflexivity|]);
    cbn [Utils.type Utils.text Utils.createdAt Utils.locations Utils.category
         Utils.categoryGroup Utils.categoryIcon];
    (split; [reflexivity|]); (split; [reflexivity|]);
    (split; [exact Et|]); (split; [exact Ht|]); (split; [exact Ec|]);
    (split; [exact C5|]); (split; [discriminate|]);
    (split; [|split]); intros s0 Hs; try discriminate Hs;
    injection Hs as <-; lia.
Qed.

End Conformance.

Lemma accepted_is_CheckinRecord_witness :
  exists rec,
    Utils.as_CheckinRecord
      (Object [("$type", Str "app.dropanchor.checkin");
               ("text", Str "Coffee"); ("createdAt", Str "2025-06-15T13:00:00Z");
               ("category", Str "cafe")])
    = Some rec
    /\ Utils.category rec = Some "cafe".
Proof.
  destruct (accepted_is_CheckinRecord Host.Date_parse
              (Object [("category", Str "cafe"); ("text", Str "Coffee");
                       ("mood", Str "fine");
                       ("createdAt", Str "2025-06-15T13:00:00Z")])
              (Object [("$type", Str "app.dropanchor.checkin");
                       ("text", Str "Coffee");
                       ("createdAt", Str "2025-06-15T13:00:00Z");
                       ("category", Str "cafe")]))
    as (rec & H1 & H2 & _).
  - vm_compute. reflexivity.
  - exists rec. split; [exact H1|].
    vm_compute in H1. injection H1 as <-. reflexivity.
Defined.

End Conformance.

(** ** What the validator reads *)

Module Inputs.
Import JS Types.

Section Inputs.

Variable Date_parse : string -> number.

(** X14. The validator reads six properties of its input and nothing
    else: two objects that agree on [text], [createdAt], [locations],
    [category], [categoryGroup] and [categoryIcon] are both accepted with
    the same result or both rejected with the same error. The [$type] of
    the input, in particular, is not looked at. *)
Theorem unread_properties_ignored fields fields' :
  (forall k,
     In k ["text"; "createdAt"; "locations"; "category"; "categoryGroup";
           "categoryIcon"] ->
     prop (Object fields) k = prop (Object fields') k) ->
  validateCheckinRecord Date_parse (Object fields)
  = validateCheckinRecord Date_parse (Object fields').
Proof.
  intros H. unfold validateCheckinRecord, category_field.
  cbn [typeof type_tag_eqb negb is_null orb].
  rewrite (H "text"), (H "createdAt"), (H "locations"), (H "category"),
    (H "categoryGroup"), (H "categoryIcon") by (simpl; tauto).
  reflexivity.
Qed.

End Inputs.

Lemma unread_properties_ignored_witness :
  validateCheckinRecord Host.Date_parse
    (Object [("$type", Str "app.bsky.feed.post"); ("text", Str "Coffee");
             ("mood", Str "fine"); ("createdAt", Str "2025-06-15T13:00:00Z")])
  = validateCheckinRecord Host.Date_parse
      (Object [("createdAt", Str "2025-06-15T13:00:00Z"); ("text", Str "Coffee")]).
Proof.
  apply unread_properties_ignored.
  intros k Hk. simpl in Hk.
  repeat (destruct Hk as [<-|Hk]; [reflexivity|]). contradiction.
Defined.

End Inputs.

(** ** Writing, then listing *)

Module CreateAndList.
Import JS Queries Writes Feed FeedFacts SortFacts.

Lemma order_newest_last rows x t :
  row_createdAt x = SText t ->
  Forall (fun r => sql_lt (row_createdAt r) t = true) rows ->
  order_by_createdAt_desc (rows ++ [x]) = x :: order_by_createdAt_desc rows.
Proof.
  intros Hx. induction 1 as [|a rest Ha _ IH]; [reflexivity|].
  change (order_by_createdAt_desc ((a :: rest) ++ [x]))
    with (insert_desc a (order_by_createdAt_desc (rest ++ [x]))).
  rewrite IH. cbn [insert_desc]. rewrite Hx.
  destruct (row_createdAt a) as [|ta] eqn:Ea; [discriminate Ha|].
  cbn [sql_lt sql_leb] in *. rewrite (ltb_not_leb _ _ Ha). reflexivity.
Qed.

Section CreateAndList.

Variable JSON_parse : string -> completion value.
Variable JSON_stringify : value -> string.

(** X15. A check-in written with a [createdAt] above those of all the
    check-ins its author has so far is the first record of the author's
    feed afterwards, and the records after it are the feed as it was
    before, one fewer: for a limit [n] above 0 and below 2^63, listing
    [n] records after the write returns the new record, with the key,
    author, timestamp and address it was written with, followed by what
    listing [n - 1] records returned before. *)
Theorem created_checkin_heads_feed table rkey author record uri cid table' n :
  createCheckinRecord JSON_stringify table rkey author record uri cid
  = Inserted table' ->
  Forall (fun r => sql_lt (row_createdAt r) (Utils.createdAt record) = true)
    (by_author author table) ->
  0 < n < 2 ^ 63 ->
  exists c before,
    getCheckinsByAuthor JSON_parse table author (Some (n - 1)) None = Ret before
    /\ getCheckinsByAuthor JSON_parse table' author (Some n) None
       = Ret (c :: before)
    /\ id c = rkey /\ authorDid c = author
    /\ createdAt c = Utils.createdAt record /\ Queries.uri c = uri.
Proof.
  unfold createCheckinRecord. intros H Hold Hn.
  destruct (existsb _ table); [discriminate H|]. injection H as <-.
  unfold getCheckinsByAuthor. cbn [given].
  change (default 50 (Some n)) with n.
  change (default 50 (Some (n - 1))) with (n - 1).
  rewrite (PageFacts.limit_in_range_bounds n) by lia.
  rewrite (PageFacts.limit_in_range_bounds (n - 1)) by lia.
  fold (by_author author table).
  rewrite List.filter_app. fold (by_author author table).
  cbn [List.filter row_authorDid sql_eq]. rewrite String.eqb_refl.
  erewrite (order_newest_last (by_author author table) _
              (Utils.createdAt record)); [|reflexivity|exact Hold].
  unfold sql_limit.
  destruct (n <? 0) eqn:E1; [apply Z.ltb_lt in E1; lia|].
  destruct (n - 1 <? 0) eqn:E2; [apply Z.ltb_lt in E2; lia|].
  replace (Z.to_nat n) with (S (Z.to_nat (n - 1))) by lia.
  cbn [firstn map_rows].
  destruct (Store.map_rows_total JSON_parse
              (firstn (Z.to_nat (n - 1))
                 (order_by_createdAt_desc (by_author author table))))
    as (before & Hb & _).
  match goal with
  | |- context [toStoredCheckin JSON_parse ?new] =>
      destruct (Store.toStoredCheckin_total JSON_parse new) as [c Hc]
  end.
  exists c, before. rewrite Hb, Hc. cbn [bind].
  split; [reflexivity|]. split; [reflexivity|].
  apply FeedQueries.toStoredCheckin_fields in Hc as (H1 & H2 & H3 & H4).
  repeat split; assumption.
Qed.

End CreateAndList.

Lemma created_checkin_heads_feed_witness :
  exists c before,
    getCheckinsByAuthor SampleJSON.parse Timeline.timeline "did:plc:bob"
      (Some (2 - 1)) None = Ret before
    /\ getCheckinsByAuthor SampleJSON.parse
         (Timeline.timeline
          ++ [{| row_id := SText "rkey-second";
                 row_authorDid := SText "did:plc:bob";
                 row_text := SText "Coffee at Central Perk";
                 row_createdAt := SText "2025-06-15T13:00:00Z";
                 row_locations :=
                   SText (SampleJSON.stringify
                            (Array [Examples.geo_location "40.7128" "-74.0060"]));
                 row_category := SNull;
                 row_categoryGroup := SNull;
                 row_categoryIcon := SNull;
                 row_uri := SText "at://did:plc:bob/app.dropanchor.checkin/rkey-second";
                 row_cid := SText "bafabc" |}])
         "did:plc:bob" (Some 2) None
       = Ret (c :: before)
    /\ id c = "rkey-second" /\ authorDid c = "did:plc:bob"
    /\ createdAt c = "2025-06-15T13:00:00Z"
    /\ Queries.uri c = "at://did:plc:bob/app.dropanchor.checkin/rkey-second".
Proof.
  apply (created_checkin_heads_feed SampleJSON.parse SampleJSON.stringify
           Timeline.timeline "rkey-second" "did:plc:bob"
           {| Utils.type := Some "app.dropanchor.checkin";
              Utils.text := "Coffee at Central Perk";
              Utils.createdAt := "2025-06-15T13:00:00Z";
              Utils.locations :=
                Some [Examples.geo_location "40.7128" "-74.0060"];
              Utils.category := None;
              Utils.categoryGroup := None;
              Utils.categoryIcon := None |}
           "at://did:plc:bob/app.dropanchor.checkin/rkey-second" "bafabc").
  - reflexivity.
  - repeat constructor.
  - lia.
Defined.

End CreateAndList.

(** ** The request handlers *)

Module RouteFacts.
Import JS Queries Auth Writes Routes.

Lemma substring_all s : String.substring 0 (String.length s) s = s.
Proof. induction s as [|c s IH]; simpl; [reflexivity|]. rewrite IH. reflexivity. Qed.

Lemma prefix_substring p s :
  String.prefix p s = true ->
  s = p ++ Routes.substring (String.length p) s.
Proof.
  unfold Routes.substring. revert s.
  induction p as [|a p IH]; intros s H.
  - cbn [String.length String.append]. rewrite Nat.sub_0_r, substring_all.
    reflexivity.
  - destruct s as [|b s]; [discriminate H|]. cbn [String.prefix] in H.
    destruct (ascii_dec a b) as [<-|]; [|discriminate H].
    cbn [String.length String.substring Nat.sub].
    change (String a p ++ ?x) with (String a (p ++ x)).
    f_equal. apply IH. exact H.
Qed.

Section RouteFacts.

Variable network : string -> string -> Z -> response * N.
Variable Date_parse : string -> number.
Variable JSON_parse : string -> completion value.
Variable JSON_stringify : value -> string.
Variable parseInt : string -> number.

Lemma authenticateRequest_some authHeader w ctx w' :
  authenticateRequest network authHeader w = (Some ctx, w') ->
  exists token,
    authHeader = Some ("Bearer " ++ token)
    /\ validateToken network token w = (Some ctx, w').
Proof.
  unfold authenticateRequest. destruct authHeader as [h|]; [|discriminate].
  destruct (h =? "")%string; [discriminate|].
  destruct (String.prefix "Bearer " h) eqn:E; [|discriminate].
  cbn [negb orb]. intros H. exists (Routes.substring 7 h). split; [|exact H].
  f_equal. exact (prefix_substring "Bearer " h E).
Qed.

(** X16. What [createRecord] writes, and for whom. A reply that reports a
    record comes from a request whose bearer token [validateToken]
    resolved, whose collection is app.dropanchor.checkin and whose record
    the validator accepted; the table has then grown by one row whose
    author is the identity of the token, whose key is the requested key,
    or the generated one when none was asked for, and whose address is the
    at:// address of that author and key. With any other reply the table
    is what it was. An error reported as thrown was thrown by the reading
    of the body or by the validator, and a failed insert means that the
    key is taken. *)
Theorem createRecord_writes_for_caller authorization body generatedRkey
    generatedCid s reply s' :
  createRecord network Date_parse JSON_stringify authorization body
    generatedRkey generatedCid s = (reply, s') ->
  (forall uri cid,
     reply = Created uri cid ->
     exists token ctx b rec new,
       authorization = Some ("Bearer " ++ token)
       /\ validateToken network token (auth s) = (Some ctx, auth s')
       /\ body = Ret b
       /\ collection b = "app.dropanchor.checkin"
       /\ Types.validateCheckinRecord Date_parse (record b)
          = Ret (Utils.to_value rec)
       /\ uri = Utils.createAtUri (did ctx) "app.dropanchor.checkin"
                  (or_else (rkey b) generatedRkey)
       /\ cid = generatedCid
       /\ checkins s' = (checkins s ++ [new])%list
       /\ row_id new = SText (or_else (rkey b) generatedRkey)
       /\ row_authorDid new = SText (did ctx)
       /\ row_text new = SText (Utils.text rec)
       /\ row_createdAt new = SText (Utils.createdAt rec)
       /\ row_uri new = SText uri
       /\ row_cid new = SText cid
       /\ Forall (fun r => row_id r <> row_id new) (checkins s))
  /\ ((forall uri cid, reply <> Created uri cid) -> checkins s' = checkins s)
  /\ (forall e,
        reply = InvalidRequest (Thrown e) ->
        body = Throw e
        \/ exists b, body = Ret b
                     /\ Types.validateCheckinRecord Date_parse (record b)
                        = Throw e)
  /\ (reply = InvalidRequest InsertFailed ->
      exists b r, body = Ret b /\ In r (checkins s)
                  /\ row_id r = SText (or_else (rkey b) generatedRkey)).
Proof.
  unfold createRecord.
  destruct (authenticateRequest network authorization (auth s))
    as [[ctx|] w] eqn:Ea.
  2: { intros [= <- <-]. repeat split; try discriminate; reflexivity. }
  apply authenticateRequest_some in Ea as (token & Hh & Hv).
  destruct body as [b|e0].
  2: { intros [= <- <-]. split; [discriminate|]. split; [reflexivity|].
       split; [|discriminate]. intros e [= <-]. left. reflexivity. }
  destruct (collection b =? "app.dropanchor.checkin")%string eqn:Ec;
    cbn [negb].
  2: { intros [= <- <-]. repeat split; try discriminate; reflexivity. }
  apply String.eqb_eq in Ec.
  destruct (Types.validateCheckinRecord Date_parse (record b)) as [v|e0] eqn:Ev.
  2: { intros [= <- <-]. split; [discriminate|]. split; [reflexivity|].
       split; [|discriminate]. intros e [= <-]. right. exists b.
       split; [reflexivity|exact Ev]. }
  destruct (Conformance.accepted_typed Date_parse _ _ Ev)
    as (rec & Has & Hto & _).
  rewrite Has. unfold createCheckinRecord.
  destruct (existsb _ (checkins s)) eqn:Ex.
  - intros [= <- <-]. split; [discriminate|]. split; [reflexivity|].
    split; [discriminate|]. intros _.
    apply existsb_exists in Ex as (r & Hin & Hr). exists b, r.
    split; [reflexivity|]. split; [exact Hin|].
    destruct (row_id r) as [|k]; [discriminate Hr|].
    apply String.eqb_eq in Hr. congruence.
  - intros [= <- <-]. split; [|split; [|split; discriminate]].
    + intros uri cid [= <- <-].
      eexists token, ctx, b, rec, _. cbn [auth checkins].
      split; [exact Hh|]. split; [exact Hv|]. split; [reflexivity|].
      split; [exact Ec|]. split; [rewrite Hto; exact Ev|].
      split; [reflexivity|]. split; [reflexivity|]. split; [reflexivity|].
      cbn [row_id row_authorDid row_text row_createdAt row_uri row_cid].
      repeat (split; [reflexivity|]).
      apply List.Forall_forall. intros r Hin Heq.
      pose proof (WriteFacts.existsb_false_forall _ _ Ex r Hin) as Hf.
      cbv beta in Hf. rewrite Heq in Hf. cbn in Hf.
      rewrite String.eqb_refl in Hf. discriminate Hf.
    + intros Hno. exfalso. eapply Hno. reflexivity.
Qed.

Lemma authenticateRequest_bearer token w :
  authenticateRequest network (Some ("Bearer " ++ token)) w
  = validateToken network token w.
Proof.
  unfold authenticateRequest, Routes.substring. cbn [String.append].
  change ("Bearer " ++ token) with
    (String "B" (String "e" (String "a" (String "r" (String "e" (String "r"
       (String " " token))))))).
  cbn [String.eqb Ascii.eqb String.prefix orb].
  repeat (destruct (ascii_dec _ _) as [_|Hne]; [|contradiction Hne; reflexivity]).
  replace (String.prefix "" token) with true by (destruct token; reflexivity).
  cbn [negb String.length String.substring Nat.sub].
  rewrite Nat.sub_0_r, substring_all. reflexivity.
Qed.

Lemma createRecord_created authorization body generatedRkey generatedCid s
    uri cid s' :
  createRecord network Date_parse JSON_stringify authorization body
    generatedRkey generatedCid s = (Created uri cid, s') ->
  exists ctx b rec,
    body = Ret b
    /\ Types.validateCheckinRecord Date_parse (record b)
       = Ret (Utils.to_value rec)
    /\ createCheckinRecord JSON_stringify (checkins s)
         (or_else (rkey b) generatedRkey) (did ctx) rec uri cid
       = Inserted (checkins s')
    /\ uri = Utils.createAtUri (did ctx) "app.dropanchor.checkin"
               (or_else (rkey b) generatedRkey)
    /\ cid = generatedCid
    /\ (forall x, Utils.category rec = Some x -> x <> "")
    /\ (forall x, Utils.categoryGroup rec = Some x -> x <> "")
    /\ (forall x, Utils.categoryIcon rec = Some x -> x <> "").
Proof.
  unfold createRecord.
  destruct (authenticateRequest network authorization (auth s))
    as [[ctx|] w]; [|discriminate].
  destruct body as [b|e0]; [|discriminate].
  destruct (negb (collection b =? "app.dropanchor.checkin")%string);
    [discriminate|].
  destruct (Types.validateCheckinRecord Date_parse (record b)) as [v|e0] eqn:Ev;
    [|discriminate].
  destruct (Conformance.accepted_typed Date_parse _ _ Ev)
    as (rec & Has & Hto & B1 & B2 & B3).
  rewrite Has.
  destruct (createCheckinRecord _ _ _ _ _ _ _) as [table|] eqn:Ei;
    [|discriminate].
  intros [= <- <- <-]. exists ctx, b, rec. cbn [checkins].
  split; [reflexivity|]. split; [rewrite Hto; exact Ev|].
  split; [exact Ei|]. split; [reflexivity|]. split; [reflexivity|].
  repeat split; assumption.
Qed.

(** X17. A record that [createRecord] has reported is served by
    [getRecord] under the address of the reply, with the content
    identifier of the reply and the fields of the validated record, when
    no earlier row has that address, [JSON.parse] reads back what
    [JSON.stringify] wrote for the locations, and the generated
    identifier is not empty. *)
Theorem created_record_is_served authorization b generatedRkey generatedCid
    s uri cid s' :
  createRecord network Date_parse JSON_stringify authorization (Ret b)
    generatedRkey generatedCid s = (Created uri cid, s') ->
  (forall r, In r (checkins s) -> sql_eq (row_uri r) uri = false) ->
  (forall rec items,
     Types.validateCheckinRecord Date_parse (record b)
     = Ret (Utils.to_value rec) ->
     Utils.locations rec = Some items ->
     JSON_stringify (Array items) <> ""
     /\ JSON_parse (JSON_stringify (Array items)) = Ret (Array items)) ->
  generatedCid <> "" ->
  exists rec,
    Types.validateCheckinRecord Date_parse (record b)
    = Ret (Utils.to_value rec)
    /\ getRecord JSON_parse (Some uri) s'
       = Ret (Found uri (Some generatedCid)
                {| value_text := Utils.text rec;
                   value_createdAt := Utils.createdAt rec;
                   value_locations := option_map Array (Utils.locations rec);
                   value_category := Utils.category rec;
                   value_categoryGroup := Utils.categoryGroup rec;
                   value_categoryIcon := Utils.categoryIcon rec |}).
Proof.
  intros H Hfree Hjson Hcid.
  apply createRecord_created
    in H as (ctx & b' & rec & [= <-] & Hv & Hi & Hu & -> & B1 & B2 & B3).
  exists rec. split; [exact Hv|].
  assert (Hget : getCheckinByUri JSON_parse (checkins s') uri
                 = Ret (Some {| type := "app.dropanchor.checkin";
                                id := or_else (rkey b) generatedRkey;
                                authorDid := did ctx;
                                text := Utils.text rec;
                                createdAt := Utils.createdAt rec;
                                locations := option_map Array (Utils.locations rec);
                                category := read_back (Utils.category rec);
                                categoryGroup := read_back (Utils.categoryGroup rec);
                                categoryIcon := read_back (Utils.categoryIcon rec);
                                Queries.uri := uri;
                                cid := read_back (Some generatedCid) |})).
  { rewrite (WriteFacts.createCheckinRecord_inserted _ _ _ _ _ _ _ _ Hi).
    rewrite WriteFacts.lookup_last_row by (exact Hfree || reflexivity).
    rewrite (WriteFacts.inserted_row_conversion JSON_parse JSON_stringify
               _ _ _ _ _ (fun items => Hjson rec items Hv)).
    reflexivity. }
  unfold getRecord.
  assert (Hne : (uri =? "")%string = false) by (rewrite Hu; reflexivity).
  rewrite Hne, Hget. cbn [bind Queries.uri Queries.cid value_of text createdAt
                          locations category categoryGroup categoryIcon].
  assert (Hback : forall o,
            (forall x, o = Some x -> x <> "") -> read_back o = o).
  { intros [x|] Hb; [|reflexivity]. specialize (Hb x eq_refl).
    destruct x; [contradiction|reflexivity]. }
  rewrite (Hback _ B1), (Hback _ B2), (Hback _ B3), (Hback (Some generatedCid)).
  - reflexivity.
  - intros x [= <-]. exact Hcid.
Qed.

(** X18. [listCheckins] serves the caller's own check-ins and no others.
    A reply that carries a feed comes from a request whose bearer token
    [validateToken] resolved, and every check-in in it has the identity
    of the token as its author; a [user] parameter that names anybody
    else is answered with 403; and the table is never written. *)
Theorem listCheckins_own_only authorization user limit cursor s reply s' :
  listCheckins network JSON_parse parseInt authorization user limit cursor s
  = (reply, s') ->
  checkins s' = checkins s
  /\ (forall response,
        reply = Feed response ->
        exists token ctx,
          authorization = Some ("Bearer " ++ token)
          /\ validateToken network token (auth s) = (Some ctx, auth s')
          /\ Forall (fun c => response_author c = did ctx)
               (feed_checkins response))
  /\ (forall token ctx w u,
        authorization = Some ("Bearer " ++ token) ->
        validateToken network token (auth s) = (Some ctx, w) ->
        user = Some u -> u <> "" -> u <> did ctx ->
        reply = Forbidden).
Proof.
  unfold listCheckins.
  destruct (authenticateRequest network authorization (auth s))
    as [[ctx|] w] eqn:Ea.
  2: { intros [= <- <-]. split; [reflexivity|]. split; [discriminate|].
       intros token ctx w' u -> Hv. rewrite authenticateRequest_bearer in Ea.
       congruence. }
  destruct (or_else user (did ctx) =? did ctx)%string eqn:Eu; cbn [negb].
  - apply String.eqb_eq in Eu. intros [= <- <-].
    split; [reflexivity|]. cbn [auth checkins]. split.
    + intros response. unfold feed_of.
      destruct (as_limit _) as [n|]; [|discriminate].
      destruct (getCheckinsByAuthor _ _ _ _ _) as [cs|] eqn:Eq; [|discriminate].
      intros [= <-].
      apply authenticateRequest_some in Ea as (token & Hh & Hv).
      exists token, ctx. split; [exact Hh|]. split; [exact Hv|].
      apply FeedQueries.author_feed_authors in Eq. rewrite Eu in Eq.
      cbn [toFeedResponse feed_checkins]. apply Forall_map.
      eapply List.Forall_impl; [|exact Eq]. intros c Hc. exact Hc.
    + intros token ctx' w' u -> Hv -> Hne Hdiff.
      rewrite authenticateRequest_bearer in Ea.
      rewrite Hv in Ea. injection Ea as -> ->.
      exfalso. apply Hdiff. rewrite <- Eu. cbn [or_else].
      destruct (u =? "")%string eqn:E0; [|reflexivity].
      apply String.eqb_eq in E0. contradiction.
  - intros [= <- <-]. split; [reflexivity|]. split; [discriminate|].
    reflexivity.
Qed.

(** X19. The cursor of a global feed reply continues the feed. Let the
    NOT NULL columns hold text, the check-ins have distinct [createdAt]
    and the limit parameter read as a positive integer [n]. Let [rows] be
    the rows of the table, all of them and each once, listed by
    descending [createdAt], and [feed] the records those rows convert to,
    in that order. A request without a cursor that is answered with a
    feed is answered with the first [min n 100] records of [feed], and
    the request that carries the cursor of that reply is answered with
    the first [min n 100] of the records of [feed] that follow them, by
    the same token and with no further request to a host. *)
Theorem global_feed_cursor_continues authorization limit s n response s1 :
  Forall not_null (checkins s) ->
  Feed.distinct_times (checkins s) ->
  as_limit (requested_limit parseInt limit) = Some n ->
  0 < n ->
  Routes.getGlobalFeed_handler network JSON_parse parseInt authorization limit None s
  = (Feed response, s1) ->
  exists rows feed,
    Permutation rows (checkins s)
    /\ StronglySorted Feed.newer rows
    /\ Forall2 (fun r c => toStoredCheckin JSON_parse r = Ret c) rows feed
    /\ response = toFeedResponse (firstn (Z.to_nat (Z.min n 100)) feed)
    /\ forall c,
         feed_cursor response = Some c -> c <> "" ->
         Routes.getGlobalFeed_handler network JSON_parse parseInt authorization limit
           (Some c) s1
         = (Feed (toFeedResponse
                    (firstn (Z.to_nat (Z.min n 100))
                       (skipn (Z.to_nat (Z.min n 100)) feed))), s1).
Proof.
  intros Hn Hd Hl Hpos. unfold Routes.getGlobalFeed_handler.
  destruct (authenticateRequest network authorization (auth s))
    as [[ctx|] w] eqn:Ea; [|discriminate].
  destruct (PageFacts.pages JSON_parse (rev (checkins s))
              (Forall_rev Hn) (PageFacts.distinct_times_rev _ Hd))
    as (feed & Hfeed & _ & Hpages).
  destruct (Hpages (Z.min n 100) ltac:(lia)) as [Hfirst Hnext].
  unfold feed_of. rewrite Hl. cbn [checkins auth].
  unfold Queries.getGlobalFeed at 1. cbn [given].
  change (default 50 (Some n)) with n.
  rewrite (PageFacts.limit_in_range_bounds (Z.min n 100)) by lia.
  rewrite Hfirst.
  intros [= <- <-].
  exists (order_by_createdAt_desc (rev (checkins s))), feed.
  split.
  { rewrite SortFacts.order_perm. symmetry. apply Permutation_rev. }
  split; [apply SortFacts.order_sorted|].
  split; [apply FeedQueries.map_rows_each; exact Hfeed|].
  split; [reflexivity|].
  intros c Hc Hne. cbn [auth checkins].
  apply authenticateRequest_some in Ea as (token & -> & Hv).
  rewrite authenticateRequest_bearer, (CacheFacts.validateToken_again _ _ _ _ _ Hv).
  unfold Queries.getGlobalFeed.
  change (default 50 (Some n)) with n.
  rewrite (PageFacts.limit_in_range_bounds (Z.min n 100)) by lia.
  rewrite FeedQueries.rev_selection.
  set (k := Z.to_nat (Z.min n 100)) in *.
  cbn [toFeedResponse feed_cursor] in Hc.
  destruct (0 <? List.length (firstn k feed))%nat eqn:E0; [|discriminate Hc].
  destruct (nth_error (firstn k feed) (List.length (firstn k feed) - 1))
    as [c0|] eqn:E1; [|discriminate Hc].
  injection Hc as <-.
  apply Nat.ltb_lt in E0.
  assert (Hk : nth_error feed (List.length (firstn k feed) - 1) = Some c0).
  { rewrite <- (firstn_skipn k feed) at 1. rewrite nth_error_app1 by lia.
    exact E1. }
  rewrite (Hnext _ _ Hk Hne).
  replace (S (List.length (firstn k feed) - 1))
    with (List.length (firstn k feed)) by lia.
  assert (Hskip : skipn (List.length (firstn k feed)) feed = skipn k feed).
  { rewrite length_firstn.
    destruct (Nat.le_ge_cases k (List.length feed)) as [Hle|Hge].
    - rewrite Nat.min_l by exact Hle. reflexivity.
    - rewrite Nat.min_r by exact Hge.
      rewrite !skipn_all2 by lia. reflexivity. }
  rewrite Hskip. reflexivity.
Qed.

End RouteFacts.

Lemma createRecord_writes_for_caller_witness :
  exists new,
    checkins
      (snd (createRecord Examples.network Host.Date_parse SampleJSON.stringify
              (Some "Bearer good") (Ret Deployment.request) "3lxyz" "bafabc"
              Deployment.server))
    = (checkins Deployment.server ++ [new])%list
    /\ row_authorDid new = SText "did:plc:alice"
    /\ row_uri new = SText "at://did:plc:alice/app.dropanchor.checkin/3lxyz".
Proof.
  destruct (proj1 (createRecord_writes_for_caller Examples.network
                     Host.Date_parse SampleJSON.stringify
                     (Some "Bearer good") (Ret Deployment.request)
                     "3lxyz" "bafabc" Deployment.server
                     (Created "at://did:plc:alice/app.dropanchor.checkin/3lxyz"
                        "bafabc")
                     (snd (createRecord Examples.network Host.Date_parse
                             SampleJSON.stringify (Some "Bearer good")
                             (Ret Deployment.request) "3lxyz" "bafabc"
                             Deployment.server))
                     ltac:(vm_compute; reflexivity))
              _ _ eq_refl)
    as (token & ctx & b & rec & new & Hh & Hv & Hb & _ & _ & Hu & _ & Hs & _
        & Ha & _ & _ & Hr & _).
  exists new. split; [exact Hs|].
  vm_compute in Hh. injection Hh as Ht. subst token.
  vm_compute in Hv. injection Hv as <-.
  injection Hb as <-. split; [exact Ha|]. rewrite Hr, Hu. reflexivity.
Defined.

Lemma created_record_is_served_witness :
  exists value,
    getRecord SampleJSON.parse
      (Some "at://did:plc:alice/app.dropanchor.checkin/3lxyz")
      (snd (createRecord Examples.network Host.Date_parse SampleJSON.stringify
              (Some "Bearer good") (Ret Deployment.request) "3lxyz" "bafabc"
              Deployment.server))
    = Ret (Found "at://did:plc:alice/app.dropanchor.checkin/3lxyz"
             (Some "bafabc") value)
    /\ value_category value = Some "cafe".
Proof.
  destruct (created_record_is_served Examples.network Host.Date_parse
              SampleJSON.parse SampleJSON.stringify
              (Some "Bearer good") Deployment.request "3lxyz" "bafabc"
              Deployment.server
              "at://did:plc:alice/app.dropanchor.checkin/3lxyz" "bafabc"
              (snd (createRecord Examples.network Host.Date_parse
                      SampleJSON.stringify (Some "Bearer good")
                      (Ret Deployment.request) "3lxyz" "bafabc"
                      Deployment.server)))
    as (rec & Hv & Hget).
  - vm_compute. reflexivity.
  - intros r Hr.
    pose proof (proj1 (forallb_forall
      (fun r => negb (sql_eq (row_uri r)
                        "at://did:plc:alice/app.dropanchor.checkin/3lxyz"))
      (checkins Deployment.server)) ltac:(vm_compute; reflexivity) r Hr) as H.
    apply negb_true_iff in H. exact H.
  - intros rec items Hv Hl.
    pose proof (f_equal (fun c => match c with
                                  | Ret v => Utils.as_CheckinRecord v
                                  | Throw _ => None
                                  end) Hv) as Hrec.
    cbv beta iota in Hrec.
    rewrite Conformance.as_CheckinRecord_to_value in Hrec.
    vm_compute in Hrec.
    injection Hrec as <-. cbn [Utils.locations] in Hl. injection Hl as <-.
    split; [vm_compute; discriminate|vm_compute; reflexivity].
  - discriminate.
  - eexists. split; [exact Hget|].
    pose proof (f_equal (fun c => match c with
                                  | Ret v => Utils.as_CheckinRecord v
                                  | Throw _ => None
                                  end) Hv) as Hrec.
    cbv beta iota in Hrec.
    rewrite Conformance.as_CheckinRecord_to_value in Hrec.
    vm_compute in Hrec.
    injection Hrec as <-. reflexivity.
Defined.

Lemma listCheckins_own_only_witness :
  (exists response,
     fst (listCheckins Examples.network SampleJSON.parse Deployment.parseInt
            (Some "Bearer good") None (Some "5") None Deployment.server)
     = Feed response
     /\ Forall (fun c => response_author c = "did:plc:alice")
          (feed_checkins response))
  /\ fst (listCheckins Examples.network SampleJSON.parse Deployment.parseInt
            (Some "Bearer good") (Some "did:plc:bob") None None
            Deployment.server)
     = Forbidden.
Proof.
  split.
  - destruct (listCheckins Examples.network SampleJSON.parse
                Deployment.parseInt (Some "Bearer good") None (Some "5") None
                Deployment.server) as [reply s'] eqn:E.
    pose proof (listCheckins_own_only _ _ _ _ _ _ _ _ _ _ E) as (_ & Hfeed & _).
    vm_compute in E. injection E as <- <-.
    eexists. split; [reflexivity|].
    destruct (Hfeed _ eq_refl) as (token & ctx & Hh & Hv & Hall).
    vm_compute in Hh. injection Hh as Ht. subst token.
    vm_compute in Hv. injection Hv as <-. exact Hall.
  - refine (proj2 (proj2 (listCheckins_own_only Examples.network
                            SampleJSON.parse Deployment.parseInt
                            (Some "Bearer good") (Some "did:plc:bob") None None
                            Deployment.server _ _ (surjective_pairing _)))
              "good" Examples.alice
              (snd (validateToken Examples.network "good"
                      (auth Deployment.server)))
              "did:plc:bob" eq_refl _ eq_refl _ _).
    + vm_compute. reflexivity.
    + discriminate.
    + discriminate.
Defined.

Lemma global_feed_cursor_continues_witness :
  exists rows feed response s1,
    Routes.getGlobalFeed_handler Examples.network SampleJSON.parse Deployment.parseInt
      (Some "Bearer good") (Some "2") None Deployment.server
    = (Feed response, s1)
    /\ Permutation rows (checkins Deployment.server)
    /\ StronglySorted Feed.newer rows
    /\ Forall2 (fun r c => toStoredCheckin SampleJSON.parse r = Ret c) rows feed
    /\ response = toFeedResponse (firstn 2 feed)
    /\ forall c,
         feed_cursor response = Some c -> c <> "" ->
         Routes.getGlobalFeed_handler Examples.network SampleJSON.parse
           Deployment.parseInt (Some "Bearer good") (Some "2") (Some c) s1
         = (Feed (toFeedResponse (firstn 2 (skipn 2 feed))), s1).
Proof.
  destruct (Routes.getGlobalFeed_handler Examples.network SampleJSON.parse
              Deployment.parseInt (Some "Bearer good") (Some "2") None
              Deployment.server) as [reply s1] eqn:E.
  pose proof E as E'. vm_compute in E'. injection E' as <- <-.
  assert (Hn : Forall not_null (checkins Deployment.server)).
  { apply List.Forall_forall. intros r Hr. apply SortFacts.firstn_In in Hr.
    exact (proj1 (List.Forall_forall _ _) PageFacts.timeline_not_null r Hr). }
  assert (Hd : Feed.distinct_times (checkins Deployment.server)).
  { unfold Feed.distinct_times. apply (bool_decide_unpack _). vm_compute.
    exact I. }
  assert (Hl : as_limit (requested_limit Deployment.parseInt (Some "2"))
               = Some 2) by (vm_compute; reflexivity).
  destruct (global_feed_cursor_continues Examples.network SampleJSON.parse
              Deployment.parseInt (Some "Bearer good") (Some "2")
              Deployment.server 2 _ _ Hn Hd Hl ltac:(lia) E)
    as (rows & feed & Hperm & Hsorted & Hconv & Hresp & Hnext).
  exists rows, feed. eexists. eexists. split; [reflexivity|].
  split; [exact Hperm|]. split; [exact Hsorted|]. split; [exact Hconv|].
  split; [exact Hresp|exact Hnext].
Defined.

End RouteFacts.

(** ** Address locations *)

Module AddressFacts.
Import JS Types JSFacts Address.

Lemma validateAddressLocation_blocks location :
  validateAddressLocation location
  = do validatedAddress <-
      blocks location optional_fields
        [("$type", Str "community.lexicon.location.address")];
    Ret (Object validatedAddress).
Proof.
  unfold validateAddressLocation, optional_fields. cbn [blocks].
  repeat match goal with
         | |- context [address_field ?l ?f ?a] =>
             destruct (address_field l f a); cbn [bind]; try reflexivity
         end.
Qed.

Lemma blocks_accepted location fields acc :
  is_undefined location || is_null location = false ->
  forallb (fun f => absent_or_string (prop location f)) fields = true ->
  exists acc',
    blocks location fields acc = Ret acc'
    /\ forall k,
         assoc k acc'
         = if existsb (String.eqb k) fields
              && negb (is_undefined (prop location k))
           then Some (prop location k) else assoc k acc.
Proof.
  intros Hdef. revert acc. induction fields as [|f rest IH]; intros acc H.
  - exists acc. split; [reflexivity|]. intros k. reflexivity.
  - cbn [forallb] in H. apply andb_true_iff in H as [Hf Hrest].
    cbn [blocks].
    destruct (address_field location f acc) as [acc1|] eqn:E1.
    2: { exfalso. rewrite Refinement.address_field_eq, Hdef in E1.
         destruct (prop location f); try discriminate Hf; discriminate E1. }
    cbn [bind]. destruct (IH acc1 Hrest) as (acc' & Hb & Hk).
    exists acc'. split; [exact Hb|]. intros k. rewrite Hk.
    rewrite (Idempotence.address_field_result _ _ _ _ E1 k).
    cbn [existsb]. rewrite (String.eqb_sym k f).
    destruct (f =? k)%string eqn:Efk; cbn [orb andb]; [|reflexivity].
    apply String.eqb_eq in Efk. subst k.
    destruct (existsb _ rest), (is_undefined (prop location f)); reflexivity.
Qed.

Lemma blocks_rejected location before f after acc :
  is_undefined location || is_null location = false ->
  forallb (fun f => absent_or_string (prop location f)) before = true ->
  absent_or_string (prop location f) = false ->
  blocks location (before ++ f :: after) acc
  = Throw (Error (f ++ " must be a string")).
Proof.
  intros Hdef. revert acc. induction before as [|g rest IH]; intros acc Hb Hf.
  - cbn [app blocks]. rewrite Refinement.address_field_eq, Hdef.
    destruct (prop location f); try discriminate Hf; reflexivity.
  - cbn [forallb] in Hb. apply andb_true_iff in Hb as [Hg Hrest].
    cbn [app blocks].
    destruct (blocks_accepted location [g] acc Hdef) as (acc1 & H1 & _).
    { cbn [forallb]. rewrite Hg. reflexivity. }
    cbn [blocks] in H1.
    destruct (address_field location g acc) as [a|]; [|discriminate H1].
    cbn [bind]. apply IH; assumption.
Qed.

Lemma first_rejected (p : string -> bool) fields :
  forallb p fields = false ->
  exists before f after,
    fields = (before ++ f :: after)%list
    /\ forallb p before = true /\ p f = false.
Proof.
  induction fields as [|g rest IH]; [discriminate|]. cbn [forallb].
  destruct (p g) eqn:Eg; cbn [andb].
  - intros H. destruct (IH H) as (before & f & after & -> & Hb & Hf).
    exists (g :: before), f, after. cbn [forallb]. rewrite Eg.
    repeat split; assumption.
  - intros _. exists [], g, rest. repeat split. exact Eg.
Qed.

(** X20. [validateAddressLocation] throws a [TypeError] for [null] and
    [undefined]. Any other location it accepts exactly when each of
    [street], [locality], [region], [country], [postalCode] and [name] is
    absent or a string, the empty string included. What it returns then
    carries the address type and, for each of the six, what the input
    carries. What it throws otherwise names the first of the six, in this
    order, that is neither absent nor a string. *)
Theorem address_accepted_iff location :
  (is_undefined location || is_null location = true ->
   validateAddressLocation location = Throw TypeError)
  /\ (is_undefined location || is_null location = false ->
      ((exists v, validateAddressLocation location = Ret v)
       <-> forallb (fun f => absent_or_string (prop location f))
             optional_fields = true)
      /\ (forall v,
            validateAddressLocation location = Ret v ->
            prop v "$type" = Str "community.lexicon.location.address"
            /\ Forall (fun f => prop v f = prop location f) optional_fields)
      /\ (forall e,
            validateAddressLocation location = Throw e ->
            exists before f after,
              optional_fields = (before ++ f :: after)%list
              /\ forallb (fun f => absent_or_string (prop location f)) before
                 = true
              /\ absent_or_string (prop location f) = false
              /\ e = Error (f ++ " must be a string"))).
Proof.
  split.
  { destruct location; try discriminate; reflexivity. }
  intros Hdef. rewrite validateAddressLocation_blocks.
  destruct (forallb (fun f => absent_or_string (prop location f))
              optional_fields) eqn:E.
  - destruct (blocks_accepted location optional_fields
                [("$type", Str "community.lexicon.location.address")] Hdef E)
      as (acc & Hb & Hk).
    rewrite Hb. cbn [bind]. split; [|split].
    + split; [reflexivity|]. intros _. eexists. reflexivity.
    + intros v [= <-]. split.
      * change (prop (Object acc) "$type") with (or_undefined (assoc "$type" acc)).
        rewrite Hk. reflexivity.
      * apply List.Forall_forall. intros f Hf.
        change (prop (Object acc) f) with (or_undefined (assoc f acc)).
        rewrite Hk.
        assert (Hin : existsb (String.eqb f) optional_fields = true).
        { apply existsb_exists. exists f. split; [exact Hf|apply String.eqb_refl]. }
        rewrite Hin. cbn [andb].
        destruct (prop location f) eqn:Ef; cbn [is_undefined negb or_undefined];
          try reflexivity.
        assert (Hne : (f =? "$type")%string = false).
        { simpl in Hf. repeat (destruct Hf as [<-|Hf]; [reflexivity|]).
          contradiction. }
        cbn [assoc]. rewrite String.eqb_sym, Hne. reflexivity.
    + discriminate.
  - destruct (first_rejected _ _ E) as (before & f & after & Hs & Hb & Hf).
    assert (Hthrow : blocks location optional_fields
                       [("$type", Str "community.lexicon.location.address")]
                     = Throw (Error (f ++ " must be a string")))
      by (rewrite Hs; apply blocks_rejected; assumption).
    rewrite Hthrow. cbn [bind].
    split; [|split].
    + split; [intros [v Hv]; discriminate Hv|discriminate].
    + discriminate.
    + intros e [= <-]. exists before, f, after. repeat split; assumption.
Qed.

Lemma address_accepted_iff_witness :
  validateAddressLocation Null = Throw TypeError
  /\ (exists v,
        validateAddressLocation
          (Object [("$type", Str "community.lexicon.location.address");
                   ("street", Str "")]) = Ret v)
  /\ forall e,
       validateAddressLocation
         (Object [("street", Str "1 Main St"); ("region", Bool true);
                  ("name", Null)]) = Throw e ->
       exists f, e = Error (f ++ " must be a string").
Proof.
  split; [exact (proj1 (address_accepted_iff Null) eq_refl)|]. split.
  - apply (proj2 (proj1 (proj2 (address_accepted_iff
                                  (Object [("$type", Str "community.lexicon.location.address");
                                           ("street", Str "")])) eq_refl))).
    reflexivity.
  - intros e He.
    destruct (proj2 (proj2 (proj2 (address_accepted_iff
                                     (Object [("street", Str "1 Main St");
                                              ("region", Bool true);
                                              ("name", Null)])) eq_refl))
                e He) as (before & f & after & _ & _ & _ & ->).
    exists f. reflexivity.
Defined.

End AddressFacts.

(** ** Addresses stay unique *)

Module InvariantFacts.
Import JS Queries Auth Writes Routes Invariant.

Lemma addressed_uri_key r r' :
  addressed r -> addressed r' -> row_uri r = row_uri r' -> row_id r = row_id r'.
Proof.
  intros (d & k & Hi & _ & Hd & Hu) (d' & k' & Hi' & _ & Hd' & Hu') E.
  rewrite Hu, Hu' in E. unfold Utils.createAtUri in E.
  cbn [String.append] in E. injection E as E.
  apply UriFacts.append_slash_inj in E as [_ E]; try assumption.
  apply UriFacts.append_slash_inj in E as [_ ->]; try reflexivity.
  congruence.
Qed.

Lemma well_addressed_uris table :
  well_addressed table -> NoDup (map row_uri table).
Proof.
  unfold well_addressed, keys_unique. intros [Hk Ha].
  induction table as [|x rest IH]; [constructor|].
  cbn [map] in *. apply NoDup_cons in Hk as [Hx Hk].
  inversion Ha as [|? ? Hax Har]; subst.
  apply NoDup_cons. split; [|apply IH; assumption].
  intros Hin. apply Hx. apply list_elem_of_In in Hin.
  apply in_map_iff in Hin as (y & Hy & Hin).
  apply list_elem_of_In.
  rewrite (addressed_uri_key x y Hax
             (proj1 (List.Forall_forall _ _) Har y Hin) (eq_sym Hy)).
  apply in_map. exact Hin.
Qed.

Section InvariantFacts.

Variable network : string -> string -> Z -> response * N.
Variable Date_parse : string -> number.
Variable JSON_stringify : value -> string.

(** X21. [createRecord] keeps the table well addressed. When the keys are
    distinct and every row carries the at:// address of its author and
    key, and the identity of the request holds no slash, the same is true
    after the request, whatever it was and whatever the reply; and then no
    two rows have the same address, so that [getRecord] has at most one
    row to choose from. *)
Theorem createRecord_keeps_addresses authorization body generatedRkey
    generatedCid s reply s' :
  well_addressed (checkins s) ->
  (forall ctx w,
     authenticateRequest network authorization (auth s) = (Some ctx, w) ->
     Utils.no_slash (did ctx) = true) ->
  createRecord network Date_parse JSON_stringify authorization body
    generatedRkey generatedCid s = (reply, s') ->
  well_addressed (checkins s') /\ NoDup (map row_uri (checkins s')).
Proof.
  intros Hw Hdid H.
  assert (Hkeep : well_addressed (checkins s')).
  { revert H. unfold createRecord.
    destruct (authenticateRequest network authorization (auth s))
      as [[ctx|] w] eqn:Ea; [|intros [= <- <-]; exact Hw].
    destruct body as [b|e]; [|intros [= <- <-]; exact Hw].
    destruct (negb (collection b =? "app.dropanchor.checkin")%string);
      [intros [= <- <-]; exact Hw|].
    destruct (Types.validateCheckinRecord Date_parse (record b)) as [v|e];
      [|intros [= <- <-]; exact Hw].
    destruct (Utils.as_CheckinRecord v) as [rec|];
      [|intros [= <- <-]; exact Hw].
    unfold createCheckinRecord.
    destruct (existsb _ (checkins s)) eqn:Ex; intros [= <- <-]; [exact Hw|].
    cbn [checkins]. destruct Hw as [Hk Ha]. split.
    - unfold keys_unique in *. rewrite map_app. cbn [map row_id].
      apply NoDup_app. split; [exact Hk|]. split; [|apply NoDup_singleton].
      intros k Hin Hnew. apply list_elem_of_In in Hin, Hnew.
      destruct Hnew as [<-|[]]. apply in_map_iff in Hin as (r & Hr & Hin).
      pose proof (WriteFacts.existsb_false_forall _ _ Ex r Hin) as Hf.
      cbv beta in Hf. rewrite Hr in Hf. cbn in Hf.
      rewrite String.eqb_refl in Hf. discriminate Hf.
    - apply Forall_app. split; [exact Ha|]. constructor; [|constructor].
      exists (did ctx), (or_else (rkey b) generatedRkey).
      cbn [row_id row_authorDid row_uri].
      repeat split. exact (Hdid ctx w eq_refl). }
  split; [exact Hkeep|]. apply well_addressed_uris. exact Hkeep.
Qed.

(** X22. A request that carries no bearer token is turned away by every
    handler that asks for an identity: [createRecord], [listCheckins] and
    [getGlobalFeed] answer 401, no host is asked, and the cache and the
    table are what they were. The scheme is matched by case and with its
    space. *)
Theorem no_bearer_no_effect authorization s :
  (forall h, authorization = Some h -> String.prefix "Bearer " h = false) ->
  (forall body generatedRkey generatedCid,
     createRecord network Date_parse JSON_stringify authorization body
       generatedRkey generatedCid s = (CreateUnauthenticated, s))
  /\ (forall JSON_parse parseInt user limit cursor,
        listCheckins network JSON_parse parseInt authorization user limit
          cursor s = (FeedUnauthenticated, s))
  /\ (forall JSON_parse parseInt limit cursor,
        Routes.getGlobalFeed_handler network JSON_parse parseInt authorization limit
          cursor s = (FeedUnauthenticated, s)).
Proof.
  intros Hno.
  assert (Ha : authenticateRequest network authorization (auth s)
               = (None, auth s)).
  { unfold authenticateRequest. destruct authorization as [h|]; [|reflexivity].
    rewrite (Hno h eq_refl). cbn [negb]. rewrite orb_true_r. reflexivity. }
  unfold createRecord, listCheckins, Routes.getGlobalFeed_handler. rewrite Ha.
  destruct s. repeat split.
Qed.

End InvariantFacts.

Lemma createRecord_keeps_addresses_witness :
  well_addressed
    (checkins
       (snd (createRecord Examples.network Host.Date_parse SampleJSON.stringify
               (Some "Bearer good") (Ret Deployment.request) "3lxyz" "bafabc"
               Deployment.server)))
  /\ NoDup
       (map row_uri
          (checkins
             (snd (createRecord Examples.network Host.Date_parse
                     SampleJSON.stringify (Some "Bearer good")
                     (Ret Deployment.request) "3lxyz" "bafabc"
                     Deployment.server)))).
Proof.
  apply (createRecord_keeps_addresses Examples.network Host.Date_parse
           SampleJSON.stringify (Some "Bearer good") (Ret Deployment.request)
           "3lxyz" "bafabc" Deployment.server
           (fst (createRecord Examples.network Host.Date_parse
                   SampleJSON.stringify (Some "Bearer good")
                   (Ret Deployment.request) "3lxyz" "bafabc"
                   Deployment.server))).
  - split.
    + unfold keys_unique. apply (bool_decide_unpack _). vm_compute. exact I.
    + repeat constructor; eexists _, _; repeat split; reflexivity.
  - intros ctx w H. vm_compute in H. injection H as <- _. reflexivity.
  - apply surjective_pairing.
Defined.

Lemma no_bearer_no_effect_witness :
  createRecord Examples.network Host.Date_parse SampleJSON.stringify
    (Some "bearer good") (Ret Deployment.request) "3lxyz" "bafabc"
    Deployment.server
  = (CreateUnauthenticated, Deployment.server).
Proof.
  apply (proj1 (no_bearer_no_effect Examples.network Host.Date_parse
                  SampleJSON.stringify (Some "bearer good") Deployment.server
                  ltac:(intros h [= <-]; reflexivity))).
Defined.

End InvariantFacts.
